(** * Content generator: retry, key rotation and the bounded worker queue

    A shallow embedding of the multi-key batch script (the live copy of the
    script: configuration, [getNextGemini], [generateSafeFilename],
    [sendEmail], [generateWithRetry], [processFile], [runQueue],
    [getFolderStats], [sendBatchEmail], [run]), of the inline sanitizer of
    the single-key script, and the properties the specification states
    about them; then of the single-key script ([getGemini], [sendEmail],
    [run]) and of further properties of both.

    JavaScript strings are sequences of UTF-16 code units, modelled as
    [list N].  Asynchronous code is modelled as a resumption tree ([Prog]):
    synchronous segments run to completion, every [await] of an external
    operation is a suspension point at which the workers of [runQueue] may
    interleave. *)

From Stdlib Require Import NArith ZArith Lia Bool String Ascii.
From stdpp Require Import base list sorting gmap.

Local Open Scope N_scope.

(** ** Strings *)

(** A string literal of the source whose characters are all ASCII. *)
Definition lit (s : string) : list N :=
  List.map N_of_ascii (list_ascii_of_string s).

Fixpoint uint_units (d : Decimal.uint) : list N :=
  match d with
  | Decimal.Nil => []
  | Decimal.D0 d => 48 :: uint_units d
  | Decimal.D1 d => 49 :: uint_units d
  | Decimal.D2 d => 50 :: uint_units d
  | Decimal.D3 d => 51 :: uint_units d
  | Decimal.D4 d => 52 :: uint_units d
  | Decimal.D5 d => 53 :: uint_units d
  | Decimal.D6 d => 54 :: uint_units d
  | Decimal.D7 d => 55 :: uint_units d
  | Decimal.D8 d => 56 :: uint_units d
  | Decimal.D9 d => 57 :: uint_units d
  end.

(** [`${n}`] for a non-negative integer [n]. *)
Definition Number_toString (n : nat) : list N :=
  uint_units (Nat.to_uint n).

(** [a === b] on strings. *)
Definition str_eqb (a b : list N) : bool := bool_decide (a = b).

(** [s.startsWith(p)] and [s.endsWith(p)]. *)
Fixpoint startsWith (p s : list N) : bool :=
  match p, s with
  | [], _ => true
  | _ :: _, [] => false
  | a :: p', b :: s' => (a =? b) && startsWith p' s'
  end.

Definition endsWith (p s : list N) : bool := startsWith (rev p) (rev s).

(** ** The slug generator *)

Module Slug.

(** [\w] of a regular expression without the [u] and [i] flags. *)
Definition is_word (c : N) : bool :=
  ((48 <=? c) && (c <=? 57)) || ((65 <=? c) && (c <=? 90))
  || (c =? 95) || ((97 <=? c) && (c <=? 122)).

(** [\s]: the WhiteSpace and LineTerminator code points of ECMAScript, which
    are also what [String.prototype.trim] removes. *)
Definition is_space (c : N) : bool :=
  ((9 <=? c) && (c <=? 13)) || (c =? 32) || (c =? 160) || (c =? 5760)
  || ((8192 <=? c) && (c <=? 8202)) || (c =? 8232) || (c =? 8233)
  || (c =? 8239) || (c =? 8287) || (c =? 12288) || (c =? 65279).

Definition hyphen : N := 45.
Definition is_hyphen (c : N) : bool := c =? hyphen.

Definition is_upper (c : N) : bool := (65 <=? c) && (c <=? 90).
Definition is_lower_slug (c : N) : bool :=
  ((48 <=? c) && (c <=? 57)) || (c =? 95) || ((97 <=? c) && (c <=? 122))
  || is_hyphen c.
Definition is_slug (c : N) : bool := is_word c || is_hyphen c.

(** [.replace(/[^\w\s-]/g, '')] *)
Definition remove_special (s : list N) : list N :=
  List.filter (fun c => is_word c || is_space c || is_hyphen c) s.

Fixpoint trimStart (s : list N) : list N :=
  match s with
  | [] => []
  | c :: s' => if is_space c then trimStart s' else s
  end.

(** [.trim()] *)
Definition trim (s : list N) : list N := rev (trimStart (rev (trimStart s))).

(** [.replace(/p+/g, r)] for a one-character class [p] and a one-character
    replacement [r]: every maximal run of [p] becomes one [r].  [in_run]
    tells that the previous character belonged to a run already replaced. *)
Fixpoint replace_runs (p : N -> bool) (r : N) (in_run : bool) (s : list N)
  : list N :=
  match s with
  | [] => []
  | c :: s' =>
      if p c then
        if in_run then replace_runs p r true s'
        else r :: replace_runs p r true s'
      else c :: replace_runs p r false s'
  end.

(** [.replace(/\s+/g, '-')] *)
Definition spaces_to_hyphen (s : list N) : list N :=
  replace_runs is_space hyphen false s.

(** [.replace(/-+/g, '-')] *)
Definition collapse_hyphens (s : list N) : list N :=
  replace_runs is_hyphen hyphen false s.

Definition strip_leading (s : list N) : list N :=
  match s with
  | c :: s' => if is_hyphen c then s' else s
  | [] => []
  end.

Fixpoint strip_trailing (s : list N) : list N :=
  match s with
  | [] => []
  | [c] => if is_hyphen c then [] else [c]
  | c :: s' => c :: strip_trailing s'
  end.

(** [.replace(/^-|-$/g, '')]: a hyphen at index 0 is removed by the first
    alternative; scanning goes on after it, where only [-$] can match. *)
Definition strip_hyphen_ends (s : list N) : list N :=
  strip_trailing (strip_leading s).

(** The three library functions the slug generator calls.  They belong to
    the JavaScript runtime, not to the script: the theorems that hold for
    every input hold for every implementation of them. *)
Class StringLib := {
  (** [path.parse(p).name] *)
  path_parse_name : list N -> list N;
  (** [s.toLowerCase()] *)
  toLowerCase : list N -> list N;
  (** [s.normalize('NFKD')] *)
  normalize_NFKD : list N -> list N
}.

Definition extension : list N := lit ".mdx".

(** The slug before the extension is appended. *)
Definition slug_of `{StringLib} (originalFilename : list N) : list N :=
  let baseName := path_parse_name originalFilename in
  strip_hyphen_ends
    (collapse_hyphens
       (spaces_to_hyphen
          (trim
             (remove_special
                (normalize_NFKD (toLowerCase baseName)))))).

Definition generateSafeFilename `{StringLib} (originalFilename : list N)
  : list N :=
  slug_of originalFilename ++ extension.

(** The inverse of appending the extension, used to state idempotence. *)
Definition stripExtension (name : list N) : list N :=
  if endsWith extension name
  then take (length name - length extension)%nat name
  else name.

(** *** A runtime to compute with

    [path.parse] of Node.js on POSIX, transliterated from its loop over the
    characters of the path, from the last one down. *)

Local Open Scope Z_scope.

Record ParseScan := {
  startDot : Z;
  startPart : Z;
  end_ : Z;
  matchedSlash : bool;
  preDotState : Z
}.

Definition charCodeAt (path : list N) (i : Z) : N :=
  nth (Z.to_nat i) path 0%N.

(** One iteration of the loop at index [i]; [inl] is [break]. *)
Definition parse_iter (path : list N) (i : Z) (st : ParseScan)
  : ParseScan + ParseScan :=
  let code := charCodeAt path i in
  if (code =? 47)%N then
    if negb (matchedSlash st)
    then inl {| startDot := startDot st; startPart := i + 1;
                end_ := end_ st; matchedSlash := matchedSlash st;
                preDotState := preDotState st |}
    else inr st
  else
    let st1 :=
      if end_ st =? -1
      then {| startDot := startDot st; startPart := startPart st;
              end_ := i + 1; matchedSlash := false;
              preDotState := preDotState st |}
      else st in
    if (code =? 46)%N then
      if startDot st1 =? -1
      then inr {| startDot := i; startPart := startPart st1;
                  end_ := end_ st1; matchedSlash := matchedSlash st1;
                  preDotState := preDotState st1 |}
      else if negb (preDotState st1 =? 1)
      then inr {| startDot := startDot st1; startPart := startPart st1;
                  end_ := end_ st1; matchedSlash := matchedSlash st1;
                  preDotState := 1 |}
      else inr st1
    else if negb (startDot st1 =? -1)
    then inr {| startDot := startDot st1; startPart := startPart st1;
                end_ := end_ st1; matchedSlash := matchedSlash st1;
                preDotState := -1 |}
    else inr st1.

(** [for (; i >= start; --i)], with [n] iterations left and
    [i = start + n - 1]. *)
Fixpoint parse_scan (path : list N) (start : Z) (n : nat) (st : ParseScan)
  : ParseScan :=
  match n with
  | O => st
  | S n' =>
      match parse_iter path (start + Z.of_nat n') st with
      | inl st' => st'
      | inr st' => parse_scan path start n' st'
      end
  end.

Definition slice (s : list N) (from to : Z) : list N :=
  take (Z.to_nat to - Z.to_nat from)%nat (drop (Z.to_nat from) s).

Definition posix_parse_name (path : list N) : list N :=
  match path with
  | [] => []
  | c0 :: _ =>
      let isAbsolute := (c0 =? 47)%N in
      let start := if isAbsolute then 1 else 0 in
      let st :=
        parse_scan path start (length path - Z.to_nat start)%nat
          {| startDot := -1; startPart := 0; end_ := -1;
             matchedSlash := true; preDotState := 0 |} in
      if negb (end_ st =? -1) then
        let start' :=
          if (startPart st =? 0) && isAbsolute then 1 else startPart st in
        if (startDot st =? -1) || (preDotState st =? 0)
           || ((preDotState st =? 1) && (startDot st =? end_ st - 1)
               && (startDot st =? startPart st + 1))
        then slice path start' (end_ st)
        else slice path start' (startDot st)
      else []
  end.

Local Close Scope Z_scope.

(** Case mapping and compatibility decomposition on the code points this
    development computes with: the ASCII range, where [toLowerCase] maps
    [A-Z] to [a-z] and NFKD changes nothing, and the two letter-like symbols
    U+2103 (DEGREE CELSIUS) and U+2109 (DEGREE FAHRENHEIT), which have no
    lowercase mapping and decompose to U+00B0 followed by an uppercase
    letter.  Other code points are passed through. *)
Definition lower_unit (c : N) : N :=
  if is_upper c then c + 32 else c.

Definition nfkd_unit (c : N) : list N :=
  if c =? 8451 then [176; 67]
  else if c =? 8457 then [176; 70]
  else [c].

(** The inline sanitizer of the single-key script,
    [originalFilename.replace(/[^a-z0-9]/gi, '_').toLowerCase() + '.mdx'].
    Without the [u] flag, [i] lets no character outside ASCII match
    [[a-z0-9]]; what is lowercased holds ASCII letters, digits and
    underscores only, where [toLowerCase] is [lower_unit] on every
    character. *)
Definition is_alnum (c : N) : bool :=
  ((48 <=? c) && (c <=? 57)) || ((65 <=? c) && (c <=? 90))
  || ((97 <=? c) && (c <=? 122)).

Definition is_lower_underscore (c : N) : bool :=
  ((48 <=? c) && (c <=? 57)) || ((97 <=? c) && (c <=? 122)) || (c =? 95).

Definition safeFilename (originalFilename : list N) : list N :=
  List.map lower_unit
    (List.map (fun c => if is_alnum c then c else 95) originalFilename)
  ++ extension.

#[global] Instance node_posix : StringLib := {|
  path_parse_name := posix_parse_name;
  toLowerCase := List.map lower_unit;
  normalize_NFKD := fun s => List.concat (List.map nfkd_unit s)
|}.

End Slug.

(** ** Values of the script *)

(** A thrown value: [error.message] and [error?.response?.status]. *)
Record JsError := {
  message : list N;
  status : option N
}.

(** [new Error(msg)] *)
Definition Error (msg : list N) : JsError :=
  {| message := msg; status := None |}.

Definition TypeError (msg : list N) : JsError := Error msg.

(** A record of the pending-files API. *)
Record File := {
  id : list N;
  originalFilename : list N;
  secureUrl : list N;
  file_status : list N
}.

(** What [processFile] returns: [{ success, name, error? }]. *)
Record Outcome := {
  success : bool;
  name : list N;
  error : option (list N)
}.

(** [response.data] of an HTTP GET: a string, an array of file records, or
    any other value; the last two carry the text [JSON.stringify] gives. *)
Inductive JsValue :=
| VString (s : list N)
| VFiles (files : list File) (json : list N)
| VOther (json : list N).

(** [typeof data === 'string' ? data : JSON.stringify(data)] *)
Definition promptText_of (data : JsValue) : list N :=
  match data with
  | VString s => s
  | VFiles _ json => json
  | VOther json => json
  end.

(** The client [new GoogleGenAI({ apiKey: key })]; [apiKeys[keyIndex]] is
    [undefined] out of range. *)
Record GoogleGenAI := { apiKey : option (list N) }.

Record PutBody := {
  put_status : list N;
  completedTimestamp : N
}.

Record Mail := {
  mail_from : option (list N);
  mail_to : option (list N);
  mail_subject : list N;
  mail_text : list N
}.

(** ** Configuration *)

Record Config := {
  BATCH_SIZE : nat;
  CONCURRENCY_LIMIT : nat;
  REQUEST_DELAY : nat;
  MAX_RETRIES : nat
}.

(** The constants of the script. *)
Definition script_config : Config :=
  {| BATCH_SIZE := 20; CONCURRENCY_LIMIT := 3;
     REQUEST_DELAY := 1500; MAX_RETRIES := 5 |}.

Definition EXTERNAL_API_BASE : list N :=
  lit "https://cloud-text-manager-server.vercel.app".
Definition EXTERNAL_API_URL : list N := EXTERNAL_API_BASE ++ lit "/api/files".

(** ** The outside world *)

(** The operations the script awaits.  Each one is a suspension point. *)
Inductive Request :=
| AxiosGet (url : list N)
| AxiosPut (url : list N) (body : PutBody)
| SetTimeout (ms : nat)
| GenerateContent (ai : GoogleGenAI) (model contents : list N)
| SendMail (m : Mail).

(** The type of the value a request resolves with ([result.text] for a
    generation call). *)
Definition Answer (r : Request) : Type :=
  match r with
  | AxiosGet _ => JsValue
  | AxiosPut _ _ => unit
  | SetTimeout _ => unit
  | GenerateContent _ _ _ => option (list N)
  | SendMail _ => unit
  end.

Inductive Settled (A : Type) :=
| Resolved (a : A)
| Rejected (e : JsError).
Arguments Resolved {A} a.
Arguments Rejected {A} e.

(** The mutable state the script can see or change.  [dir_exists] tells
    whether the output directory exists and [disk] is its content, by file
    name ([path.join] of the directory and a slug names the file [slug] in
    it); [trace] lists the requests issued so far, oldest first. *)
Record World := {
  keyIndex : nat;
  trace : list Request;
  dir_exists : bool;
  disk : gmap (list N) (list N);
  console : list (list N)
}.

(** The collaborators: how the outside answers, given the requests issued so
    far.  [writeFileSync_error] is the error a write throws, if any, and
    [writeFileSync_left] what such a write leaves in the file, if it got as
    far as opening it.  [schedule] chooses which of the pending awaits
    settles next. *)
Record Env := {
  process_env : list (list N * list N);
  axios_get : list Request -> list N -> Settled JsValue;
  axios_put : list Request -> list N -> PutBody -> Settled unit;
  generateContent :
    list Request -> GoogleGenAI -> list N -> list N ->
    Settled (option (list N));
  sendMail : list Request -> Mail -> Settled unit;
  writeFileSync_error : list Request -> list N -> list N -> option JsError;
  writeFileSync_left : list Request -> list N -> list N -> option (list N);
  Date_now : list Request -> N;
  toLocaleString : list Request -> list N;
  schedule : list Request -> nat
}.

Definition answer (env : Env) (tr : list Request) (r : Request)
  : Settled (Answer r) :=
  match r with
  | AxiosGet url => axios_get env tr url
  | AxiosPut url body => axios_put env tr url body
  | SetTimeout _ => Resolved tt
  | GenerateContent ai model contents => generateContent env tr ai model contents
  | SendMail m => sendMail env tr m
  end.

Definition set_keyIndex (i : nat) (w : World) : World :=
  {| keyIndex := i; trace := trace w; dir_exists := dir_exists w;
     disk := disk w; console := console w |}.
Definition issue (r : Request) (w : World) : World :=
  {| keyIndex := keyIndex w; trace := trace w ++ [r];
     dir_exists := dir_exists w; disk := disk w; console := console w |}.
Definition set_disk (d : gmap (list N) (list N)) (w : World) : World :=
  {| keyIndex := keyIndex w; trace := trace w; dir_exists := dir_exists w;
     disk := d; console := console w |}.
Definition print (line : list N) (w : World) : World :=
  {| keyIndex := keyIndex w; trace := trace w; dir_exists := dir_exists w;
     disk := disk w; console := console w ++ [line] |}.
(** [fs.mkdirSync(GENERATED_DIR, { recursive: true })] *)
Definition mkdirSync (w : World) : World :=
  {| keyIndex := keyIndex w; trace := trace w; dir_exists := true;
     disk := disk w; console := console w |}.

(** The state when the module starts: nothing requested yet, the output
    directory as it was left. *)
Definition initial_world (exists_ : bool) (d : gmap (list N) (list N))
  : World :=
  {| keyIndex := 0; trace := []; dir_exists := exists_; disk := d;
     console := [] |}.

Definition is_generate (r : Request) : bool :=
  match r with GenerateContent _ _ _ => true | _ => false end.
Definition is_put (r : Request) : bool :=
  match r with AxiosPut _ _ => true | _ => false end.
Definition is_mail (r : Request) : bool :=
  match r with SendMail _ => true | _ => false end.

(** Number of upstream generation calls in a trace. *)
Definition generate_calls (tr : list Request) : nat :=
  length (List.filter is_generate tr).

(** ** Programs

    A program is a tree: it returns, throws, runs a synchronous step on the
    world, or awaits a request and continues with what it settles to. *)
Inductive Prog (A : Type) : Type :=
| Ret (a : A)
| Throw (e : JsError)
| Sync {B : Type} (f : World -> B * World) (k : B -> Prog A)
| Await (r : Request) (k : Settled (Answer r) -> Prog A).
Arguments Ret {A} a.
Arguments Throw {A} e.
Arguments Sync {A B} f k.
Arguments Await {A} r k.

Fixpoint bind {A B : Type} (p : Prog A) (k : A -> Prog B) : Prog B :=
  match p with
  | Ret a => k a
  | Throw e => Throw e
  | Sync f k' => Sync f (fun b => bind (k' b) k)
  | Await r k' => Await r (fun s => bind (k' s) k)
  end.

(** [try { p } catch (e) { h e }] *)
Fixpoint try_catch {A : Type} (p : Prog A) (h : JsError -> Prog A) : Prog A :=
  match p with
  | Ret a => Ret a
  | Throw e => h e
  | Sync f k => Sync f (fun b => try_catch (k b) h)
  | Await r k => Await r (fun s => try_catch (k s) h)
  end.

Declare Scope prog_scope.
Delimit Scope prog_scope with prog.
Bind Scope prog_scope with Prog.
Notation "'let*' x ':=' p 'in' k" := (bind p (fun x => k))
  (at level 10, x pattern, p at level 100, k at level 200) : prog_scope.
Notation "p ';;' k" := (bind p (fun _ => k))
  (at level 100, k at level 200, right associativity) : prog_scope.

(** [await r]: a rejection is thrown at the suspension point. *)
Definition await (r : Request) : Prog (Answer r) :=
  Await r (fun s => match s with Resolved a => Ret a | Rejected e => Throw e end).

Definition console_log (line : list N) : Prog unit :=
  Sync (fun w => (tt, print line w)) Ret.

Inductive Completion (A : Type) :=
| Normal (a : A)
| Thrown (e : JsError).
Arguments Normal {A} a.
Arguments Thrown {A} e.

(** Running a program alone: every await settles before anything else
    happens. *)
Fixpoint exec (env : Env) {A : Type} (p : Prog A) (w : World)
  : Completion A * World :=
  match p with
  | Ret a => (Normal a, w)
  | Throw e => (Thrown e, w)
  | Sync f k => let (b, w') := f w in exec env (k b) w'
  | Await r k =>
      let w' := issue r w in exec env (k (answer env (trace w') r)) w'
  end.

(** A program stopped at its first suspension point. *)
Inductive Suspended (A : Type) :=
| Done (c : Completion A)
| Waiting (r : Request) (k : Settled (Answer r) -> Prog A).
Arguments Done {A} c.
Arguments Waiting {A} r k.

(** Runs the synchronous prefix of a program; the request of the await it
    stops at is issued. *)
Fixpoint advance {A : Type} (p : Prog A) (w : World) : Suspended A * World :=
  match p with
  | Ret a => (Done (Normal a), w)
  | Throw e => (Done (Thrown e), w)
  | Sync f k => let (b, w') := f w in advance (k b) w'
  | Await r k => (Waiting r k, issue r w)
  end.

(** ** The script *)

Definition join (sep : list N) (parts : list (list N)) : list N :=
  match parts with
  | [] => []
  | p :: ps => p ++ List.concat (List.map (fun q => sep ++ q) ps)
  end.

Definition nl : list N := [10].

(** [process.env[name]] *)
Definition getenv (env : Env) (name : list N) : option (list N) :=
  snd <$> List.find (fun kv => str_eqb (fst kv) name) (process_env env).

(** [!!process.env[name]] *)
Definition env_truthy (env : Env) (name : list N) : bool :=
  match getenv env name with
  | Some (_ :: _) => true
  | _ => false
  end.

(** [a || b] on values that are strings or [undefined]. *)
Definition or_else (a b : option (list N)) : option (list N) :=
  match a with
  | Some (c :: s) => Some (c :: s)
  | _ => b
  end.

Definition show (v : option (list N)) : list N :=
  match v with
  | Some s => s
  | None => lit "undefined"
  end.

Section Script.

Context `{Slug.StringLib}.
Variable cfg : Config.
Variable env : Env.
(** The module-level constant [apiKeys]. *)
Variable apiKeys : list (list N).

Local Open Scope prog_scope.
Local Open Scope nat_scope.

(** *** Key rotation *)

Definition getNextGemini : Prog GoogleGenAI :=
  Sync (fun w =>
          let key := apiKeys !! keyIndex w in
          ({| apiKey := key |},
           set_keyIndex ((keyIndex w + 1) mod length apiKeys) w))
       Ret.

(** *** Email *)

Definition sendEmail (subject text : list N) : Prog unit :=
  if negb (env_truthy env (lit "EMAIL_HOST")) then Ret tt
  else
    await (SendMail
             {| mail_from := or_else (getenv env (lit "EMAIL_FROM"))
                                     (getenv env (lit "EMAIL_USER"));
                mail_to := or_else (getenv env (lit "EMAIL_TO"))
                                   (getenv env (lit "EMAIL_USER"));
                mail_subject := subject;
                mail_text := text |}).

(** *** Utils *)

Definition sleep (ms : nat) : Prog unit := await (SetTimeout ms).

(** *** Retry and key rotation *)

(** The body of the [try] block of one attempt. *)
Definition attempt (promptText model : list N) : Prog (list N) :=
  let* ai := getNextGemini in
  sleep (REQUEST_DELAY cfg);;
  let* result_text := await (GenerateContent ai model promptText) in
  match result_text with
  | Some (c :: text) => Ret (c :: text)
  | _ => Throw (Error (lit "Empty response"))
  end.

(** [while (attempt < MAX_RETRIES) { try { ... } catch (error) { ... } }].
    The value is [None] when the function returns [undefined] by leaving
    the loop.  [fuel] bounds the number of iterations; when it is used up
    the condition of the [while] is false (see
    [retry_loop_fuel]). *)
Fixpoint retry_loop (fuel : nat) (attempt_no : nat)
  (promptText model : list N) : Prog (option (list N)) :=
  match fuel with
  | O => Ret None
  | S fuel' =>
      if attempt_no <? MAX_RETRIES cfg then
        try_catch
          (let* text := attempt promptText model in Ret (Some text))
          (fun error =>
             let attempt_no := S attempt_no in
             console_log (lit "Retry " ++ Number_toString attempt_no
                          ++ lit "/" ++ Number_toString (MAX_RETRIES cfg));;
             (if bool_decide (status error = Some 429%N)
              then console_log (lit "Rate limit hit " ++ [8594%N]
                                ++ lit " switching key")
              else Ret tt);;
             sleep (1000 * attempt_no);;
             if MAX_RETRIES cfg <=? attempt_no
             then Throw error
             else retry_loop fuel' attempt_no promptText model)
      else Ret None
  end.

Definition generateWithRetry (promptText model : list N)
  : Prog (option (list N)) :=
  retry_loop (MAX_RETRIES cfg) 0 promptText model.

(** *** Processing one file *)

(** The directory after a [writeFileSync] that threw.  The file is opened
    with flag [w] before anything is written: when the open fails nothing
    changes ([writeFileSync_left] is [None]); when the error comes later the
    file has been created or truncated and holds what was written until
    then. *)
Definition after_failed_write (name content : list N) (w : World) : World :=
  match writeFileSync_left env (trace w) name content with
  | Some partial => set_disk (<[name := partial]> (disk w)) w
  | None => w
  end.

(** [fs.writeFileSync(path.join(GENERATED_DIR, name), data, 'utf-8')];
    [undefined] data is a type error. *)
Definition writeFileSync (name : list N) (data : option (list N))
  : Prog unit :=
  match data with
  | None => Throw (TypeError (lit "The data argument must be of type string"))
  | Some content =>
      Sync (fun w =>
              match writeFileSync_error env (trace w) name content with
              | Some e => (Some e, after_failed_write name content w)
              | None => (None, set_disk (<[name := content]> (disk w)) w)
              end)
           (fun r => match r with Some e => Throw e | None => Ret tt end)
  end.

Definition now : Prog N :=
  Sync (fun w => (Date_now env (trace w), w)) Ret.

Definition put_url (file : File) : list N :=
  EXTERNAL_API_URL ++ lit "/" ++ id file.

Definition processFile (file : File) (model : list N) : Prog Outcome :=
  console_log (lit "Processing: " ++ originalFilename file);;
  try_catch
    (let* promptResponse := await (AxiosGet (secureUrl file)) in
     let promptText := promptText_of promptResponse in
     let* generatedContent := generateWithRetry promptText model in
     let safeFilename := Slug.generateSafeFilename (originalFilename file) in
     writeFileSync safeFilename generatedContent;;
     let* timestamp := now in
     await (AxiosPut (put_url file)
              {| put_status := lit "AlreadyCopy";
                 completedTimestamp := timestamp |});;
     console_log ([9989%N] ++ lit " Done: " ++ safeFilename);;
     Ret {| success := true; name := safeFilename; error := None |})
    (fun err =>
       console_log ([10060%N] ++ lit " Failed: " ++ originalFilename file
                    ++ lit " " ++ message err);;
       Ret {| success := false; name := originalFilename file;
              error := Some (message err) |}).

(** *** The parallel queue *)

(** A worker suspended inside [processFile], at [await req]. *)
Record Worker := {
  req : Request;
  cont : Settled (Answer req) -> Prog Outcome
}.

(** The variables shared by the workers of one [runQueue] call. *)
Record Queue := {
  index : nat;
  results : list Outcome;
  workers : list Worker
}.

(** What a worker does from the point where [processFile] has got to [s],
    up to its next suspension: push the result, and at the head of the loop
    either leave ([index >= files.length], [pending] is empty) or claim
    [files[index++]] and call [processFile] on it.  [pending] is
    [files.slice(index)].  The result is the worker if it is suspended
    again, [None] if its loop has ended, or the error it rejects with. *)
Fixpoint worker_from (model : list N) (s : Suspended Outcome)
  (pending : list File) (index : nat) (results : list Outcome) (w : World)
  : Completion (option Worker * nat * list Outcome) * World :=
  match s with
  | Waiting r k => (Normal (Some {| req := r; cont := k |}, index, results), w)
  | Done (Thrown e) => (Thrown e, w)
  | Done (Normal result) =>
      let results := results ++ [result] in
      match pending with
      | [] => (Normal (None, index, results), w)
      | file :: pending' =>
          let (s', w') := advance (processFile file model) w in
          worker_from model s' pending' (S index) results w'
      end
  end.

(** A call [worker()]: the head of the loop, nothing to push yet. *)
Definition worker (model : list N) (files : list File) (index : nat)
  (results : list Outcome) (w : World)
  : Completion (option Worker * nat * list Outcome) * World :=
  match drop index files with
  | [] => (Normal (None, index, results), w)
  | file :: pending' =>
      let (s', w') := advance (processFile file model) w in
      worker_from model s' pending' (S index) results w'
  end.

Definition add_worker (o : option Worker) (ws : list Worker) : list Worker :=
  match o with
  | Some wk => ws ++ [wk]
  | None => ws
  end.

(** [Array.from({ length: n }, () => worker())]: the workers are called one
    after the other, each runs up to its first await. *)
Fixpoint start_workers (model : list N) (files : list File) (n : nat)
  (q : Queue) (w : World) : Completion Queue * World :=
  match n with
  | O => (Normal q, w)
  | S n' =>
      match worker model files (index q) (results q) w with
      | (Thrown e, w') => (Thrown e, w')
      | (Normal (o, i, rs), w') =>
          start_workers model files n'
            {| index := i; results := rs;
               workers := add_worker o (workers q) |} w'
      end
  end.

(** [await Promise.all(workers)]: as long as a worker is suspended, one of
    the pending awaits settles and its worker runs up to its next await.
    A worker that rejects rejects the whole. *)
Fixpoint pool_loop (fuel : nat) (model : list N) (files : list File)
  (q : Queue) (w : World) : option (Completion (list Outcome) * World) :=
  match workers q with
  | [] => Some (Normal (results q), w)
  | wk0 :: _ =>
      match fuel with
      | O => None
      | S fuel' =>
          let j := schedule env (trace w) mod length (workers q) in
          let wk := nth j (workers q) wk0 in
          let (s, w1) := advance (cont wk (answer env (trace w) (req wk))) w in
          match worker_from model s (drop (index q) files)
                  (index q) (results q) w1 with
          | (Thrown e, w2) => Some (Thrown e, w2)
          | (Normal (o, i, rs), w2) =>
              pool_loop fuel' model files
                {| index := i; results := rs;
                   workers := match o with
                              | Some wk' => <[j := wk']> (workers q)
                              | None => delete j (workers q)
                              end |} w2
          end
      end
  end.

Definition model_name : list N :=
  show (or_else (getenv env (lit "GEMINI_MODEL"))
                (Some (lit "gemini-3-flash-preview"))).

(** Awaits one call of [processFile] can suspend at: the fetch, three per
    attempt, the status update. *)
Definition awaits_per_file : nat := 2 + 3 * MAX_RETRIES cfg.

Definition runQueue_fuel (fuel : nat) (files : list File) (w : World)
  : option (Completion (list Outcome) * World) :=
  let model := model_name in
  match start_workers model files (CONCURRENCY_LIMIT cfg)
          {| index := 0; results := []; workers := [] |} w with
  | (Thrown e, w') => Some (Thrown e, w')
  | (Normal q, w') => pool_loop fuel model files q w'
  end.

Definition runQueue (files : list File) (w : World)
  : option (Completion (list Outcome) * World) :=
  runQueue_fuel (length files * awaits_per_file) files w.

(** *** Folder statistics and the batch email *)

(** [getFolderStats(GENERATED_DIR)]: [(totalFiles, mdxFiles)]. *)
Definition getFolderStats : Prog (nat * nat) :=
  Sync (fun w =>
          if negb (dir_exists w) then ((0, 0), w)
          else
            let files := (map_to_list (disk w)).*1 in
            ((length files,
              length (List.filter (endsWith (lit ".mdx")) files)), w))
       Ret.

Definition success_line (f : Outcome) : list N := lit "- " ++ name f.
Definition failed_line (f : Outcome) : list N :=
  lit "- " ++ name f ++ lit " (" ++ show (error f) ++ lit ")".

Definition sendBatchEmail (succeeded failed : list Outcome) : Prog unit :=
  let* dateTimeStr := Sync (fun w => (toLocaleString env (trace w), w)) Ret in
  let* folderStats := getFolderStats in
  let subject :=
    lit "Content Generation Report - " ++ dateTimeStr ++ lit " - "
    ++ Number_toString (length succeeded) ++ lit " Success, "
    ++ Number_toString (length failed) ++ lit " Failed" in
  let body :=
    join nl
      [ [];
        lit "Multi-Key Content Generation Report";
        lit "----------------------------------";
        lit "Date & Time (BDT): " ++ dateTimeStr;
        lit "Total Processed: "
          ++ Number_toString (length succeeded + length failed);
        lit "Success: " ++ Number_toString (length succeeded);
        lit "Failed: " ++ Number_toString (length failed);
        [];
        lit "Successful Files:";
        join nl (List.map success_line succeeded);
        [];
        lit "Failed Files:";
        join nl (List.map failed_line failed);
        [];
        lit "Folder Stats:";
        lit "- Total files in folder: " ++ Number_toString (fst folderStats);
        lit "- Total MDX files: " ++ Number_toString (snd folderStats);
        [];
        lit "Generated content has been saved to the repository.";
        [] ] in
  sendEmail subject body.

(** *** Main *)

Definition is_pending (f : File) : bool :=
  str_eqb (file_status f) (lit "Pending").

(** [response.data.filter(...).slice(0, BATCH_SIZE)]; a value without a
    [filter] method is a type error. *)
Definition fetch_pending : Prog (list File) :=
  let* data := await (AxiosGet EXTERNAL_API_URL) in
  match data with
  | VFiles files _ => Ret (take (BATCH_SIZE cfg) (List.filter is_pending files))
  | _ => Throw (TypeError (lit "response.data.filter is not a function"))
  end.

(** The [try] block of [run]. *)
Definition run_try (w : World) : option (Completion unit * World) :=
  match exec env fetch_pending w with
  | (Thrown e, w1) => Some (Thrown e, w1)
  | (Normal [], w1) => Some (exec env (console_log (lit "No pending files.")) w1)
  | (Normal pendingFiles, w1) =>
      let w2 := print (lit "Found " ++ Number_toString (length pendingFiles)
                       ++ lit " files.") w1 in
      match runQueue pendingFiles w2 with
      | None => None
      | Some (Thrown e, w3) => Some (Thrown e, w3)
      | Some (Normal rs, w3) =>
          let succeeded := List.filter success rs in
          let failed := List.filter (fun r => negb (success r)) rs in
          Some (exec env
                  (sendBatchEmail succeeded failed;;
                   console_log ([55356%N; 57225%N]
                                ++ lit " Batch Completed Successfully"))
                  w3)
      end
  end.

(** How the process ends. *)
Inductive Termination :=
| Fulfilled
| Exited (code : nat)
| Unhandled (e : JsError)
| Uncaught (e : JsError).

(** The exit code: 0 when [run()] is fulfilled and nothing is left to do,
    the argument of [process.exit], 1 for an uncaught exception or an
    unhandled rejection. *)
Definition exit_code (t : Termination) : nat :=
  match t with
  | Fulfilled => 0
  | Exited code => code
  | Unhandled _ => 1
  | Uncaught _ => 1
  end.

Definition run (w : World) : option (Termination * World) :=
  let w0 := print ([55357%N; 56960%N]
                   ++ lit " Starting Multi-Key Parallel Processing...") w in
  match run_try w0 with
  | None => None
  | Some (Normal _, w1) => Some (Fulfilled, w1)
  | Some (Thrown error, w1) =>
      match exec env
              (console_log (lit "Fatal error: " ++ message error);;
               sendEmail (lit "Batch Failed") (message error)) w1 with
      | (Normal _, w2) => Some (Exited 1, w2)
      | (Thrown e, w2) => Some (Unhandled e, w2)
      end
  end.

(** [n] successive calls of [getNextGemini], with the clients they return. *)
Fixpoint rotate (n : nat) : Prog (list GoogleGenAI) :=
  match n with
  | O => Ret []
  | S n' =>
      let* ai := getNextGemini in
      let* rest := rotate n' in
      Ret (ai :: rest)
  end.

End Script.

(** *** Module initialisation *)

Fixpoint str_leb (a b : list N) : bool :=
  match a, b with
  | [], _ => true
  | _ :: _, [] => false
  | x :: a', y :: b' => (x <? y) || ((x =? y) && str_leb a' b')
  end.

Fixpoint insert_sorted (k : list N) (l : list (list N)) : list (list N) :=
  match l with
  | [] => [k]
  | k' :: l' => if str_leb k k' then k :: l else k' :: insert_sorted k l'
  end.

(** [.sort()] without a comparator: by UTF-16 code units. *)
Definition sort (l : list (list N)) : list (list N) :=
  List.fold_right insert_sorted [] l.

(** [Object.keys(process.env).filter(...).sort().map(...).filter(Boolean)] *)
Definition load_apiKeys (env : Env) : list (list N) :=
  omap (fun key => match getenv env key with
                   | Some (c :: s) => Some (c :: s)
                   | _ => None
                   end)
       (sort (List.filter (startsWith (lit "GEMINI_API_KEY"))
                (List.map fst (process_env env)))).

(** The module from its first statement on: the output directory is
    created if it is missing, the keys are loaded, an empty list throws,
    otherwise [keyIndex] is 0 and [run()] is called. *)
Definition main `{Slug.StringLib} (cfg : Config) (env : Env) (w : World)
  : option (Termination * World) :=
  let w := if negb (dir_exists w) then mkdirSync w else w in
  let apiKeys := load_apiKeys env in
  if (length apiKeys =? 0)%nat
  then Some (Uncaught (Error (lit "No GEMINI_API_KEY variables found.")), w)
  else
    run cfg env apiKeys
      (set_keyIndex 0
         (print (lit "Loaded " ++ Number_toString (length apiKeys)
                 ++ lit " Gemini API keys.") w)).

(** ** Vocabulary of the properties *)

(** The error an attempt fails with, given what the generation call settled
    to: a rejection, or a missing or empty [result.text]. *)
Definition attempt_error (s : Settled (option (list N))) : option JsError :=
  match s with
  | Rejected e => Some e
  | Resolved (Some (_ :: _)) => None
  | Resolved _ => Some (Error (lit "Empty response"))
  end.

(** The pattern [^[a-z0-9-]*\.mdx$]. *)
Definition is_lower_digit_hyphen (c : N) : bool :=
  ((48 <=? c) && (c <=? 57)) || ((97 <=? c) && (c <=? 122)) || (c =? 45).

Definition matches_lower_pattern (name : list N) : bool :=
  endsWith Slug.extension name
  && forallb is_lower_digit_hyphen (Slug.stripExtension name).

(** No two hyphens in a row. *)
Fixpoint no_double_hyphen (s : list N) : Prop :=
  match s with
  | a :: (b :: _) as t =>
      ~ (Slug.is_hyphen a = true /\ Slug.is_hyphen b = true)
      /\ no_double_hyphen t
  | _ => True
  end.

(** [o] is an outcome [processFile] may record for [f]: a success under
    the slug, or a failure under the original name with a reason. *)
Definition outcome_of `{Slug.StringLib} (f : File) (o : Outcome) : Prop :=
  (success o = true
   /\ name o = Slug.generateSafeFilename (originalFilename f)
   /\ error o = None)
  \/ (success o = false
      /\ name o = originalFilename f
      /\ exists msg, error o = Some msg).

(** [within p n Q E]: whatever the awaited operations settle to, [p]
    suspends at most [n] times, what it returns satisfies [Q] and what it
    throws satisfies [E]. *)
Fixpoint within {A : Type} (p : Prog A) (n : nat) (Q : A -> Prop)
  (E : JsError -> Prop) : Prop :=
  match p with
  | Ret a => Q a
  | Throw e => E e
  | Sync f k => forall b, within (k b) n Q E
  | Await r k =>
      match n with
      | O => False
      | S m => forall s, within (k s) m Q E
      end
  end.

(** [served files done outs]: [outs] are outcomes of the files at the
    indices [done], in this order. *)
Definition served `{Slug.StringLib} (files : list File) (done : list nat)
  (outs : list Outcome) : Prop :=
  Forall2 (fun i o => exists f, files !! i = Some f /\ outcome_of f o)
    done outs.

(** The worker is inside [processFile] of the file at index [i], with at
    most [n] suspensions to go once its await settles. *)
Definition working_on `{Slug.StringLib} (files : list File)
  (wk : Worker) (job : nat * nat) : Prop :=
  exists f, files !! fst job = Some f
            /\ forall s, within (cont wk s) (snd job) (outcome_of f)
                           (fun _ => False).

(** Pool steps the suspended workers still need for their current files. *)
Definition cost (jobs : list (nat * nat)) : nat :=
  sum_list_with (fun job => S (snd job)) jobs.

(** How [processFile] ends in its [catch] block. *)
Definition failed (file : File) (err : JsError) (w : World)
  : Completion Outcome * World :=
  (Normal {| success := false; name := originalFilename file;
             error := Some (message err) |},
   print ([10060%N] ++ lit " Failed: " ++ originalFilename file
          ++ lit " " ++ message err) w).

Local Open Scope nat_scope.

(** The fetches of prompts and of the list in a trace. *)
Definition is_fetch (r : Request) : bool :=
  match r with AxiosGet _ => true | _ => false end.

Definition fetches (tr : list Request) : list Request :=
  List.filter is_fetch tr.

(** The fetch with which [processFile] starts on a file. *)
Definition fetch_of (f : File) : Request := AxiosGet (secureUrl f).

(** [p] fetches nothing: its synchronous steps leave the trace alone and
    none of its requests is a GET. *)
Fixpoint fetch_free {A : Type} (p : Prog A) : Prop :=
  match p with
  | Ret _ => True
  | Throw _ => True
  | Sync f k =>
      (forall w, trace (snd (f w)) = trace w) /\ forall b, fetch_free (k b)
  | Await r k => is_fetch r = false /\ forall s, fetch_free (k s)
  end.

(** A program stopped at a suspension point fetches nothing from there. *)
Definition resumes_fetch_free {A : Type} (s : Suspended A) : Prop :=
  match s with
  | Waiting r k => forall s', fetch_free (k s')
  | Done _ => True
  end.

(** What the queue keeps true of the fetches: the prompts fetched since it
    started are those of the files below the index, in order; every file
    below the index is finished or in work; the workers fetch nothing for
    the files they are in. *)
Definition fetched (files : list File) (before : list Request) (q : Queue)
  (w : World) : Prop :=
  fetches (trace w) = before ++ List.map fetch_of (take (index q) files)
  /\ length (results q) + length (workers q) = index q
  /\ Forall (fun wk => forall s, fetch_free (cont wk s)) (workers q).

(** Where [processFile] of the file [f] has got to, with at most [n]
    suspensions to go. *)
Definition at_point `{Slug.StringLib} (f : File) (n : nat)
  (s : Suspended Outcome) : Prop :=
  match s with
  | Done (Normal o) => outcome_of f o
  | Done (Thrown _) => False
  | Waiting r k =>
      exists m, n = S m
                /\ forall s', within (k s') m (outcome_of f) (fun _ => False)
  end.

(** What a worker has done when it stops running: it has moved the index
    by [t], pushed outcomes for the indices [dn], and is either suspended on
    the last index it claimed or has left its loop, the index being at the
    end.  [cur] is the index it was working on, if any, and [n] the
    suspensions that were left for it. *)
Definition worker_done `{Slug.StringLib} (cfg : Config) (files : list File)
  (cur : option nat) (n idx : nat) (rs : list Outcome)
  (o : option Worker) (idx' : nat) (rs' : list Outcome) : Prop :=
  exists t outs dn,
    idx' = idx + t /\ idx' <= length files /\ rs' = rs ++ outs
    /\ served files dn outs
    /\ match o with
       | Some wk =>
           exists c n',
             dn ++ [c] = from_option (fun c => [c]) [] cur ++ seq idx t
             /\ working_on files wk (c, n')
             /\ S n' <= n + t * awaits_per_file cfg
       | None =>
           dn = from_option (fun c => [c]) [] cur ++ seq idx t
           /\ idx' = length files
       end.

(** The invariant of the queue: every suspended worker is inside one file,
    the results are outcomes of the files in [done], and the files in
    [done] or in work are exactly those below the index. *)
Record pool_inv `{Slug.StringLib} (files : list File) (q : Queue)
  (done : list nat) (jobs : list (nat * nat)) : Prop := {
  inv_workers : Forall2 (working_on files) (workers q) jobs;
  inv_results : served files done (results q);
  inv_claimed : done ++ jobs.*1 ≡ₚ seq 0 (index q);
  inv_index : index q <= length files
}.

(** Either a worker is suspended or every file has been claimed. *)
Definition live (files : list File) (q : Queue) : Prop :=
  workers q <> [] \/ index q = length files.

Local Open Scope N_scope.

(** A request that neither fetches nor reports nor mails: a delay or a
    generation call. *)
Definition is_internal (r : Request) : bool :=
  match r with
  | SetTimeout _ | GenerateContent _ _ _ => true
  | _ => false
  end.

(** What an attempt completes with, given what the call settled to. *)
Definition attempt_result (s : Settled (option (list N)))
  : Completion (list N) :=
  match s with
  | Rejected e => Thrown e
  | Resolved (Some (c :: text)) => Normal (c :: text)
  | Resolved _ => Thrown (Error (lit "Empty response"))
  end.

(** The world once an attempt has got its answer: the cursor has moved, the
    delay and the call have been requested. *)
Definition after_attempt (cfg : Config) (apiKeys : list (list N))
  (model prompt : list N) (w : World) : World :=
  issue (GenerateContent {| apiKey := apiKeys !! keyIndex w |} model prompt)
    (issue (SetTimeout (REQUEST_DELAY cfg))
       (set_keyIndex ((keyIndex w + 1) mod length apiKeys) w)).

(** What the generation call of an attempt started in [w] settles to. *)
Definition asked (cfg : Config) (env : Env) (apiKeys : list (list N))
  (model prompt : list N) (w : World) : Settled (option (list N)) :=
  generateContent env (trace (after_attempt cfg apiKeys model prompt w))
    {| apiKey := apiKeys !! keyIndex w |} model prompt.

(** The world at the end of the [catch] block of attempt number [a + 1]. *)
Definition after_catch (cfg : Config) (a : nat) (e : JsError) (w : World)
  : World :=
  let w1 := print (lit "Retry " ++ Number_toString (S a) ++ lit "/"
                   ++ Number_toString (MAX_RETRIES cfg)) w in
  let w2 := if bool_decide (status e = Some 429%N)
            then print (lit "Rate limit hit " ++ [8594%N]
                        ++ lit " switching key") w1
            else w1 in
  issue (SetTimeout (1000 * S a)) w2.

(** ** Sample runs *)

Module Sample.

Definition file (i n st : string) : File :=
  {| id := lit i; originalFilename := lit n;
     secureUrl := lit "https://files.example.org/" ++ lit i;
     file_status := lit st |}.

Definition listing : list File :=
  [ file "a1" "Intro Notes.txt" "Pending";
    file "b2" "b_c.md" "Pending";
    file "c3" "Old.txt" "AlreadyCopy";
    file "d4" "Q&A (draft).txt" "Pending" ].

Definition done_listing : list File :=
  [ file "c3" "Old.txt" "AlreadyCopy"; file "e5" "Bad.txt" "Failed" ].

Definition variables : list (list N * list N) :=
  [ (lit "GEMINI_API_KEY_2", lit "key-two");
    (lit "EMAIL_HOST", lit "smtp.example.org");
    (lit "GEMINI_API_KEY_1", lit "key-one");
    (lit "EMAIL_USER", lit "bot@example.org");
    (lit "GEMINI_API_KEY_3", lit "key-three") ].

Definition variables_without_keys : list (list N * list N) :=
  [ (lit "EMAIL_HOST", lit "smtp.example.org");
    (lit "GEMINI_API_KEY_1", []) ].

Definition keys : list (list N) :=
  [lit "key-one"; lit "key-two"; lit "key-three"].

(** An environment: the variables, the list the files API returns, the
    answer to the [c]-th generation call, the answer to a status update,
    the answer to the [c]-th mail. *)
Definition make (vars : list (list N * list N)) (files : list File)
  (gen : nat -> Settled (option (list N)))
  (put : list N -> Settled unit) (mail : nat -> Settled unit) : Env :=
  {| process_env := vars;
     axios_get := fun tr url =>
       if str_eqb url EXTERNAL_API_URL
       then Resolved (VFiles files (lit "[]"))
       else Resolved (VString (lit "Write about " ++ url));
     axios_put := fun tr url body => put url;
     generateContent := fun tr ai model contents => gen (generate_calls tr);
     sendMail := fun tr m => mail (length (List.filter is_mail tr));
     writeFileSync_error := fun tr path content => None;
     writeFileSync_left := fun tr path content => None;
     Date_now := fun tr => 1700000000000%N + N.of_nat (length tr);
     toLocaleString := fun tr => lit "11/2/2026, 9:00:00 PM";
     schedule := fun tr => length tr |}.

Definition text : list N := lit "generated text".

Definition healthy : Env :=
  make variables listing (fun _ => Resolved (Some text))
    (fun _ => Resolved tt) (fun _ => Resolved tt).

(** The first two generation calls fail. *)
Definition flaky : Env :=
  make variables listing
    (fun c => if (c <=? 2)%nat then Rejected (Error (lit "503"))
              else Resolved (Some text))
    (fun _ => Resolved tt) (fun _ => Resolved tt).

(** The files API rejects every status update. *)
Definition put_down : Env :=
  make variables listing (fun _ => Resolved (Some text))
    (fun _ => Rejected (Error (lit "502"))) (fun _ => Resolved tt).

(** The mail server rejects every mail. *)
Definition mail_down : Env :=
  make variables listing (fun _ => Resolved (Some text))
    (fun _ => Resolved tt) (fun _ => Rejected (Error (lit "ECONNREFUSED"))).

(** The mail server rejects the first mail only. *)
Definition mail_down_once : Env :=
  make variables listing (fun _ => Resolved (Some text))
    (fun _ => Resolved tt)
    (fun c => if (c <=? 1)%nat then Rejected (Error (lit "ECONNREFUSED"))
              else Resolved tt).

(** The files API rejects the status update of the file [b2]. *)
Definition one_update_down : Env :=
  make variables listing (fun _ => Resolved (Some text))
    (fun url => if str_eqb url (EXTERNAL_API_URL ++ lit "/b2")
                then Rejected (Error (lit "502")) else Resolved tt)
    (fun _ => Resolved tt).

Definition without_keys : Env :=
  make variables_without_keys listing (fun _ => Resolved (Some text))
    (fun _ => Resolved tt) (fun _ => Resolved tt).

Definition nothing_pending : Env :=
  make variables done_listing (fun _ => Resolved (Some text))
    (fun _ => Resolved tt) (fun _ => Resolved tt).

Definition start : World := initial_world false ∅.

End Sample.

(** ** Vocabulary of further properties *)

Local Open Scope nat_scope.

(** The requests of attempt number [i + 1] of a call of [generateWithRetry]
    that finds the cursor at [cursor]: the delay, then the generation call
    with the key the cursor has reached. *)
Definition attempt_requests (cfg : Config) (apiKeys : list (list N))
  (model prompt : list N) (cursor i : nat) : list Request :=
  [ SetTimeout (REQUEST_DELAY cfg);
    GenerateContent
      {| apiKey := apiKeys !! ((cursor + i) mod length apiKeys) |}
      model prompt ].

(** The requests of an attempt that fails: the backoff follows.  [a] is the
    number of attempts made before the first one counted by [i]. *)
Definition failed_attempt_requests (cfg : Config) (apiKeys : list (list N))
  (model prompt : list N) (cursor a i : nat) : list Request :=
  attempt_requests cfg apiKeys model prompt cursor i
  ++ [SetTimeout (1000 * S (a + i))].

(** Number of the requests of a trace that satisfy [P]. *)
Definition count_requests (P : Request -> bool) (tr : list Request) : nat :=
  length (List.filter P tr).

(** [issues P p n]: whatever the awaited operations settle to, [p] issues
    at most [n] requests that satisfy [P], and its synchronous steps leave
    the trace alone. *)
Fixpoint issues {A : Type} (P : Request -> bool) (p : Prog A) (n : nat)
  : Prop :=
  match p with
  | Ret _ => True
  | Throw _ => True
  | Sync f k =>
      (forall w, trace (snd (f w)) = trace w) /\ forall b, issues P (k b) n
  | Await r k =>
      if P r
      then match n with
           | O => False
           | S m => forall s, issues P (k s) m
           end
      else forall s, issues P (k s) n
  end.

(** A program stopped at a suspension point issues at most [n] such
    requests from there. *)
Definition resumes_issuing {A : Type} (P : Request -> bool)
  (s : Suspended A) (n : nat) : Prop :=
  match s with
  | Waiting r k => forall s', issues P (k s') n
  | Done _ => True
  end.

(** What the queue keeps true of the requests that satisfy [P], when one
    file takes at most [G] of them: those issued so far, those the
    suspended workers may still issue and those of the files not yet
    claimed stay within [limit], and none of the [base] requests there were
    has gone. *)
Definition budgeted (P : Request -> bool) (G : nat) (files : list File)
  (base limit : nat) (q : Queue) (w : World) : Prop :=
  exists budgets,
    Forall2 (fun wk m => forall s, issues P (cont wk s) m) (workers q) budgets
    /\ base <= count_requests P (trace w)
    /\ count_requests P (trace w) + sum_list budgets
       + (length files - index q) * G <= limit
    /\ index q <= length files.

(** ** The single-key script

    [src/scripts/generate.ts], and the last copy of the script in
    [src/unnamed/part_000]: one key, no retry, the files one after the
    other. *)
Module Single.

Local Open Scope prog_scope.

Definition BATCH_SIZE : nat := 10.

(** Where the two copies differ: the name the content is saved under, the
    entry pushed to [results.success], and the last line of the template of
    the mail body. *)
Record Variant := {
  sanitize : list N -> list N;
  pushed : File -> list N -> list N;
  body_end : list N
}.

(** [src/scripts/generate.ts] *)
Definition generate_ts : Variant :=
  {| sanitize := Slug.safeFilename;
     pushed := fun file _ => originalFilename file;
     body_end := lit "    " |}.

(** The last copy in [src/unnamed/part_000]. *)
Definition slug_copy `{Slug.StringLib} : Variant :=
  {| sanitize := Slug.generateSafeFilename;
     pushed := fun _ safeFilename => safeFilename;
     body_end := [] |}.

(** [results]: [{ success: string[], failed: string[] }] *)
Record Results := {
  results_success : list (list N);
  results_failed : list (list N)
}.

Section Script.

Variable env : Env.
Variable variant : Variant.
(** [path.join(process.cwd(), 'generated-content')] *)
Variable GENERATED_DIR : list N.
(** How [console.error] prints a thrown value. *)
Variable inspect : JsError -> list N.

(** [console.error]: [console] holds the lines of both streams. *)
Definition console_error (line : list N) : Prog unit := console_log line.

Definition getGemini : Prog GoogleGenAI :=
  match getenv env (lit "GEMINI_API_KEY") with
  | Some (c :: s) => Ret {| apiKey := Some (c :: s) |}
  | _ => Throw (Error (lit "GEMINI_API_KEY is not defined"))
  end.

Definition email_configured : bool :=
  env_truthy env (lit "EMAIL_HOST") && env_truthy env (lit "EMAIL_USER")
  && env_truthy env (lit "EMAIL_PASS").

Definition mail_of (subject text : list N) : Mail :=
  {| mail_from := or_else (getenv env (lit "EMAIL_FROM"))
                          (getenv env (lit "EMAIL_USER"));
     mail_to := or_else (getenv env (lit "EMAIL_TO"))
                        (getenv env (lit "EMAIL_USER"));
     mail_subject := subject;
     mail_text := text |}.

(** [nodemailer.createTransport] only builds the transporter; the mail
    server is contacted by [sendMail], inside the [try]. *)
Definition sendEmail (subject text : list N) : Prog unit :=
  if negb email_configured
  then console_log
         (lit "Email configuration missing. Skipping email notification.")
  else
    try_catch
      (await (SendMail (mail_of subject text));;
       console_log (lit "Email sent successfully."))
      (fun error =>
         console_error (lit "Failed to send email: " ++ inspect error)).

Definition push_success (entry : list N) (results : Results) : Results :=
  {| results_success := results_success results ++ [entry];
     results_failed := results_failed results |}.

Definition push_failed (entry : list N) (results : Results) : Results :=
  {| results_success := results_success results;
     results_failed := results_failed results ++ [entry] |}.

(** The body of the [for] loop for one file; the value is [results] after
    it.  The promise of the closing delay can only resolve. *)
Definition process (ai : GoogleGenAI) (model : list N) (file : File)
  (results : Results) : Prog Results :=
  console_log (lit "Processing file: " ++ originalFilename file ++ lit " ("
               ++ id file ++ lit ")");;
  try_catch
    (let* promptResponse := await (AxiosGet (secureUrl file)) in
     let promptText := promptText_of promptResponse in
     let* result_text := await (GenerateContent ai model promptText) in
     match result_text with
     | Some (c :: text) =>
         let generatedContent := c :: text in
         let safeFilename := sanitize variant (originalFilename file) in
         let filePath := GENERATED_DIR ++ lit "/" ++ safeFilename in
         writeFileSync env safeFilename (Some generatedContent);;
         console_log (lit "Saved content to: " ++ filePath);;
         let* timestamp := now env in
         await (AxiosPut (put_url file)
                  {| put_status := lit "AlreadyCopy";
                     completedTimestamp := timestamp |});;
         console_log (lit "Updated status for " ++ id file);;
         let results := push_success (pushed variant file safeFilename)
                          results in
         Await (SetTimeout 2000) (fun _ => Ret results)
     | _ => Throw (Error (lit "Empty content generated"))
     end)
    (fun error =>
       console_error (lit "Failed to process " ++ originalFilename file
                      ++ lit ": " ++ message error);;
       Ret (push_failed (originalFilename file ++ lit ": " ++ message error)
              results)).

(** [for (const file of pendingFiles) { ... }] *)
Fixpoint process_all (ai : GoogleGenAI) (model : list N) (files : list File)
  (results : Results) : Prog Results :=
  match files with
  | [] => Ret results
  | file :: rest =>
      let* results := process ai model file results in
      process_all ai model rest results
  end.

Definition report_subject (results : Results) : list N :=
  lit "Content Generation Report: "
  ++ Number_toString (length (results_success results)) ++ lit " Success, "
  ++ Number_toString (length (results_failed results)) ++ lit " Failed".

Definition report_line (f : list N) : list N := lit "- " ++ f.

Definition report_body (processed : nat) (results : Results) : list N :=
  join nl
    [ [];
      lit "Content Generation Batch Report";
      lit "-------------------------------";
      lit "Total Processed: " ++ Number_toString processed;
      lit "Success: " ++ Number_toString (length (results_success results));
      lit "Failed: " ++ Number_toString (length (results_failed results));
      [];
      lit "Successful Files:";
      join nl (List.map report_line (results_success results));
      [];
      lit "Failed Files:";
      join nl (List.map report_line (results_failed results));
      [];
      lit "Generated content has been saved to the repository.";
      body_end variant ].

(** [allFiles.filter(...).slice(0, BATCH_SIZE)] *)
Definition pending_of (allFiles : list File) : list File :=
  take BATCH_SIZE (List.filter is_pending allFiles).

(** The [try] block of [run]. *)
Definition run_try : Prog unit :=
  console_log (lit "Fetching pending files...");;
  let* allFiles := await (AxiosGet EXTERNAL_API_URL) in
  match allFiles with
  | VFiles allFiles _ =>
      let pendingFiles := pending_of allFiles in
      match pendingFiles with
      | [] => console_log (lit "No pending files found.")
      | _ :: _ =>
          console_log (lit "Found " ++ Number_toString (length pendingFiles)
                       ++ lit " pending files to process.");;
          let* ai := getGemini in
          let model := model_name env in
          let* results :=
            process_all ai model pendingFiles
              {| results_success := []; results_failed := [] |} in
          sendEmail (report_subject results)
            (report_body (length pendingFiles) results);;
          console_log (lit "Batch processing complete.")
      end
  | _ => Throw (TypeError (lit "allFiles.filter is not a function"))
  end.

Definition run : Prog Termination :=
  console_log (lit "Starting content generation batch...");;
  try_catch
    (run_try;; Ret Fulfilled)
    (fun error =>
       console_error (lit "Fatal error in generation script: "
                      ++ inspect error);;
       sendEmail (lit "Content Generation Failed")
         (lit "Fatal error: " ++ message error);;
       Ret (Exited 1)).

(** The module from its first statement on. *)
Definition main (w : World) : Termination * World :=
  let w := if negb (dir_exists w) then mkdirSync w else w in
  match exec env run w with
  | (Normal t, w') => (t, w')
  | (Thrown e, w') => (Unhandled e, w')
  end.

End Script.

End Single.

(** The delays. *)
Definition is_timeout (r : Request) : bool :=
  match r with SetTimeout _ => true | _ => false end.

Module SingleSample.

Definition variables : list (list N * list N) :=
  [ (lit "GEMINI_API_KEY", lit "key");
    (lit "EMAIL_HOST", lit "smtp.example.org");
    (lit "EMAIL_USER", lit "bot@example.org");
    (lit "EMAIL_PASS", lit "secret") ].

(** The key is set and the mail server rejects every mail. *)
Definition mail_down : Env :=
  Sample.make variables Sample.listing (fun _ => Resolved (Some Sample.text))
    (fun _ => Resolved tt) (fun _ => Rejected (Error (lit "ECONNREFUSED"))).

Definition GENERATED_DIR : list N := lit "/repo/generated-content".

Definition inspect (e : JsError) : list N := lit "Error: " ++ message e.

End SingleSample.

(** ** Vocabulary of the single-key script *)

Section SingleVocabulary.

Variable env : Env.
Variable variant : Single.Variant.

(** The request for the list of files. *)
Definition list_request : Request := AxiosGet EXTERNAL_API_URL.

(** The mail requests of [sendEmail('Content Generation Failed', ...)]: none
    when the mail is not configured. *)
Definition fatal_mail_of (e : JsError) : list Request :=
  if Single.email_configured env
  then [SendMail (Single.mail_of env (lit "Content Generation Failed")
                    (lit "Fatal error: " ++ message e))]
  else [].

(** The mail requests of the report on [pending] with [results]: none when
    nothing was pending or the mail is not configured. *)
Definition report_mail_of (pending : list File) (results : Single.Results)
  : list Request :=
  match pending with
  | [] => []
  | _ :: _ =>
      if Single.email_configured env
      then [SendMail
              (Single.mail_of env (Single.report_subject results)
                 (Single.report_body variant (length pending) results))]
      else []
  end.

(** A run from [w] that ended in the [catch] of [run] with [e]: the list
    was requested, the failure mail is the only other request, the output
    directory is as it was. *)
Definition fatal_run (e : JsError) (w : World) (t : Termination)
  (w' : World) : Prop :=
  t = Exited 1 /\ disk w' = disk w
  /\ trace w' = trace w ++ list_request :: fatal_mail_of e.

(** A run from [w] that went through the files [pending]: [ext] are the
    requests of the loop, between the request for the list and the report
    mail. *)
Definition batch_run (pending : list File) (w : World) (t : Termination)
  (w' : World) : Prop :=
  t = Fulfilled
  /\ exists results ext,
       trace w'
       = trace w ++ list_request :: ext ++ report_mail_of pending results
       /\ length (Single.results_success results)
          + length (Single.results_failed results) = length pending
       /\ fetches ext = List.map fetch_of pending
       /\ count_requests is_generate ext <= length pending
       /\ count_requests is_put ext <= length pending
       /\ count_requests is_timeout ext
          = length (Single.results_success results)
       /\ count_requests is_mail ext = 0
       /\ (forall k, is_Some (disk w !! k) -> is_Some (disk w' !! k))
       /\ (forall k, disk w' !! k <> disk w !! k ->
             exists file,
               file ∈ pending
               /\ k = Single.sanitize variant (originalFilename file)).

End SingleVocabulary.

(** ** Vocabulary of the mails of the multi-key script *)

(** The mail [sendEmail(subject, text)] hands to the transporter. *)
Definition mail_record (env : Env) (subject text : list N) : Mail :=
  {| mail_from := or_else (getenv env (lit "EMAIL_FROM"))
                          (getenv env (lit "EMAIL_USER"));
     mail_to := or_else (getenv env (lit "EMAIL_TO"))
                        (getenv env (lit "EMAIL_USER"));
     mail_subject := subject;
     mail_text := text |}.

(** The subject of the report on the outcomes [outs], sent at [date]. *)
Definition report_subject (date : list N) (outs : list Outcome) : list N :=
  lit "Content Generation Report - " ++ date ++ lit " - "
  ++ Number_toString (length (List.filter success outs)) ++ lit " Success, "
  ++ Number_toString (length (List.filter (fun r => negb (success r)) outs))
  ++ lit " Failed".

Module FailureSample.

(** The files API does not answer. *)
Definition list_down : Env :=
  {| process_env := Sample.variables;
     axios_get := fun tr url => Rejected (Error (lit "ENOTFOUND"));
     axios_put := fun tr url body => Resolved tt;
     generateContent := fun tr ai model contents => Resolved (Some Sample.text);
     sendMail := fun tr m => Resolved tt;
     writeFileSync_error := fun tr path content => None;
     writeFileSync_left := fun tr path content => None;
     Date_now := fun tr => 1700000000000%N;
     toLocaleString := fun tr => lit "11/2/2026, 9:00:00 PM";
     schedule := fun tr => 0 |}.

(** The upstream rejects every call made with the first key and answers
    the calls made with another key. *)
Definition by_key : Env :=
  {| process_env := Sample.variables;
     axios_get := fun tr url => Resolved (VString (lit "Write about " ++ url));
     axios_put := fun tr url body => Resolved tt;
     generateContent := fun tr ai model contents =>
       match apiKey ai with
       | Some key =>
           if str_eqb key (lit "key-one") then Rejected (Error (lit "429"))
           else Resolved (Some Sample.text)
       | None => Rejected (Error (lit "API key not valid"))
       end;
     sendMail := fun tr m => Resolved tt;
     writeFileSync_error := fun tr path content => None;
     writeFileSync_left := fun tr path content => None;
     Date_now := fun tr => 1700000000000%N;
     toLocaleString := fun tr => lit "11/2/2026, 9:00:00 PM";
     schedule := fun tr => 0 |}.

End FailureSample.

(** ** Rely and guarantee

    [sat R p pre Q E]: [p] runs among programs whose steps are in [R].
    Started in a world that satisfies [pre], every synchronous step of [p]
    is in [R], what it returns satisfies [Q] in the world it returns in and
    what it throws satisfies [E].  While [p] waits at an await the others
    run: the world it resumes in is any [R]-successor of the one its request
    was issued in. *)
Fixpoint sat {A : Type} (R : World -> World -> Prop) (p : Prog A)
  (pre : World -> Prop) (Q : A -> World -> Prop)
  (E : JsError -> World -> Prop) : Prop :=
  match p with
  | Ret a => forall w, pre w -> Q a w
  | Throw e => forall w, pre w -> E e w
  | Sync f k =>
      (forall w, pre w -> R w (snd (f w)))
      /\ forall b,
           sat R (k b) (fun w' => exists w, pre w /\ f w = (b, w')) Q E
  | Await r k =>
      forall s,
        sat R (k s) (fun w'' => exists w, pre w /\ R (issue r w) w'') Q E
  end.

(** [pre] survives the steps of the others. *)
Definition stable (R : World -> World -> Prop) (pre : World -> Prop) : Prop :=
  forall w1 w2, pre w1 -> R w1 w2 -> pre w2.

(** What is known of a program stopped at [s] in the world [w]. *)
Definition resumes_sat {A : Type} (R : World -> World -> Prop)
  (Q : A -> World -> Prop) (s : Suspended A) (w : World) : Prop :=
  match s with
  | Done (Normal a) => Q a w
  | Done (Thrown _) => True
  | Waiting r k =>
      exists pre,
        pre w /\ stable R pre
        /\ forall s', sat R (k s') pre Q (fun _ _ => True)
  end.

(** What the pool keeps true: the results satisfy [Q] and every suspended
    worker can go on. *)
Definition pool_sat (R : World -> World -> Prop)
  (Q : Outcome -> World -> Prop) (q : Queue) (w : World) : Prop :=
  Forall (fun o => Q o w) (results q)
  /\ Forall (fun wk =>
               exists pre,
                 pre w /\ stable R pre
                 /\ forall s, sat R (cont wk s) pre Q (fun _ _ => True))
       (workers q).

(** How the queue changes the world, with [L] keys and [written] the names
    it may write: the cursor stays on a key, the requests issued stay, no
    file of the output directory goes away, and only files named by
    [written] are created or overwritten. *)
Definition evolves (L : nat) (written : list N -> Prop) (w w' : World)
  : Prop :=
  (keyIndex w < L -> keyIndex w' < L)
  /\ dir_exists w' = dir_exists w
  /\ trace w `prefix_of` trace w'
  /\ (forall k, is_Some (disk w !! k) -> is_Some (disk w' !! k))
  /\ (forall k, disk w' !! k <> disk w !! k -> written k).

(** The file of a successful outcome is in the output directory. *)
Definition saved (o : Outcome) (w : World) : Prop :=
  success o = true -> is_Some (disk w !! name o).

(** ** The turns of the pool *)

Section Turns.

Context `{Slug.StringLib}.
Variable cfg : Config.
Variable env : Env.
Variable apiKeys : list (list N).
Variable model : list N.
Variable files : list File.

(** One turn of the loop of [pool_loop], the body it runs while a worker is
    suspended: the await chosen by the scheduler settles and its worker runs
    up to its next await. *)
Definition pool_turn (q : Queue) (w : World) : Completion Queue * World :=
  match workers q with
  | [] => (Normal q, w)
  | wk0 :: _ =>
      let j := schedule env (trace w) mod length (workers q) in
      let wk := nth j (workers q) wk0 in
      let (s, w1) := advance (cont wk (answer env (trace w) (req wk))) w in
      match worker_from cfg env apiKeys model s (drop (index q) files)
              (index q) (results q) w1 with
      | (Thrown e, w2) => (Thrown e, w2)
      | (Normal (o, i, rs), w2) =>
          (Normal {| index := i; results := rs;
                     workers := match o with
                                | Some wk' => <[j := wk']> (workers q)
                                | None => delete j (workers q)
                                end |}, w2)
      end
  end.

(** The states of the queue between two turns, from [(q, w)] on. *)
Inductive pool_reaches (q : Queue) (w : World) : Queue -> World -> Prop :=
| reaches_here : pool_reaches q w q w
| reaches_turn q1 w1 q' w' :
    pool_reaches q w q1 w1 -> workers q1 <> [] ->
    pool_turn q1 w1 = (Normal q', w') ->
    pool_reaches q w q' w'.

End Turns.

(** ** Keys in hand

    The key a generation call uses, and the keys of the rotation. *)
Definition key_of (r : Request) : option GoogleGenAI :=
  match r with
  | GenerateContent ai _ _ => Some ai
  | _ => None
  end.

(** The clients of the generation calls of a trace, oldest first. *)
Definition keys_used (tr : list Request) : list GoogleGenAI :=
  omap key_of tr.

(** The clients the [n] calls of [getNextGemini] from number [a] on return,
    when the cursor started at [c]. *)
Definition rotation (apiKeys : list (list N)) (c a n : nat)
  : list GoogleGenAI :=
  List.map (fun j => {| apiKey := apiKeys !! ((c + j) mod length apiKeys) |})
    (seq a n).

(** What an await can settle to: a timer only resolves. *)
Definition possible (r : Request) : Settled (Answer r) -> Prop :=
  match r with
  | SetTimeout _ =>
      fun s => match s with Resolved _ => True | Rejected _ => False end
  | _ => fun _ => True
  end.

(** [paired apiKeys p held Q E]: [p] uses every client it takes from the
    rotation for exactly one generation call.  [held] is the client taken
    and not used yet.  A synchronous step leaves the cursor and the trace
    alone, or it is a call of [getNextGemini] made with nothing in hand; a
    generation call uses the client in hand.  [Q] and [E] say what is in
    hand when [p] returns or throws. *)
Fixpoint paired {A : Type} (apiKeys : list (list N)) (p : Prog A)
  (held : option GoogleGenAI) (Q : A -> option GoogleGenAI -> Prop)
  (E : JsError -> option GoogleGenAI -> Prop) : Prop :=
  match p with
  | Ret a => Q a held
  | Throw e => E e held
  | Sync f k =>
      ((forall w, keyIndex (snd (f w)) = keyIndex w
                  /\ trace (snd (f w)) = trace w)
       /\ forall b, paired apiKeys (k b) held Q E)
      \/ (held = None
          /\ exists g,
               (forall w,
                  g (fst (f w)) = {| apiKey := apiKeys !! keyIndex w |}
                  /\ keyIndex (snd (f w))
                     = (keyIndex w + 1) mod length apiKeys
                  /\ trace (snd (f w)) = trace w)
               /\ forall b, paired apiKeys (k b) (Some (g b)) Q E)
  | Await r k =>
      match key_of r with
      | Some ai => held = Some ai /\ forall s, paired apiKeys (k s) None Q E
      | None => forall s, possible r s -> paired apiKeys (k s) held Q E
      end
  end.

(** The client in hand, as a list. *)
Definition in_hand (held : option GoogleGenAI) : list GoogleGenAI :=
  match held with Some ai => [ai] | None => [] end.

(** What is known of a program stopped at [s] with [held] in hand. *)
Definition resumes_paired {A : Type} (apiKeys : list (list N))
  (s : Suspended A) (held : option GoogleGenAI) : Prop :=
  match s with
  | Done _ => held = None
  | Waiting r k =>
      forall s', possible r s' ->
                 paired apiKeys (k s') held (fun _ h => h = None)
                   (fun _ h => h = None)
  end.

(** What the pool keeps true of the keys: after [a] calls of
    [getNextGemini] from the cursor [c], the clients used since the trace
    held [base] and those in the hands of the suspended workers are the
    first [a] clients of the rotation. *)
Definition rotating (apiKeys : list (list N)) (base : list GoogleGenAI)
  (c a : nat) (q : Queue) (w : World) : Prop :=
  exists helds,
    Forall2 (fun wk held =>
               forall s, possible (req wk) s ->
                         paired apiKeys (cont wk s) held
                           (fun _ h => h = None) (fun _ h => h = None))
      (workers q) helds
    /\ keyIndex w = (c + a) mod length apiKeys
    /\ keys_used (trace w) ++ concat (in_hand <$> helds)
       ≡ₚ base ++ rotation apiKeys c 0 a.

(** ** One turn of the loop of the single-key script *)

(** The error the generation step of the single-key script fails with, given
    what the call settled to: a rejection, or a missing or empty
    [result.text]. *)
Definition generation_error (s : Settled (option (list N)))
  : option JsError :=
  match s with
  | Rejected e => Some e
  | Resolved (Some (_ :: _)) => None
  | Resolved _ => Some (Error (lit "Empty content generated"))
  end.

Section LoopTurn.

Variable env : Env.
Variable variant : Single.Variant.
Variable ai : GoogleGenAI.
Variable model : list N.
Variable file : File.

(** The prompt the fetch answers with, the generation call made with it, and
    the traces at which the fetch, the generation call and the write are
    settled, in a turn started with the trace [tr0]. *)
Definition turn_fetch (tr0 : list Request) : list Request :=
  tr0 ++ [AxiosGet (secureUrl file)].
Definition turn_call (v : JsValue) : Request :=
  GenerateContent ai model (promptText_of v).
Definition turn_generate (tr0 : list Request) (v : JsValue) : list Request :=
  tr0 ++ [AxiosGet (secureUrl file); turn_call v].
Definition turn_body (tr0 : list Request) (v : JsValue) : PutBody :=
  {| put_status := lit "AlreadyCopy";
     completedTimestamp := Date_now env (turn_generate tr0 v) |}.
Definition turn_update (tr0 : list Request) (v : JsValue) : list Request :=
  tr0 ++ [AxiosGet (secureUrl file); turn_call v;
          AxiosPut (put_url file) (turn_body tr0 v)].

(** What a turn of the loop on [file] does, from [results] and the world [w]
    to [results'] and [w'], issuing the requests [tr] after the fetch of the
    prompt: the steps that succeeded, the step that failed and with which
    error, what was pushed and what is in the directory. *)
Definition loop_turn (results : Single.Results) (w : World)
  (results' : Single.Results) (w' : World) (tr : list Request) : Prop :=
  let safeFilename := Single.sanitize variant (originalFilename file) in
  let failed e :=
    Single.push_failed (originalFilename file ++ lit ": " ++ message e)
      results in
  (* every step succeeds *)
  (exists v content,
     axios_get env (turn_fetch (trace w)) (secureUrl file) = Resolved v
     /\ generateContent env (turn_generate (trace w) v) ai model
          (promptText_of v) = Resolved (Some content)
     /\ content <> []
     /\ writeFileSync_error env (turn_generate (trace w) v) safeFilename
          content = None
     /\ axios_put env (turn_update (trace w) v) (put_url file)
          (turn_body (trace w) v) = Resolved tt
     /\ tr = [turn_call v; AxiosPut (put_url file) (turn_body (trace w) v);
              SetTimeout 2000]
     /\ results'
        = Single.push_success (Single.pushed variant file safeFilename)
            results
     /\ disk w' = <[safeFilename := content]> (disk w))
  (* the fetch of the prompt is rejected *)
  \/ (exists e,
        axios_get env (turn_fetch (trace w)) (secureUrl file) = Rejected e
        /\ tr = [] /\ results' = failed e /\ disk w' = disk w)
  (* the generation call is rejected or gives no text *)
  \/ (exists v e,
        axios_get env (turn_fetch (trace w)) (secureUrl file) = Resolved v
        /\ generation_error
             (generateContent env (turn_generate (trace w) v) ai model
                (promptText_of v)) = Some e
        /\ tr = [turn_call v] /\ results' = failed e /\ disk w' = disk w)
  (* the write fails *)
  \/ (exists v content e,
        axios_get env (turn_fetch (trace w)) (secureUrl file) = Resolved v
        /\ generateContent env (turn_generate (trace w) v) ai model
             (promptText_of v) = Resolved (Some content)
        /\ content <> []
        /\ writeFileSync_error env (turn_generate (trace w) v) safeFilename
             content = Some e
        /\ tr = [turn_call v] /\ results' = failed e
        /\ (disk w' = disk w
            \/ exists partial,
                 disk w' = <[safeFilename := partial]> (disk w)))
  (* the status update is rejected *)
  \/ (exists v content e,
        axios_get env (turn_fetch (trace w)) (secureUrl file) = Resolved v
        /\ generateContent env (turn_generate (trace w) v) ai model
             (promptText_of v) = Resolved (Some content)
        /\ content <> []
        /\ writeFileSync_error env (turn_generate (trace w) v) safeFilename
             content = None
        /\ axios_put env (turn_update (trace w) v) (put_url file)
             (turn_body (trace w) v) = Rejected e
        /\ tr = [turn_call v; AxiosPut (put_url file) (turn_body (trace w) v)]
        /\ results' = failed e
        /\ disk w' = <[safeFilename := content]> (disk w)).

End LoopTurn.

(** ** The attempts of [generateWithRetry] *)

(** The trace at which the generation call of attempt number [j + 1] is
    settled, in a call of [generateWithRetry] started with the trace [tr0]
    and the cursor at [cursor]: the [j] attempts before it have failed, each
    followed by its backoff, and the delay and the call of this attempt have
    been requested.  [a] is the number of attempts made before attempt
    number 1 of this count. *)
Definition attempt_trace (cfg : Config) (apiKeys : list (list N))
  (model prompt : list N) (tr0 : list Request) (cursor a j : nat)
  : list Request :=
  tr0
  ++ flat_map (failed_attempt_requests cfg apiKeys model prompt cursor a)
       (seq 0 j)
  ++ attempt_requests cfg apiKeys model prompt cursor j.

(** What that call settles to: the call made by the loop in attempt number
    [j + 1], with the key the rotation has reached, at the trace the loop
    has reached. *)
Definition attempt_settled (cfg : Config) (env : Env)
  (apiKeys : list (list N)) (model prompt : list N) (tr0 : list Request)
  (cursor a j : nat) : Settled (option (list N)) :=
  generateContent env
    (attempt_trace cfg apiKeys model prompt tr0 cursor a j)
    {| apiKey := apiKeys !! ((cursor + j) mod length apiKeys) |}
    model prompt.

(** ** The report of a batch *)

(** The text of the report mail built by [sendBatchEmail]: [date] is the
    local date and time, [stats] the two counts of [getFolderStats],
    [successful] and [failed] the lines of the two lists. *)
Definition report_text (date : list N) (stats : nat * nat)
  (successful failed : list (list N)) : list N :=
  join nl
    [ [];
      lit "Multi-Key Content Generation Report";
      lit "----------------------------------";
      lit "Date & Time (BDT): " ++ date;
      lit "Total Processed: "
        ++ Number_toString (length successful + length failed);
      lit "Success: " ++ Number_toString (length successful);
      lit "Failed: " ++ Number_toString (length failed);
      [];
      lit "Successful Files:";
      join nl successful;
      [];
      lit "Failed Files:";
      join nl failed;
      [];
      lit "Folder Stats:";
      lit "- Total files in folder: " ++ Number_toString (fst stats);
      lit "- Total MDX files: " ++ Number_toString (snd stats);
      [];
      lit "Generated content has been saved to the repository.";
      [] ].

(** The outcome of a file that succeeded, and of a file that failed with
    the message [snd fe]. *)
Definition succeeded_outcome `{Slug.StringLib} (f : File) : Outcome :=
  {| success := true;
     name := Slug.generateSafeFilename (originalFilename f);
     error := None |}.
Definition failed_outcome (fe : File * list N) : Outcome :=
  {| success := false; name := originalFilename (fst fe);
     error := Some (snd fe) |}.

(** * Properties *)

(** ** A write that fails *)

Lemma after_failed_write_trace env name content w :
  trace (after_failed_write env name content w) = trace w.
Proof. unfold after_failed_write. destruct (writeFileSync_left _ _ _ _); reflexivity. Qed.

Lemma after_failed_write_keyIndex env name content w :
  keyIndex (after_failed_write env name content w) = keyIndex w.
Proof. unfold after_failed_write. destruct (writeFileSync_left _ _ _ _); reflexivity. Qed.

Lemma after_failed_write_dir env name content w :
  dir_exists (after_failed_write env name content w) = dir_exists w.
Proof. unfold after_failed_write. destruct (writeFileSync_left _ _ _ _); reflexivity. Qed.

(** The directory is as it was or holds a truncated or partial file. *)
Lemma after_failed_write_disk env name content w :
  disk (after_failed_write env name content w) = disk w
  \/ exists partial,
       disk (after_failed_write env name content w)
       = <[name := partial]> (disk w).
Proof.
  unfold after_failed_write.
  destruct (writeFileSync_left _ _ _ _); [right; eexists|left]; reflexivity.
Qed.

Local Open Scope nat_scope.

(** ** Running programs *)

Lemma exec_bind env {A B} (p : Prog A) (k : A -> Prog B) w :
  exec env (bind p k) w =
  match exec env p w with
  | (Normal a, w') => exec env (k a) w'
  | (Thrown e, w') => (Thrown e, w')
  end.
Proof.
  revert w. induction p as [a|e|C f k' IH|r k' IH]; intros w; simpl.
  - reflexivity.
  - reflexivity.
  - destruct (f w) as [b w']. apply IH.
  - apply IH.
Qed.

Lemma exec_try_catch env {A} (p : Prog A) (h : JsError -> Prog A) w :
  exec env (try_catch p h) w =
  match exec env p w with
  | (Normal a, w') => (Normal a, w')
  | (Thrown e, w') => exec env (h e) w'
  end.
Proof.
  revert w. induction p as [a|e|C f k' IH|r k' IH]; intros w; simpl.
  - reflexivity.
  - reflexivity.
  - destruct (f w) as [b w']. apply IH.
  - apply IH.
Qed.

Lemma generate_calls_app tr1 tr2 :
  generate_calls (tr1 ++ tr2) = generate_calls tr1 + generate_calls tr2.
Proof. unfold generate_calls. rewrite List.filter_app, length_app. reflexivity. Qed.

(** ** Key rotation *)

Section Rotation.

Variable env : Env.
Variable apiKeys : list (list N).

Lemma exec_getNextGemini w :
  exec env (getNextGemini apiKeys) w =
  (Normal {| apiKey := apiKeys !! keyIndex w |},
   set_keyIndex ((keyIndex w + 1) mod length apiKeys) w).
Proof. reflexivity. Qed.

Lemma set_keyIndex_twice i j w :
  set_keyIndex i (set_keyIndex j w) = set_keyIndex i w.
Proof. reflexivity. Qed.

Lemma set_keyIndex_same w : set_keyIndex (keyIndex w) w = w.
Proof. destruct w; reflexivity. Qed.

Lemma rotate_exec n : forall w,
  keyIndex w < length apiKeys ->
  exec env (rotate apiKeys n) w =
    (Normal (List.map
               (fun i => {| apiKey := apiKeys !! ((keyIndex w + i) mod length apiKeys) |})
               (seq 0 n)),
     set_keyIndex ((keyIndex w + n) mod length apiKeys) w).
Proof.
  induction n as [|n IH]; intros w Hlt.
  - simpl. rewrite Nat.add_0_r, Nat.mod_small by exact Hlt.
    rewrite set_keyIndex_same. reflexivity.
  - cbn [rotate]. rewrite exec_bind, exec_getNextGemini, exec_bind.
    assert (Hk : length apiKeys <> 0) by lia.
    rewrite IH; cbn [keyIndex set_keyIndex].
    2: { apply Nat.mod_upper_bound; exact Hk. }
    cbn [exec]. rewrite set_keyIndex_twice. f_equal.
    + f_equal. cbn [seq List.map]. f_equal.
      * rewrite Nat.add_0_r, Nat.mod_small by exact Hlt. reflexivity.
      * rewrite <- seq_shift, List.map_map. apply List.map_ext.
        intros i. rewrite Nat.Div0.add_mod_idemp_l.
        replace (keyIndex w + 1 + i) with (keyIndex w + S i) by lia.
        reflexivity.
    + rewrite Nat.Div0.add_mod_idemp_l.
      replace (keyIndex w + 1 + n) with (keyIndex w + S n) by lia.
      reflexivity.
Qed.

End Rotation.

(** C3. With [k >= 1] keys and the cursor at 0 as the module leaves it, [n]
    successive calls of [getNextGemini] return the clients of
    [apiKeys[0], apiKeys[1 mod k], ..., apiKeys[(n-1) mod k]], every one of
    them an actual key; each call moves the cursor by one modulo [k], and
    the cursor stays below [k]. *)
Theorem getNextGemini_round_robin (env : Env) (apiKeys : list (list N))
  (n : nat) (w : World) :
  1 <= length apiKeys -> 1 <= n -> keyIndex w = 0 ->
  exists ais w',
    exec env (rotate apiKeys n) w = (Normal ais, w')
    /\ length ais = n
    /\ (forall i, i < n ->
          exists key, apiKeys !! (i mod length apiKeys) = Some key
                      /\ ais !! i = Some {| apiKey := Some key |})
    /\ (exists key, apiKeys !! ((n - 1) mod length apiKeys) = Some key
                    /\ last ais = Some {| apiKey := Some key |})
    /\ keyIndex w' = n mod length apiKeys
    /\ keyIndex w' < length apiKeys
    /\ (forall v, keyIndex v < length apiKeys ->
          exists ai v', exec env (getNextGemini apiKeys) v = (Normal ai, v')
                        /\ ai = {| apiKey := apiKeys !! keyIndex v |}
                        /\ keyIndex v' = (keyIndex v + 1) mod length apiKeys
                        /\ keyIndex v' < length apiKeys).
Proof.
  intros Hk Hn H0.
  assert (Hne : length apiKeys <> 0) by lia.
  eexists _, _. split.
  { apply rotate_exec. lia. }
  rewrite H0. cbn [Nat.add keyIndex set_keyIndex].
  assert (Hget : forall i, i < n ->
            exists key, apiKeys !! (i mod length apiKeys) = Some key
              /\ List.map (fun i => {| apiKey := apiKeys !! (i mod length apiKeys) |})
                   (seq 0 n) !! i = Some {| apiKey := Some key |}).
  { intros i Hi.
    destruct (lookup_lt_is_Some_2 apiKeys (i mod length apiKeys)) as [key Hkey].
    { apply Nat.mod_upper_bound; exact Hne. }
    exists key. split; [exact Hkey|].
    change (@List.map nat GoogleGenAI) with (@fmap list _ nat GoogleGenAI).
    rewrite list_lookup_fmap, lookup_seq_lt by exact Hi.
    simpl. rewrite Hkey. reflexivity. }
  repeat split.
  - rewrite length_map, length_seq. reflexivity.
  - exact Hget.
  - destruct (Hget (n - 1)) as [key [Hkey Hl]]; [lia|].
    exists key. split; [exact Hkey|].
    rewrite last_lookup, length_map, length_seq.
    replace (Nat.pred n) with (n - 1) by lia. exact Hl.
  - apply Nat.mod_upper_bound; exact Hne.
  - intros v Hv. eexists _, _. split; [apply exec_getNextGemini|].
    split; [reflexivity|]. cbn [keyIndex set_keyIndex].
    split; [reflexivity|]. apply Nat.mod_upper_bound; exact Hne.
Qed.

(** ** Retry *)

Section Retry.

Variable cfg : Config.
Variable env : Env.
Variable apiKeys : list (list N).
Variables prompt model : list N.

Local Abbreviation ask := (asked cfg env apiKeys model prompt).

Lemma exec_attempt w :
  exec env (attempt cfg apiKeys prompt model) w =
  (attempt_result (ask w), after_attempt cfg apiKeys model prompt w).
Proof.
  unfold asked, attempt, after_attempt. simpl.
  destruct (generateContent env _ _ model prompt) as [[[|c t]|]|e];
    reflexivity.
Qed.

Lemma calls_after_attempt w :
  generate_calls (trace (after_attempt cfg apiKeys model prompt w)) =
  S (generate_calls (trace w)).
Proof.
  unfold after_attempt. simpl. rewrite !generate_calls_app. simpl.
  unfold generate_calls at 2 3. simpl. lia.
Qed.

Lemma calls_after_catch a e w :
  generate_calls (trace (after_catch cfg a e w)) = generate_calls (trace w).
Proof.
  unfold after_catch. simpl. rewrite generate_calls_app.
  destruct (bool_decide _); simpl; unfold generate_calls at 2; simpl; lia.
Qed.

(** One iteration of the loop. *)
Lemma retry_loop_step fuel a w :
  a < MAX_RETRIES cfg ->
  exec env (retry_loop cfg apiKeys (S fuel) a prompt model) w =
  match attempt_result (ask w) with
  | Normal text => (Normal (Some text), after_attempt cfg apiKeys model prompt w)
  | Thrown e =>
      let w2 := after_catch cfg a e (after_attempt cfg apiKeys model prompt w) in
      if MAX_RETRIES cfg <=? S a then (Thrown e, w2)
      else exec env (retry_loop cfg apiKeys fuel (S a) prompt model) w2
  end.
Proof.
  intros Ha. cbn [retry_loop].
  apply Nat.ltb_lt in Ha. rewrite Ha.
  rewrite exec_try_catch, exec_bind, exec_attempt.
  destruct (attempt_result (ask w)) as [text|e]; [reflexivity|].
  rewrite !exec_bind. unfold after_catch. cbn [exec console_log].
  destruct (bool_decide (status e = Some 429%N)); cbn [exec console_log];
    rewrite exec_bind; cbn [exec sleep await answer];
    destruct (MAX_RETRIES cfg <=? S a); reflexivity.
Qed.

(** The loop never makes more calls than attempts are left. *)
Lemma retry_loop_calls fuel : forall a w c w',
  exec env (retry_loop cfg apiKeys fuel a prompt model) w = (c, w') ->
  generate_calls (trace w) <= generate_calls (trace w')
  /\ generate_calls (trace w') <= generate_calls (trace w) + (MAX_RETRIES cfg - a).
Proof.
  induction fuel as [|fuel IH]; intros a w c w' Hex.
  - simpl in Hex. injection Hex as _ <-. lia.
  - destruct (Nat.ltb_spec a (MAX_RETRIES cfg)) as [Ha|Ha].
    + rewrite retry_loop_step in Hex by exact Ha.
      pose proof (calls_after_attempt w) as H1.
      destruct (attempt_result (ask w)) as [text|e].
      * injection Hex as _ <-. lia.
      * cbv zeta in Hex.
        pose proof (calls_after_catch a e
                      (after_attempt cfg apiKeys model prompt w)) as H2.
        destruct (MAX_RETRIES cfg <=? S a).
        -- injection Hex as _ <-. lia.
        -- apply IH in Hex. lia.
    + cbn [retry_loop] in Hex. apply Nat.ltb_ge in Ha. rewrite Ha in Hex.
      injection Hex as _ <-. lia.
Qed.

End Retry.

(** ** The slug generator *)

Module SlugFacts.
Import Slug.

Lemma Forall_trimStart (P : N -> Prop) s : Forall P s -> Forall P (trimStart s).
Proof.
  induction 1 as [|c s Hc Hs IH]; simpl; [constructor|].
  destruct (is_space c); [exact IH|constructor; assumption].
Qed.

Lemma Forall_trim (P : N -> Prop) s : Forall P s -> Forall P (trim s).
Proof.
  intros Hs. unfold trim.
  apply List.Forall_rev, Forall_trimStart, List.Forall_rev, Forall_trimStart, Hs.
Qed.

Lemma Forall_replace_runs (Q : N -> Prop) p r b s :
  Q r -> Forall (fun c => p c = false -> Q c) s ->
  Forall Q (replace_runs p r b s).
Proof.
  intros Hr Hs. revert b.
  induction Hs as [|c s Hc Hs IH]; intros b; simpl; [constructor|].
  destruct (p c) eqn:Hp.
  - destruct b; [apply IH|constructor; [exact Hr|apply IH]].
  - constructor; [apply Hc; reflexivity|apply IH].
Qed.

Lemma Forall_strip_trailing (P : N -> Prop) s :
  Forall P s -> Forall P (strip_trailing s).
Proof.
  induction 1 as [|c s Hc Hs IH]; [constructor|].
  destruct s as [|d t].
  - simpl. destruct (is_hyphen c); [constructor|constructor; assumption].
  - change (strip_trailing (c :: d :: t)) with (c :: strip_trailing (d :: t)).
    constructor; assumption.
Qed.

Lemma Forall_strip_hyphen_ends (P : N -> Prop) s :
  Forall P s -> Forall P (strip_hyphen_ends s).
Proof.
  intros Hs. unfold strip_hyphen_ends. apply Forall_strip_trailing.
  destruct Hs as [|c s Hc Hs]; simpl; [constructor|].
  destruct (is_hyphen c); [exact Hs|constructor; assumption].
Qed.

Lemma Forall_remove_special (P : N -> Prop) s :
  Forall P s -> Forall P (remove_special s).
Proof.
  induction 1 as [|c s Hc Hs IH]; simpl; [constructor|].
  destruct (is_word c || is_space c || is_hyphen c);
    [constructor; assumption|exact IH].
Qed.

Lemma remove_special_kept s :
  Forall (fun c => is_word c || is_space c || is_hyphen c = true)
    (remove_special s).
Proof.
  induction s as [|c s IH]; simpl; [constructor|].
  destruct (is_word c || is_space c || is_hyphen c) eqn:Hc;
    [constructor; assumption|exact IH].
Qed.

(** After the collapse no two hyphens are adjacent; within a run the output
    does not start with one. *)
Lemma collapse_no_double s : forall b,
  no_double_hyphen (replace_runs is_hyphen hyphen b s)
  /\ (b = true ->
      forall h t, replace_runs is_hyphen hyphen b s = h :: t ->
                  is_hyphen h = false).
Proof.
  induction s as [|c s IH]; intros b; simpl.
  - split; [exact I|]. intros _ h t Hnil. discriminate.
  - destruct (is_hyphen c) eqn:Hc.
    + destruct b.
      * apply IH.
      * split; [|discriminate].
        destruct (IH true) as [Hnd Hhd].
        destruct (replace_runs is_hyphen hyphen true s) as [|d t] eqn:Hr;
          [exact I|].
        split; [|exact Hnd].
        intros [_ Hd]. rewrite (Hhd eq_refl d t eq_refl) in Hd. discriminate.
    + destruct (IH false) as [Hnd _]. split.
      * destruct (replace_runs is_hyphen hyphen false s) as [|d t];
          [exact I|].
        split; [|exact Hnd]. intros [Hc' _]. congruence.
      * intros _ h t Heq. injection Heq as <- _. exact Hc.
Qed.

Lemma no_double_tail c s : no_double_hyphen (c :: s) -> no_double_hyphen s.
Proof. destruct s as [|d t]; simpl; [trivial|]. intros [_ Ht]. exact Ht. Qed.

Lemma strip_leading_head s h t :
  no_double_hyphen s -> strip_leading s = h :: t -> is_hyphen h = false.
Proof.
  destruct s as [|c s]; simpl; [discriminate|].
  destruct (is_hyphen c) eqn:Hc.
  - intros Hnd ->. destruct Hnd as [Hpair _].
    destruct (is_hyphen h); [|reflexivity].
    exfalso. apply Hpair. split; reflexivity.
  - intros _ Heq. injection Heq as <- _. exact Hc.
Qed.

Lemma strip_leading_no_double s :
  no_double_hyphen s -> no_double_hyphen (strip_leading s).
Proof.
  destruct s as [|c s]; [trivial|]. intros Hnd.
  cbn [strip_leading]. destruct (is_hyphen c); [|exact Hnd].
  exact (no_double_tail _ _ Hnd).
Qed.

Lemma strip_trailing_head s h t :
  (forall h' t', s = h' :: t' -> is_hyphen h' = false) ->
  strip_trailing s = h :: t -> is_hyphen h = false.
Proof.
  destruct s as [|c [|d u]]; simpl.
  - discriminate.
  - intros Hs. rewrite (Hs c [] eq_refl).
    intros Heq. injection Heq as <- _. apply (Hs c [] eq_refl).
  - intros Hs Heq. injection Heq as <- _. apply (Hs c (d :: u) eq_refl).
Qed.

Lemma strip_trailing_last s : forall x,
  no_double_hyphen s -> last (strip_trailing s) = Some x -> is_hyphen x = false.
Proof.
  induction s as [|c s IH]; intros x Hnd; [discriminate|].
  destruct s as [|d t].
  - simpl. destruct (is_hyphen c) eqn:Hc; simpl; [discriminate|].
    intros Heq. injection Heq as <-. exact Hc.
  - change (strip_trailing (c :: d :: t)) with (c :: strip_trailing (d :: t)).
    destruct (strip_trailing (d :: t)) as [|e u] eqn:Hst.
    + simpl. intros Heq. injection Heq as <-.
      destruct t as [|t0 t1]; simpl in Hst.
      * destruct (is_hyphen d) eqn:Hd; [|discriminate].
        destruct Hnd as [Hpair _].
        destruct (is_hyphen c); [|reflexivity].
        exfalso. apply Hpair. split; [reflexivity|exact Hd].
      * discriminate.
    + intros Hl. apply IH; [apply (no_double_tail c), Hnd|].
      simpl in Hl. simpl. exact Hl.
Qed.

Lemma is_slug_lower c :
  is_slug c = true -> is_upper c = false -> is_lower_slug c = true.
Proof.
  unfold is_slug, is_lower_slug, is_word, is_upper.
  destruct (is_hyphen c); [rewrite !orb_true_r; reflexivity|].
  rewrite !orb_false_r. intros Hw Hu.
  destruct ((65 <=? c) && (c <=? 90))%N; [discriminate|].
  rewrite orb_false_r in Hw. exact Hw.
Qed.

Section Shape.

Context `{StringLib}.

Lemma spaces_to_hyphen_chars s :
  Forall (fun c => is_word c || is_space c || is_hyphen c = true) s ->
  Forall (fun c => is_slug c = true) (spaces_to_hyphen s).
Proof.
  intros Hs. apply Forall_replace_runs; [reflexivity|].
  eapply Forall_impl; [exact Hs|]. cbv beta. intros c Hc Hsp.
  unfold is_slug. rewrite Hsp, orb_false_r in Hc. exact Hc.
Qed.

Lemma collapse_hyphens_chars (P : N -> Prop) s :
  P hyphen -> Forall P s -> Forall P (collapse_hyphens s).
Proof.
  intros Hh Hs. apply Forall_replace_runs; [exact Hh|].
  eapply Forall_impl; [exact Hs|]. auto.
Qed.

Lemma slug_chars originalFilename :
  Forall (fun c => is_slug c = true) (slug_of originalFilename).
Proof.
  unfold slug_of.
  apply Forall_strip_hyphen_ends, collapse_hyphens_chars; [reflexivity|].
  apply spaces_to_hyphen_chars, Forall_trim, remove_special_kept.
Qed.

Lemma slug_no_double originalFilename :
  no_double_hyphen (slug_of originalFilename).
Proof.
  unfold slug_of, strip_hyphen_ends, collapse_hyphens.
  set (s := spaces_to_hyphen _).
  destruct (collapse_no_double s false) as [Hnd _].
  apply strip_leading_no_double in Hnd.
  revert Hnd. generalize (strip_leading (replace_runs is_hyphen hyphen false s)).
  clear. intros l. induction l as [|c l IH]; [trivial|].
  destruct l as [|d t].
  - simpl. destruct (is_hyphen c); trivial.
  - intros Hnd.
    change (strip_trailing (c :: d :: t)) with (c :: strip_trailing (d :: t)).
    pose proof (IH (no_double_tail _ _ Hnd)) as IH'.
    destruct (strip_trailing (d :: t)) as [|e u] eqn:Hst; [exact I|].
    split; [|exact IH'].
    destruct Hnd as [Hpair _]. intros [Hc He]. apply Hpair. split; [exact Hc|].
    destruct t as [|t0 t1]; simpl in Hst.
    + destruct (is_hyphen d) eqn:Hd; [discriminate|].
      injection Hst as <- _. congruence.
    + injection Hst as <- _. exact He.
Qed.

Lemma slug_head originalFilename h t :
  slug_of originalFilename = h :: t -> is_hyphen h = false.
Proof.
  unfold slug_of, strip_hyphen_ends, collapse_hyphens.
  set (s := spaces_to_hyphen _).
  destruct (collapse_no_double s false) as [Hnd _].
  apply strip_trailing_head. intros h' t'. apply strip_leading_head, Hnd.
Qed.

Lemma slug_last originalFilename x :
  last (slug_of originalFilename) = Some x -> is_hyphen x = false.
Proof.
  unfold slug_of, strip_hyphen_ends, collapse_hyphens.
  set (s := spaces_to_hyphen _).
  destruct (collapse_no_double s false) as [Hnd _].
  apply strip_trailing_last, strip_leading_no_double, Hnd.
Qed.

Lemma slug_no_upper originalFilename :
  Forall (fun c => is_upper c = false)
    (normalize_NFKD (toLowerCase (path_parse_name originalFilename))) ->
  Forall (fun c => is_upper c = false) (slug_of originalFilename).
Proof.
  intros Hs. unfold slug_of.
  apply Forall_strip_hyphen_ends, collapse_hyphens_chars; [reflexivity|].
  apply Forall_replace_runs; [reflexivity|].
  eapply Forall_impl;
    [apply Forall_trim, Forall_remove_special, Hs|auto].
Qed.

End Shape.

(** *** When a second pass changes nothing *)

Lemma startsWith_app p s : startsWith p (p ++ s) = true.
Proof.
  induction p as [|c p IH]; [reflexivity|].
  simpl. rewrite N.eqb_refl. exact IH.
Qed.

Lemma stripExtension_app slug : stripExtension (slug ++ extension) = slug.
Proof.
  unfold stripExtension, endsWith.
  rewrite rev_app_distr, startsWith_app, length_app.
  replace (length slug + length extension - length extension)%nat
    with (length slug) by lia.
  apply take_app_length.
Qed.

Lemma replace_runs_none p r s :
  Forall (fun c => p c = false) s -> replace_runs p r false s = s.
Proof.
  induction 1 as [|c s Hc _ IH]; [reflexivity|].
  simpl. rewrite Hc, IH. reflexivity.
Qed.

Lemma collapse_hyphens_fixed s : forall b,
  no_double_hyphen s ->
  (b = true -> forall h t, s = h :: t -> is_hyphen h = false) ->
  replace_runs is_hyphen hyphen b s = s.
Proof.
  induction s as [|c s IH]; intros b Hnd Hhd; [reflexivity|].
  simpl. destruct (is_hyphen c) eqn:Hc.
  - destruct b.
    + rewrite (Hhd eq_refl c s eq_refl) in Hc. discriminate.
    + apply N.eqb_eq in Hc. subst c. f_equal.
      apply IH; [exact (no_double_tail _ _ Hnd)|].
      intros _ h t ->. destruct Hnd as [Hpair _].
      destruct (is_hyphen h) eqn:Hh; [|reflexivity].
      exfalso. apply Hpair. split; reflexivity.
  - f_equal. apply IH; [exact (no_double_tail _ _ Hnd)|discriminate].
Qed.

Lemma strip_trailing_fixed s :
  (forall x, last s = Some x -> is_hyphen x = false) -> strip_trailing s = s.
Proof.
  induction s as [|c s IH]; intros Hl; [reflexivity|].
  destruct s as [|d t].
  - simpl. rewrite (Hl c eq_refl). reflexivity.
  - change (strip_trailing (c :: d :: t)) with (c :: strip_trailing (d :: t)).
    f_equal. apply IH. intros x Hx. apply Hl. exact Hx.
Qed.

Lemma trimStart_fixed s :
  Forall (fun c => is_space c = false) s -> trimStart s = s.
Proof. destruct 1 as [|c s Hc _]; [reflexivity|]. simpl. rewrite Hc. reflexivity. Qed.

(** Decides the comparisons of a character with constants one by one,
    dropping the cases that contradict each other at once. *)
Ltac compare_units :=
  repeat match goal with
         | H : context [(?a <=? ?b)%N] |- _ =>
             destruct (N.leb_spec a b); cbn [andb orb negb] in *;
             try discriminate; try lia
         | H : context [(?a =? ?b)%N] |- _ =>
             destruct (N.eqb_spec a b); cbn [andb orb negb] in *;
             try discriminate; try lia
         | |- context [(?a <=? ?b)%N] =>
             destruct (N.leb_spec a b); cbn [andb orb negb] in *;
             try discriminate; try lia
         | |- context [(?a =? ?b)%N] =>
             destruct (N.eqb_spec a b); cbn [andb orb negb] in *;
             try discriminate; try lia
         end;
  try reflexivity.

Lemma is_slug_not_space c : is_slug c = true -> is_space c = false.
Proof.
  unfold is_slug, is_word, is_hyphen, hyphen, is_space. intros Hc.
  compare_units.
Qed.

Section SecondPass.

Context `{StringLib}.

(** What the runtime does on a string of word characters and hyphens
    without capitals: such a string is its own base name, its own lowercase
    form and its own NFKD form. *)
Hypothesis parse_plain :
  forall s, Forall (fun c => is_slug c = true) s -> path_parse_name s = s.
Hypothesis lower_plain :
  forall s, Forall (fun c => is_slug c = true) s ->
            Forall (fun c => is_upper c = false) s -> toLowerCase s = s.
Hypothesis nfkd_plain :
  forall s, Forall (fun c => is_slug c = true) s -> normalize_NFKD s = s.

(** A slug without a capital letter is a fixed point of the generator. *)
Lemma slug_of_fixed originalFilename :
  Forall (fun c => is_upper c = false) (slug_of originalFilename) ->
  generateSafeFilename (stripExtension (generateSafeFilename originalFilename))
  = generateSafeFilename originalFilename.
Proof.
  intros Hup. unfold generateSafeFilename at 2. rewrite stripExtension_app.
  unfold generateSafeFilename. f_equal.
  pose proof (slug_chars originalFilename) as Hch.
  pose proof (slug_no_double originalFilename) as Hnd.
  pose proof (slug_head originalFilename) as Hhd.
  pose proof (slug_last originalFilename) as Hla.
  revert Hup Hch Hnd Hhd Hla.
  generalize (slug_of originalFilename) as t. intros t Hup Hch Hnd Hhd Hla.
  assert (Hsp : Forall (fun c => is_space c = false) t).
  { eapply Forall_impl; [exact Hch|]. apply is_slug_not_space. }
  unfold slug_of.
  rewrite parse_plain, lower_plain, nfkd_plain by assumption.
  assert (Hrs : remove_special t = t).
  { unfold remove_special. clear -Hch.
    induction Hch as [|c t Hc _ IH]; [reflexivity|].
    simpl. unfold is_slug in Hc.
    destruct (is_word c); simpl in *; [rewrite IH; reflexivity|].
    rewrite Hc, orb_true_r, IH. reflexivity. }
  rewrite Hrs.
  assert (Htr : trim t = t).
  { unfold trim. rewrite (trimStart_fixed t Hsp).
    rewrite trimStart_fixed by (apply List.Forall_rev, Hsp).
    apply rev_involutive. }
  rewrite Htr. unfold spaces_to_hyphen.
  rewrite (replace_runs_none _ _ _ Hsp).
  unfold collapse_hyphens.
  rewrite collapse_hyphens_fixed by (try exact Hnd; discriminate).
  unfold strip_hyphen_ends.
  assert (Hsl : strip_leading t = t).
  { destruct t as [|c t']; [reflexivity|].
    simpl. rewrite (Hhd c t' eq_refl). reflexivity. }
  rewrite Hsl. apply strip_trailing_fixed, Hla.
Qed.

End SecondPass.

(** The runtime of this development does on such strings what the
    hypotheses above say. *)

Lemma is_slug_plain c :
  is_slug c = true ->
  (c =? 47)%N = false /\ (c =? 46)%N = false
  /\ (c =? 8451)%N = false /\ (c =? 8457)%N = false.
Proof.
  unfold is_slug, is_word, is_hyphen, hyphen. intros Hc.
  repeat split; compare_units.
Qed.

Lemma parse_scan_plain (path : list N) (n : nat) : forall st,
  Forall (fun c => is_slug c = true) path ->
  (n <= length path)%nat ->
  startDot st = (-1)%Z -> startPart st = 0%Z ->
  (end_ st = (-1)%Z /\ n = length path \/ end_ st = Z.of_nat (length path)) ->
  let st' := parse_scan path 0 n st in
  startDot st' = (-1)%Z /\ startPart st' = 0%Z
  /\ (n <> 0%nat -> end_ st' = Z.of_nat (length path)).
Proof.
  induction n as [|n IH]; intros st Hpath Hn Hdot Hpart Hend; cbn [parse_scan].
  - cbv zeta. repeat split; [exact Hdot|exact Hpart|congruence].
  - assert (Hc : is_slug (charCodeAt path (0 + Z.of_nat n)) = true).
    { unfold charCodeAt. rewrite Z.add_0_l, Nat2Z.id.
      rewrite Forall_forall in Hpath. apply Hpath.
      apply list_elem_of_In, nth_In. lia. }
    destruct (is_slug_plain _ Hc) as (Hslash & Hpoint & _).
    unfold parse_iter. rewrite Hslash.
    set (st1 := if (end_ st =? -1)%Z then _ else st).
    assert (H1 : startDot st1 = (-1)%Z /\ startPart st1 = 0%Z
                 /\ end_ st1 = Z.of_nat (length path)).
    { unfold st1. destruct Hend as [[He Hlen]|He]; rewrite He.
      - cbn. repeat split; [exact Hdot|exact Hpart|lia].
      - destruct (Z.eqb_spec (Z.of_nat (length path)) (-1)); [lia|].
        repeat split; assumption. }
    clearbody st1. destruct H1 as (Hd1 & Hp1 & He1).
    rewrite Hpoint, Hd1. cbn [Z.eqb negb].
    destruct (IH st1 Hpath) as (Hd' & Hp' & He'); auto; [lia|].
    cbv zeta in *. repeat split; [exact Hd'|exact Hp'|].
    intros _. destruct n as [|n']; [exact He1|apply He'; discriminate].
Qed.

Lemma posix_parse_name_plain s :
  Forall (fun c => is_slug c = true) s -> posix_parse_name s = s.
Proof.
  intros Hs. destruct s as [|c0 s']; [reflexivity|].
  unfold posix_parse_name.
  pose proof (Forall_inv Hs) as Hc0.
  destruct (is_slug_plain _ Hc0) as (Hslash & _). rewrite Hslash.
  cbn [Z.to_nat]. rewrite Nat.sub_0_r.
  destruct (parse_scan_plain (c0 :: s') (length (c0 :: s'))
              {| startDot := -1; startPart := 0; end_ := -1;
                 matchedSlash := true; preDotState := 0 |} Hs)
    as (Hd & Hp & He); auto.
  specialize (He ltac:(discriminate)).
  cbv zeta in Hd, Hp, He. rewrite Hd, Hp, He.
  destruct (Z.eqb_spec (Z.of_nat (length (c0 :: s'))) (-1)); [lia|].
  cbn [negb Z.eqb andb orb]. unfold slice.
  rewrite Nat2Z.id. cbn [Z.to_nat]. rewrite Nat.sub_0_r.
  apply take_ge. reflexivity.
Qed.

(** On the runtime of this development, a slug without a capital letter
    comes back unchanged from a second pass. *)
Lemma node_posix_second_pass originalFilename :
  Forall (fun c => is_upper c = false) (slug_of originalFilename) ->
  generateSafeFilename (stripExtension (generateSafeFilename originalFilename))
  = generateSafeFilename originalFilename.
Proof.
  apply slug_of_fixed.
  - exact posix_parse_name_plain.
  - intros s _ Hup. cbn [toLowerCase node_posix].
    induction Hup as [|c s Hc _ IH]; [reflexivity|].
    cbn [List.map]. unfold lower_unit at 1. rewrite Hc, IH. reflexivity.
  - intros s Hs. cbn [normalize_NFKD node_posix].
    induction Hs as [|c s Hc _ IH]; [reflexivity|].
    cbn [List.map List.concat]. rewrite IH. unfold nfkd_unit.
    destruct (is_slug_plain _ Hc) as (_ & _ & -> & ->). reflexivity.
Qed.

(** The inline sanitizer of the single-key script. *)
Lemma safeFilename_chars originalFilename :
  exists slug,
    safeFilename originalFilename = slug ++ extension
    /\ length slug = length originalFilename
    /\ Forall (fun c => is_lower_underscore c = true) slug.
Proof.
  eexists. split; [reflexivity|]. split.
  - rewrite !length_map. reflexivity.
  - rewrite List.map_map. apply Forall_forall. intros c Hc.
    apply list_elem_of_In, in_map_iff in Hc as (c0 & <- & _).
    destruct (is_alnum c0) eqn:Ha; [|reflexivity].
    unfold is_alnum in Ha. unfold lower_unit, is_upper.
    destruct ((65 <=? c0) && (c0 <=? 90))%N eqn:Hu;
      unfold is_lower_underscore; compare_units.
Qed.

End SlugFacts.

(** C4, as the code has it.  For every input and every implementation of
    the three library functions, the result is a slug followed by [.mdx];
    the slug consists of word characters of the regular expression (ASCII
    letters, digits, the underscore) and hyphens, has no hyphen at either
    end and no two hyphens in a row; when the lowercased and normalised
    base name holds no uppercase ASCII letter, every letter of the slug is
    lowercase.  The inline sanitizer of the single-key script gives
    lowercase letters, digits and underscores, one character per character
    of the input. *)
Theorem generateSafeFilename_shape `{Slug.StringLib}
  (originalFilename : list N) :
  exists slug,
    Slug.generateSafeFilename originalFilename = slug ++ lit ".mdx"
    /\ Forall (fun c => Slug.is_slug c = true) slug
    /\ (forall c, head slug = Some c -> c <> Slug.hyphen)
    /\ (forall c, last slug = Some c -> c <> Slug.hyphen)
    /\ no_double_hyphen slug
    /\ (Forall (fun c => Slug.is_upper c = false)
          (Slug.normalize_NFKD
             (Slug.toLowerCase (Slug.path_parse_name originalFilename))) ->
        Forall (fun c => Slug.is_lower_slug c = true) slug)
    /\ exists slug',
         Slug.safeFilename originalFilename = slug' ++ lit ".mdx"
         /\ length slug' = length originalFilename
         /\ Forall (fun c => Slug.is_lower_underscore c = true) slug'.
Proof.
  exists (Slug.slug_of originalFilename).
  split; [reflexivity|].
  split; [apply SlugFacts.slug_chars|].
  split.
  { intros c Hc ->.
    destruct (Slug.slug_of originalFilename) as [|h t] eqn:Hs; [discriminate|].
    injection Hc as ->.
    pose proof (SlugFacts.slug_head _ _ _ Hs) as Hh. discriminate. }
  split.
  { intros c Hc ->.
    pose proof (SlugFacts.slug_last _ _ Hc) as Hh. discriminate. }
  split; [apply SlugFacts.slug_no_double|].
  split; [|apply SlugFacts.safeFilename_chars].
  intros Hup.
  pose proof (SlugFacts.slug_chars originalFilename) as Hch.
  pose proof (SlugFacts.slug_no_upper _ Hup) as Hnu.
  rewrite Forall_forall in *. intros c Hc.
  apply SlugFacts.is_slug_lower; [apply Hch, Hc|apply Hnu, Hc].
Qed.

(** C4, as stated, fails: the underscore is a word character and survives;
    the inline sanitizer of the single-key script writes underscores
    itself. *)
Lemma generateSafeFilename_keeps_underscore :
  Slug.generateSafeFilename (lit "a_b.txt") = lit "a_b.mdx"
  /\ matches_lower_pattern (Slug.generateSafeFilename (lit "a_b.txt")) = false
  /\ Slug.safeFilename (lit "a b") = lit "a_b.mdx"
  /\ matches_lower_pattern (Slug.safeFilename (lit "a b")) = false.
Proof. repeat split; vm_compute; reflexivity. Qed.

(** C8 at [U+2103.txt]: the symbol has no lowercase form, its compatibility
    decomposition ends in the capital letter C, which the second pass
    lowercases. *)
Theorem generateSafeFilename_second_pass_differs :
  Slug.generateSafeFilename ([8451%N] ++ lit ".txt") = lit "C.mdx"
  /\ Slug.generateSafeFilename
       (Slug.stripExtension
          (Slug.generateSafeFilename ([8451%N] ++ lit ".txt")))
     = lit "c.mdx"
  /\ Slug.generateSafeFilename
       (Slug.stripExtension
          (Slug.generateSafeFilename ([8451%N] ++ lit ".txt")))
     <> Slug.generateSafeFilename ([8451%N] ++ lit ".txt").
Proof. repeat split; vm_compute; [reflexivity..|discriminate]. Qed.

(** ** A logic of suspensions and results *)

Lemma within_mono {A} (p : Prog A) : forall n n' (Q Q' : A -> Prop)
  (E E' : JsError -> Prop),
  n <= n' -> (forall a, Q a -> Q' a) -> (forall e, E e -> E' e) ->
  within p n Q E -> within p n' Q' E'.
Proof.
  induction p as [a|e|C f k IH|r k IH]; intros n n' Q Q' E E' Hn HQ HE; simpl.
  - apply HQ.
  - apply HE.
  - intros Hp b. eapply IH; eauto.
  - destruct n as [|m]; [tauto|]. destruct n' as [|m']; [lia|].
    intros Hp s. eapply (IH s m m'); eauto. lia.
Qed.

Lemma within_bind {A B} (p : Prog A) (k : A -> Prog B) :
  forall n m (Q : A -> Prop) (Q' : B -> Prop) (E : JsError -> Prop),
  within p n Q E -> (forall a, Q a -> within (k a) m Q' E) ->
  within (bind p k) (n + m) Q' E.
Proof.
  induction p as [a|e|C f k' IH|r k' IH]; intros n m Q Q' E Hp Hk; simpl.
  - eapply within_mono; [| | |apply Hk, Hp]; auto. lia.
  - exact Hp.
  - intros b. eapply IH; [apply Hp|exact Hk].
  - destruct n as [|n]; [destruct Hp|]. simpl.
    intros s. eapply IH; [apply Hp|exact Hk].
Qed.

Lemma within_try_catch {A} (p : Prog A) (h : JsError -> Prog A) :
  forall n m (Q : A -> Prop) (E E' : JsError -> Prop),
  within p n Q E -> (forall e, E e -> within (h e) m Q E') ->
  within (try_catch p h) (n + m) Q E'.
Proof.
  induction p as [a|e|C f k' IH|r k' IH]; intros n m Q E E' Hp Hh; simpl.
  - exact Hp.
  - eapply within_mono; [| | |apply Hh, Hp]; auto. lia.
  - intros b. eapply IH; [apply Hp|exact Hh].
  - destruct n as [|n]; [destruct Hp|]. simpl.
    intros s. eapply IH; [apply Hp|exact Hh].
Qed.

Lemma exec_within env {A} (p : Prog A) : forall n Q E w c w',
  within p n Q E -> exec env p w = (c, w') ->
  match c with Normal a => Q a | Thrown e => E e end.
Proof.
  induction p as [a|e|C f k IH|r k IH]; intros n Q E w c w' Hp Hex;
    simpl in Hex.
  - injection Hex as <- _. exact Hp.
  - injection Hex as <- _. exact Hp.
  - destruct (f w) as [b w1]. eapply IH; [apply Hp|exact Hex].
  - destruct n as [|n]; [destruct Hp|]. eapply IH; [apply Hp|exact Hex].
Qed.

Lemma advance_within {A} (p : Prog A) : forall n Q E w,
  within p n Q E ->
  match fst (advance p w) with
  | Done (Normal a) => Q a
  | Done (Thrown e) => E e
  | Waiting r k => exists m, n = S m /\ forall s, within (k s) m Q E
  end.
Proof.
  induction p as [a|e|C f k IH|r k IH]; intros n Q E w Hp; simpl.
  - exact Hp.
  - exact Hp.
  - destruct (f w) as [b w1]. apply IH, Hp.
  - destruct n as [|n]; [destruct Hp|]. exists n. split; [reflexivity|exact Hp].
Qed.

Section Items.

Context `{Slug.StringLib}.
Variable cfg : Config.
Variable env : Env.
Variable apiKeys : list (list N).

Lemma within_attempt prompt model :
  within (attempt cfg apiKeys prompt model) 2 (fun _ => True) (fun _ => True).
Proof.
  simpl. intros ai [[]|e]; simpl; [|exact I].
  intros [[[|c t]|]|e]; simpl; exact I.
Qed.

Lemma within_retry_loop prompt model fuel : forall a,
  within (retry_loop cfg apiKeys fuel a prompt model)
    (3 * (MAX_RETRIES cfg - a)) (fun _ => True) (fun _ => True).
Proof.
  induction fuel as [|fuel IH]; intros a; [exact I|].
  cbn [retry_loop].
  destruct (Nat.ltb_spec a (MAX_RETRIES cfg)) as [Ha|Ha]; [|exact I].
  replace (3 * (MAX_RETRIES cfg - a))
    with (2 + 0 + (0 + (0 + (1 + 3 * (MAX_RETRIES cfg - S a))))) by lia.
  eapply within_try_catch.
  - eapply within_bind; [apply within_attempt|]. intros; exact I.
  - intros e _.
    eapply within_bind with (Q := fun _ => True); [simpl; auto|]. intros _ _.
    eapply within_bind with (Q := fun _ => True).
    { destruct (bool_decide _); simpl; auto. }
    intros _ _.
    eapply within_bind with (Q := fun _ => True).
    { simpl. intros [[]|e']; exact I. }
    intros _ _. destruct (MAX_RETRIES cfg <=? S a); [exact I|apply IH].
Qed.

Lemma within_generateWithRetry prompt model :
  within (generateWithRetry cfg apiKeys prompt model)
    (3 * MAX_RETRIES cfg) (fun _ => True) (fun _ => True).
Proof.
  unfold generateWithRetry.
  replace (3 * MAX_RETRIES cfg) with (3 * (MAX_RETRIES cfg - 0)) by lia.
  apply within_retry_loop.
Qed.

(** [processFile] never throws, suspends at most [awaits_per_file] times and
    returns an outcome of its file. *)
Lemma within_processFile file model :
  within (processFile cfg env apiKeys file model) (awaits_per_file cfg)
    (outcome_of file) (fun _ => False).
Proof.
  unfold processFile, awaits_per_file.
  replace (2 + 3 * MAX_RETRIES cfg)
    with (0 + ((1 + (3 * MAX_RETRIES cfg + (0 + (0 + (1 + (0 + 0)))))) + 0))
    by lia.
  eapply within_bind with (Q := fun _ => True); [simpl; auto|]. intros _ _.
  eapply within_try_catch with (E := fun _ => True).
  - eapply within_bind with (Q := fun _ => True).
    { simpl. intros [v|e]; exact I. }
    intros v _.
    eapply within_bind; [apply within_generateWithRetry|]. intros content _.
    eapply within_bind with (Q := fun _ => True).
    { destruct content as [content|]; simpl; [|exact I].
      intros [e|]; exact I. }
    intros _ _.
    eapply within_bind with (Q := fun _ => True); [simpl; auto|]. intros t _.
    eapply within_bind with (Q := fun _ => True).
    { simpl. intros [[]|e]; exact I. }
    intros _ _.
    eapply within_bind with (Q := fun _ => True); [simpl; auto|]. intros _ _.
    simpl. left. auto.
  - intros e _. simpl. intros _. right. simpl. eauto.
Qed.

End Items.

(** ** The queue *)

Section Pool.

Context `{Slug.StringLib}.
Variable cfg : Config.
Variable env : Env.
Variable apiKeys : list (list N).
Variable model : list N.
Variable files : list File.

Local Abbreviation B := (awaits_per_file cfg).

Lemma advance_processFile f w :
  at_point f B (fst (advance (processFile cfg env apiKeys f model) w)).
Proof.
  pose proof (advance_within _ _ _ _ w
                (within_processFile cfg env apiKeys f model)) as Hp.
  unfold at_point.
  destruct (fst (advance (processFile cfg env apiKeys f model) w))
    as [[o|e]|r k]; exact Hp.
Qed.

Lemma drop_cons_inv (l : list File) i x t :
  drop i l = x :: t -> l !! i = Some x /\ drop (S i) l = t /\ i < length l.
Proof.
  intros Hd.
  assert (Hx : l !! i = Some x).
  { rewrite <- (Nat.add_0_r i), <- lookup_drop, Hd. reflexivity. }
  split; [exact Hx|]. split.
  - replace (S i) with (i + 1) by lia.
    rewrite <- drop_drop, Hd. reflexivity.
  - apply lookup_lt_Some in Hx. exact Hx.
Qed.

Local Abbreviation worker_done := (worker_done cfg files).

Lemma worker_from_spec pending : forall s idx rs w cur n fcur,
  files !! cur = Some fcur -> at_point fcur n s ->
  drop idx files = pending -> idx <= length files ->
  exists o idx' rs' w',
    worker_from cfg env apiKeys model s pending idx rs w
      = (Normal (o, idx', rs'), w')
    /\ worker_done (Some cur) n idx rs o idx' rs'.
Proof.
  induction pending as [|file pending IH];
    intros s idx rs w cur n fcur Hcur Hs Hdrop Hidx;
    (destruct s as [[result|e]|r k]; [| destruct Hs |]).
  - (* the last file is done and nothing is left *)
    simpl. eexists _, _, _, _. split; [reflexivity|].
    exists 0, [result], [cur]. simpl.
    assert (length files <= idx).
    { pose proof (length_drop files idx) as Hl. rewrite Hdrop in Hl.
      simpl in Hl. lia. }
    repeat split; try lia.
    constructor; [|constructor]. eauto.
  - destruct Hs as [m [-> Hk]].
    simpl. eexists _, _, _, _. split; [reflexivity|].
    exists 0, [], []. simpl. rewrite app_nil_r.
    repeat split; try lia; [constructor|].
    exists cur, m. repeat split; [|lia].
    exists fcur. split; [exact Hcur|exact Hk].
  - (* the file is done, the next one is claimed *)
    apply drop_cons_inv in Hdrop as (Hfile & Hrest & Hlt).
    cbn [worker_from].
    pose proof (advance_processFile file w) as Hadv.
    destruct (advance (processFile cfg env apiKeys file model) w)
      as [s' w1]. cbn [fst] in Hadv.
    destruct (IH s' (S idx) (rs ++ [result]) w1 idx B file Hfile Hadv Hrest)
      as (o & idx' & rs' & w' & Hex & t & outs & dn & Hi & Hle & Hrs
          & Hserved & Ho); [lia|].
    exists o, idx', rs', w'. split; [exact Hex|].
    exists (S t), (result :: outs), (cur :: dn).
    split; [lia|]. split; [exact Hle|].
    split; [rewrite Hrs, <- app_assoc; reflexivity|].
    split; [constructor; [eauto|exact Hserved]|].
    destruct o as [wk|].
    + destruct Ho as (c & n' & Hdn & Hwk & Hcost).
      exists c, n'. cbn [from_option app seq] in Hdn |- *.
      split; [rewrite Hdn; reflexivity|]. split; [exact Hwk|].
      rewrite Nat.mul_succ_l. lia.
    + destruct Ho as [Hdn Hend]. cbn [from_option app seq] in Hdn |- *.
      split; [rewrite Hdn; reflexivity|exact Hend].
  - destruct Hs as [m [-> Hk]].
    simpl. eexists _, _, _, _. split; [reflexivity|].
    exists 0, [], []. simpl. rewrite app_nil_r.
    repeat split; try lia; [constructor|].
    exists cur, m. repeat split; [|lia].
    exists fcur. split; [exact Hcur|exact Hk].
Qed.

Lemma worker_spec idx rs w :
  idx <= length files ->
  exists o idx' rs' w',
    worker cfg env apiKeys model files idx rs w = (Normal (o, idx', rs'), w')
    /\ worker_done None 0 idx rs o idx' rs'.
Proof.
  intros Hidx. unfold worker.
  destruct (drop idx files) as [|file pending] eqn:Hdrop.
  - eexists _, _, _, _. split; [reflexivity|].
    exists 0, [], []. simpl. rewrite app_nil_r.
    assert (length files <= idx).
    { pose proof (length_drop files idx) as Hl. rewrite Hdrop in Hl.
      simpl in Hl. lia. }
    repeat split; try lia. constructor.
  - apply drop_cons_inv in Hdrop as (Hfile & Hrest & Hlt).
    pose proof (advance_processFile file w) as Hadv.
    destruct (advance (processFile cfg env apiKeys file model) w)
      as [s' w1]. cbn [fst] in Hadv.
    destruct (worker_from_spec pending s' (S idx) rs w1 idx B file
                Hfile Hadv Hrest)
      as (o & idx' & rs' & w' & Hex & t & outs & dn & Hi & Hle & Hrs
          & Hserved & Ho); [lia|].
    exists o, idx', rs', w'. split; [exact Hex|].
    exists (S t), outs, dn.
    split; [lia|]. split; [exact Hle|]. split; [exact Hrs|].
    split; [exact Hserved|].
    destruct o as [wk|].
    + destruct Ho as (c & n' & Hdn & Hwk & Hcost).
      exists c, n'. cbn [from_option app seq] in Hdn |- *.
      split; [rewrite Hdn; reflexivity|]. split; [exact Hwk|].
      rewrite Nat.mul_succ_l. lia.
    + destruct Ho as [Hdn Hend]. cbn [from_option app seq] in Hdn |- *.
      split; [rewrite Hdn; reflexivity|exact Hend].
Qed.

Local Abbreviation pool_inv := (pool_inv files).

Lemma perm_claim_some (done dn D sq : list nat) c cur :
  dn ++ [c] = cur :: sq ->
  (done ++ dn) ++ c :: D ≡ₚ (done ++ cur :: D) ++ sq.
Proof.
  intros Hdn.
  replace ((done ++ dn) ++ c :: D) with (done ++ (dn ++ [c]) ++ D)
    by (rewrite <- !app_assoc; reflexivity).
  rewrite Hdn, <- !app_assoc. apply Permutation_app_head.
  simpl. apply perm_skip, Permutation_app_comm.
Qed.

Lemma perm_claim_none (done D sq : list nat) cur :
  (done ++ cur :: sq) ++ D ≡ₚ (done ++ cur :: D) ++ sq.
Proof.
  rewrite <- !app_assoc. apply Permutation_app_head.
  simpl. apply perm_skip, Permutation_app_comm.
Qed.

Lemma perm_insert (J : list nat) j c cur :
  J !! j = Some cur -> <[j:=c]> J ≡ₚ c :: delete j J.
Proof.
  intros HJ. pose proof (lookup_lt_Some _ _ _ HJ) as Hlt.
  rewrite insert_take_drop, delete_take_drop by exact Hlt.
  symmetry. apply Permutation_middle.
Qed.

Lemma cost_app jobs1 jobs2 : cost (jobs1 ++ jobs2) = cost jobs1 + cost jobs2.
Proof. apply sum_list_with_app. Qed.

Lemma cost_cons job jobs : cost (job :: jobs) = S (snd job) + cost jobs.
Proof. reflexivity. Qed.

Lemma cost_insert (jobs : list (nat * nat)) j job job' :
  jobs !! j = Some job ->
  cost (<[j:=job']> jobs) + S (snd job) = cost jobs + S (snd job').
Proof.
  intros Hj. pose proof (lookup_lt_Some _ _ _ Hj) as Hlt.
  rewrite insert_take_drop by exact Hlt.
  rewrite <- (take_drop_middle _ _ _ Hj) at 3.
  rewrite !cost_app, !cost_cons. lia.
Qed.

Lemma cost_delete (jobs : list (nat * nat)) j job :
  jobs !! j = Some job -> cost (delete j jobs) + S (snd job) = cost jobs.
Proof.
  intros Hj. rewrite delete_take_drop.
  rewrite <- (take_drop_middle _ _ _ Hj) at 3.
  rewrite !cost_app, !cost_cons. lia.
Qed.

Local Abbreviation live := (live files).

Lemma start_workers_spec n : forall q w done jobs,
  pool_inv q done jobs -> cost jobs <= index q * B ->
  exists q' w' done' jobs',
    start_workers cfg env apiKeys model files n q w = (Normal q', w')
    /\ pool_inv q' done' jobs'
    /\ cost jobs' <= index q' * B
    /\ (1 <= n \/ live q -> live q').
Proof.
  induction n as [|n IH]; intros q w done jobs Hinv Hcost.
  - exists q, w, done, jobs. simpl.
    split; [reflexivity|]. split; [exact Hinv|]. split; [exact Hcost|].
    intros [Hn|Hl]; [lia|exact Hl].
  - destruct Hinv as [Hws Hrs Hcl Hidx].
    destruct (worker_spec (index q) (results q) w Hidx)
      as (o & idx' & rs' & w1 & Hex & t & outs & dn & Hi & Hle & Hrs'
          & Hserved & Ho).
    cbn [start_workers]. rewrite Hex.
    set (q1 := {| index := idx'; results := rs';
                  workers := add_worker o (workers q) |}).
    assert (Hseq : seq 0 idx' = seq 0 (index q) ++ seq (index q) t).
    { rewrite Hi, seq_app. reflexivity. }
    destruct o as [wk|].
    + destruct Ho as (c & n' & Hdn & Hwk & Hn').
      cbn [from_option app] in Hdn.
      destruct (IH q1 w1 (done ++ dn) (jobs ++ [(c, n')]))
        as (q' & w' & done' & jobs' & Hst & Hinv' & Hcost' & Hlive).
      * split; cbn [q1 index results workers add_worker].
        -- apply Forall2_app; [exact Hws|]. constructor; [exact Hwk|constructor].
        -- rewrite Hrs'. apply Forall2_app; assumption.
        -- rewrite fmap_app, Hseq, <- Hdn, <- Hcl. cbn [fmap list_fmap fst].
           rewrite <- !app_assoc. apply Permutation_app_head.
           rewrite !app_assoc. apply Permutation_app_tail, Permutation_app_comm.
        -- exact Hle.
      * cbn [q1 index]. rewrite cost_app, Hi, Nat.mul_add_distr_r.
        unfold cost at 2. simpl. lia.
      * exists q', w', done', jobs'.
        split; [exact Hst|]. split; [exact Hinv'|]. split; [exact Hcost'|].
        intros _. apply Hlive. right. left. cbn [q1 workers add_worker].
        destruct (workers q); discriminate.
    + destruct Ho as [Hdn Hend]. cbn [from_option app] in Hdn.
      destruct (IH q1 w1 (done ++ dn) jobs)
        as (q' & w' & done' & jobs' & Hst & Hinv' & Hcost' & Hlive).
      * split; cbn [q1 index results workers add_worker].
        -- exact Hws.
        -- rewrite Hrs'. apply Forall2_app; assumption.
        -- rewrite Hseq, <- Hdn, <- Hcl.
           rewrite <- !app_assoc. apply Permutation_app_head, Permutation_app_comm.
        -- exact Hle.
      * cbn [q1 index]. rewrite Hi, Nat.mul_add_distr_r. lia.
      * exists q', w', done', jobs'.
        split; [exact Hst|]. split; [exact Hinv'|]. split; [exact Hcost'|].
        intros _. apply Hlive. right. right. exact Hend.
Qed.

Lemma pool_loop_spec fuel : forall q w done jobs,
  pool_inv q done jobs -> live q ->
  cost jobs + (length files - index q) * B <= fuel ->
  exists outs w' done',
    pool_loop cfg env apiKeys fuel model files q w = Some (Normal outs, w')
    /\ served files done' outs
    /\ done' ≡ₚ seq 0 (length files).
Proof.
  induction fuel as [|fuel IH]; intros q w done jobs Hinv Hlive Hfuel;
    destruct Hinv as [Hws Hrs Hcl Hidx];
    destruct (workers q) as [|wk0 ws] eqn:Hq.
  1, 3: (* no worker is left *)
    cbn [pool_loop]; rewrite Hq;
    apply Forall2_nil_inv_l in Hws; subst jobs;
    destruct Hlive as [Hne|Hend]; [congruence|];
    exists (results q), w, done; split; [reflexivity|];
    split; [exact Hrs|];
    rewrite <- Hend, <- Hcl; cbn [fmap list_fmap]; rewrite app_nil_r;
    reflexivity.
  - (* a worker is suspended: there is fuel *)
    exfalso. apply Forall2_cons_inv_l in Hws as (job & jobs' & _ & _ & ->).
    rewrite cost_cons in Hfuel. simpl in Hfuel.
    exact (Nat.nle_succ_0 _ Hfuel).
  - rewrite <- Hq in Hws.
    cbn [pool_loop]. rewrite Hq. rewrite <- Hq.
    set (j := schedule env (trace w) mod length (workers q)).
    assert (Hj : j < length (workers q)).
    { apply Nat.mod_upper_bound. rewrite Hq. discriminate. }
    destruct (lookup_lt_is_Some_2 _ _ Hj) as [wk Hwk].
    rewrite (nth_lookup_Some _ _ wk0 _ Hwk).
    destruct (Forall2_lookup_l _ _ _ _ _ Hws Hwk)
      as ([cur n] & Hjob & fcur & Hcur & Hcont).
    cbn [fst snd] in Hcur, Hcont.
    pose proof (advance_within _ _ _ _ w
                  (Hcont (answer env (trace w) (req wk)))) as Hadv.
    destruct (advance (cont wk (answer env (trace w) (req wk))) w)
      as [s w1]. cbn [fst] in Hadv.
    destruct (worker_from_spec (drop (index q) files) s (index q)
                (results q) w1 cur n fcur Hcur)
      as (o & idx' & rs' & w2 & Hex & t & outs & dn & Hi & Hle & Hrs'
          & Hserved & Ho); [|reflexivity|exact Hidx|].
    { destruct s as [[r|e]|r k]; exact Hadv. }
    rewrite Hex.
    assert (Hseq : seq 0 idx' = seq 0 (index q) ++ seq (index q) t).
    { rewrite Hi, seq_app. reflexivity. }
    assert (HJ : jobs.*1 !! j = Some cur).
    { rewrite list_lookup_fmap, Hjob. reflexivity. }
    destruct o as [wk'|].
    + destruct Ho as (c & n' & Hdn & Hwk' & Hn').
      cbn [from_option app] in Hdn.
      eapply (IH _ w2 (done ++ dn) (<[j:=(c, n')]> jobs)).
      * split; cbn [index results workers].
        -- apply Forall2_insert; assumption.
        -- rewrite Hrs'. apply Forall2_app; assumption.
        -- rewrite list_fmap_insert. cbn [fst].
           rewrite (perm_insert _ _ c _ HJ), Hseq, <- Hcl.
           rewrite (delete_Permutation _ _ _ HJ) at 2.
           apply perm_claim_some, Hdn.
        -- exact Hle.
      * left. cbn [workers]. intros Hnil.
        apply (f_equal length) in Hnil. rewrite length_insert in Hnil.
        simpl in Hnil. lia.
      * cbn [index].
        pose proof (cost_insert jobs j (cur, n) (c, n') Hjob) as Hc.
        cbn [snd] in Hc.
        assert ((length files - index q) * B
                = (length files - idx') * B + t * B) as Hm.
        { rewrite <- Nat.mul_add_distr_r. f_equal. lia. }
        lia.
    + destruct Ho as [Hdn Hend]. cbn [from_option app] in Hdn.
      eapply (IH _ w2 (done ++ dn) (delete j jobs)).
      * split; cbn [index results workers].
        -- apply Forall2_delete; assumption.
        -- rewrite Hrs'. apply Forall2_app; assumption.
        -- rewrite list_fmap_delete, Hseq, <- Hcl, Hdn.
           rewrite (delete_Permutation _ _ _ HJ) at 2.
           apply perm_claim_none.
        -- exact Hle.
      * right. exact Hend.
      * cbn [index].
        pose proof (cost_delete jobs j (cur, n) Hjob) as Hc.
        cbn [snd] in Hc. rewrite Hend, Nat.sub_diag. simpl. lia.
Qed.

(** Started with at least one worker and enough fuel, the queue returns,
    with one outcome per file. *)
Lemma runQueue_fuel_spec fuel w :
  1 <= CONCURRENCY_LIMIT cfg -> length files * B <= fuel ->
  model = model_name env ->
  exists outs w' done,
    runQueue_fuel cfg env apiKeys fuel files w = Some (Normal outs, w')
    /\ served files done outs
    /\ done ≡ₚ seq 0 (length files).
Proof.
  intros Hc Hfuel Hmodel. unfold runQueue_fuel. rewrite <- Hmodel.
  destruct (start_workers_spec (CONCURRENCY_LIMIT cfg)
              {| index := 0; results := []; workers := [] |} w [] [])
    as (q & w1 & done & jobs & Hst & Hinv & Hcost & Hlive).
  { split; simpl; [constructor|constructor|reflexivity|lia]. }
  { simpl. unfold cost. simpl. lia. }
  rewrite Hst.
  apply (pool_loop_spec fuel q w1 done jobs Hinv).
  - apply Hlive. left. exact Hc.
  - pose proof (inv_index _ _ _ _ Hinv) as Hidx.
    assert (length files * B = index q * B + (length files - index q) * B) as Hm.
    { rewrite <- Nat.mul_add_distr_r. f_equal. lia. }
    lia.
Qed.

End Pool.

(** ** Every file is fetched once *)

Lemma fetch_free_bind {A B} (p : Prog A) (k : A -> Prog B) :
  fetch_free p -> (forall a, fetch_free (k a)) -> fetch_free (bind p k).
Proof.
  intros Hp Hk. induction p as [a|e|C f k' IH|r k' IH]; simpl in *.
  - apply Hk.
  - exact I.
  - destruct Hp as [Hf Hk']. split; [exact Hf|]. intros b. apply IH, Hk'.
  - destruct Hp as [Hr Hk']. split; [exact Hr|]. intros s. apply IH, Hk'.
Qed.

Lemma fetch_free_try_catch {A} (p : Prog A) (h : JsError -> Prog A) :
  fetch_free p -> (forall e, fetch_free (h e)) -> fetch_free (try_catch p h).
Proof.
  intros Hp Hh. induction p as [a|e|C f k' IH|r k' IH]; simpl in *.
  - exact I.
  - apply Hh.
  - destruct Hp as [Hf Hk']. split; [exact Hf|]. intros b. apply IH, Hk'.
  - destruct Hp as [Hr Hk']. split; [exact Hr|]. intros s. apply IH, Hk'.
Qed.

Lemma fetch_free_console_log line : fetch_free (console_log line).
Proof. simpl. auto. Qed.

Lemma fetches_app tr1 tr2 : fetches (tr1 ++ tr2) = fetches tr1 ++ fetches tr2.
Proof. apply List.filter_app. Qed.

Lemma advance_fetch_free {A} (p : Prog A) : forall w,
  fetch_free p ->
  fetches (trace (snd (advance p w))) = fetches (trace w)
  /\ resumes_fetch_free (fst (advance p w)).
Proof.
  induction p as [a|e|C f k IH|r k IH]; intros w Hp; simpl in *.
  - auto.
  - auto.
  - destruct Hp as [Hf Hk]. specialize (Hf w).
    destruct (f w) as [b w1]. simpl in Hf.
    destruct (IH b w1 (Hk b)) as [Ht Hs]. rewrite Ht, Hf. auto.
  - destruct Hp as [Hr Hk]. split; [|exact Hk].
    rewrite fetches_app. simpl. rewrite Hr. apply app_nil_r.
Qed.

Section Fetches.

Context `{Slug.StringLib}.
Variable cfg : Config.
Variable env : Env.
Variable apiKeys : list (list N).
Variable model : list N.

Lemma fetch_free_retry_loop prompt fuel : forall a,
  fetch_free (retry_loop cfg apiKeys fuel a prompt model).
Proof.
  induction fuel as [|fuel IH]; intros a; [exact I|].
  cbn [retry_loop]. destruct (a <? MAX_RETRIES cfg); [|exact I].
  apply fetch_free_try_catch.
  - simpl. split; [reflexivity|]. intros ai. split; [reflexivity|].
    intros [[]|e]; simpl; [|exact I]. split; [reflexivity|].
    intros [[[|c t]|]|e]; simpl; exact I.
  - intros e. apply fetch_free_bind; [apply fetch_free_console_log|].
    intros _. apply fetch_free_bind.
    { destruct (bool_decide _); [apply fetch_free_console_log|exact I]. }
    intros _. apply fetch_free_bind.
    { simpl. split; [reflexivity|]. intros [[]|e']; exact I. }
    intros _. destruct (MAX_RETRIES cfg <=? S a); [exact I|apply IH].
Qed.

(** [processFile] fetches the prompt of its file first, and nothing after. *)
Lemma advance_processFile_fetches file w :
  fetches (trace (snd (advance (processFile cfg env apiKeys file model) w)))
  = fetches (trace w) ++ [fetch_of file]
  /\ resumes_fetch_free
       (fst (advance (processFile cfg env apiKeys file model) w)).
Proof.
  unfold processFile. cbn [bind console_log advance try_catch await fst snd].
  split.
  - cbn [issue trace print]. rewrite fetches_app. reflexivity.
  - intros s. apply fetch_free_try_catch.
    + destruct s as [v|e]; [|exact I]. cbn [bind].
      apply fetch_free_bind; [apply fetch_free_retry_loop|].
      intros content. apply fetch_free_bind.
      { destruct content as [content|]; simpl; [|exact I].
        split; [|intros [e|]; exact I].
        intros w0. destruct (writeFileSync_error env _ _ _);
          [apply after_failed_write_trace|reflexivity]. }
      intros _. apply fetch_free_bind; [simpl; auto|].
      intros t. simpl. split; [reflexivity|].
      intros [[]|e]; simpl; auto.
    + intros e. simpl. auto.
Qed.

(** A worker that runs on fetches the prompts of the files it claims, in
    the order of the list, and pushes one outcome for every file it
    finishes. *)
Lemma worker_from_fetches pending : forall s idx rs w o idx' rs' w',
  resumes_fetch_free s ->
  worker_from cfg env apiKeys model s pending idx rs w
    = (Normal (o, idx', rs'), w') ->
  idx <= idx'
  /\ fetches (trace w')
     = fetches (trace w) ++ List.map fetch_of (take (idx' - idx) pending)
  /\ length rs' + length (add_worker o []) = length rs + 1 + (idx' - idx)
  /\ match o with
     | Some wk => forall s', fetch_free (cont wk s')
     | None => True
     end.
Proof.
  induction pending as [|file pending IH];
    intros s idx rs w o idx' rs' w' Hs Hex;
    (destruct s as [[result|e]|r k]; cbn [worker_from] in Hex;
     [| discriminate |]).
  - injection Hex as <- <- <- <-. rewrite Nat.sub_diag, length_app. simpl.
    rewrite app_nil_r. repeat split; lia.
  - injection Hex as <- <- <- <-. rewrite Nat.sub_diag. simpl.
    rewrite app_nil_r. repeat split; try lia. exact Hs.
  - destruct (advance_processFile_fetches file w) as [Ht Hfree].
    destruct (advance (processFile cfg env apiKeys file model) w)
      as [s1 w1]. cbn [fst snd] in Ht, Hfree.
    destruct (IH _ _ _ _ _ _ _ _ Hfree Hex) as (Hle & Ht' & Hlen & Ho).
    split; [lia|]. split.
    { rewrite Ht', Ht.
      replace (idx' - idx) with (S (idx' - S idx)) by lia.
      cbn [take List.map]. rewrite <- app_assoc. reflexivity. }
    split; [|exact Ho]. rewrite length_app in Hlen. simpl in Hlen. lia.
  - injection Hex as <- <- <- <-. rewrite Nat.sub_diag. simpl.
    rewrite app_nil_r. repeat split; try lia. exact Hs.
Qed.

Lemma worker_fetches files idx rs w o idx' rs' w' :
  worker cfg env apiKeys model files idx rs w = (Normal (o, idx', rs'), w') ->
  idx <= idx'
  /\ fetches (trace w')
     = fetches (trace w)
       ++ List.map fetch_of (take (idx' - idx) (drop idx files))
  /\ length rs' + length (add_worker o []) = length rs + (idx' - idx)
  /\ match o with
     | Some wk => forall s', fetch_free (cont wk s')
     | None => True
     end.
Proof.
  unfold worker. destruct (drop idx files) as [|file pending].
  - intros Hex. injection Hex as <- <- <- <-. rewrite Nat.sub_diag. simpl.
    rewrite app_nil_r. repeat split; lia.
  - intros Hex.
    destruct (advance_processFile_fetches file w) as [Ht Hfree].
    destruct (advance (processFile cfg env apiKeys file model) w)
      as [s1 w1]. cbn [fst snd] in Ht, Hfree.
    destruct (worker_from_fetches _ _ _ _ _ _ _ _ _ Hfree Hex)
      as (Hle & Ht' & Hlen & Ho).
    split; [lia|]. split.
    { rewrite Ht', Ht.
      replace (idx' - idx) with (S (idx' - S idx)) by lia.
      cbn [take List.map]. rewrite <- app_assoc. reflexivity. }
    split; [lia|exact Ho].
Qed.

Lemma fetched_step files before (q : Queue) w idx' rs' ws' w' k :
  fetched files before q w ->
  index q <= idx' ->
  fetches (trace w')
  = fetches (trace w)
    ++ List.map fetch_of (take (idx' - index q) (drop (index q) files)) ->
  length rs' + length ws' + k = length (results q) + length (workers q)
                                + k + (idx' - index q) ->
  Forall (fun wk => forall s, fetch_free (cont wk s)) ws' ->
  fetched files before {| index := idx'; results := rs'; workers := ws' |} w'.
Proof.
  intros (Ht & Hlen & Hws) Hle Ht' Hlen' Hws'.
  split; [|split; [cbn [index results workers]; lia|exact Hws']].
  cbn [index]. rewrite Ht', Ht, <- app_assoc, <- List.map_app.
  rewrite take_take_drop. do 3 f_equal. lia.
Qed.

Lemma start_workers_fetches files before n : forall q w q' w',
  fetched files before q w ->
  start_workers cfg env apiKeys model files n q w = (Normal q', w') ->
  fetched files before q' w'.
Proof.
  induction n as [|n IH]; intros q w q' w' Hinv Hst.
  - simpl in Hst. injection Hst as <- <-. exact Hinv.
  - cbn [start_workers] in Hst.
    destruct (worker cfg env apiKeys model files (index q) (results q) w)
      as [[[[o i] rs]|e] w1] eqn:Hwk; [|discriminate].
    apply worker_fetches in Hwk as (Hle & Ht & Hlen & Ho).
    apply (IH _ _ _ _ (fetched_step files before q w i rs
                         (add_worker o (workers q)) w1 0 Hinv Hle Ht
                         ltac:(destruct o; simpl in *;
                               rewrite ?length_app; simpl; lia)
                         ltac:(destruct Hinv as (_ & _ & Hws);
                               destruct o; simpl;
                               [apply Forall_app; split;
                                [exact Hws|constructor; [exact Ho|constructor]]
                               |exact Hws]))
             Hst).
Qed.

Lemma pool_loop_fetches files before fuel : forall q w outs w',
  fetched files before q w ->
  pool_loop cfg env apiKeys fuel model files q w = Some (Normal outs, w') ->
  fetches (trace w') = before ++ List.map fetch_of (take (length outs) files).
Proof.
  induction fuel as [|fuel IH]; intros q w outs w' Hinv Hrun;
    cbn [pool_loop] in Hrun;
    destruct (workers q) as [|wk0 ws] eqn:Hq.
  1, 3: injection Hrun as <- <-; destruct Hinv as (Ht & Hlen & _);
    rewrite Hq in Hlen; simpl in Hlen; rewrite Ht; do 3 f_equal; lia.
  - discriminate.
  - rewrite <- Hq in Hrun.
    set (j := schedule env (trace w) mod length (workers q)) in *.
    assert (Hj : j < length (workers q)).
    { apply Nat.mod_upper_bound. rewrite Hq. discriminate. }
    destruct (lookup_lt_is_Some_2 _ _ Hj) as [wk Hwk].
    rewrite (nth_lookup_Some _ _ wk0 _ Hwk) in Hrun.
    pose proof Hinv as (Ht & Hlen & Hws).
    pose proof (Forall_lookup_1 _ _ _ _ Hws Hwk) as Hfree.
    destruct (advance_fetch_free _ w
                (Hfree (answer env (trace w) (req wk)))) as [Ht1 Hs1].
    destruct (advance (cont wk (answer env (trace w) (req wk))) w)
      as [s w1]. cbn [fst snd] in Ht1, Hs1.
    destruct (worker_from cfg env apiKeys model s (drop (index q) files)
                (index q) (results q) w1)
      as [[[[o i] rs]|e] w2] eqn:Hwf; [|discriminate].
    apply worker_from_fetches in Hwf as (Hle & Ht2 & Hlen2 & Ho);
      [|exact Hs1].
    rewrite Ht1 in Ht2.
    refine (IH _ _ _ _ _ Hrun).
    destruct o as [wk'|]; simpl in Hlen2.
    + apply (fetched_step files before q w i rs _ w2 0 Hinv Hle Ht2).
      * rewrite length_insert. lia.
      * apply Forall_insert; assumption.
    + apply (fetched_step files before q w i rs _ w2 1 Hinv Hle Ht2).
      * pose proof (length_delete (workers q) j (ex_intro _ wk Hwk)). lia.
      * apply Forall_delete. exact Hws.
Qed.

End Fetches.

(** ** Processing one file *)

Section ProcessFile.

Context `{Slug.StringLib}.
Variable cfg : Config.
Variable env : Env.
Variable apiKeys : list (list N).

(** The retry loop touches neither the disk nor the files API. *)
Lemma retry_loop_frame prompt model fuel : forall a w c w',
  exec env (retry_loop cfg apiKeys fuel a prompt model) w = (c, w') ->
  disk w' = disk w
  /\ exists extra, trace w' = trace w ++ extra
                   /\ Forall (fun r => is_internal r = true) extra.
Proof.
  induction fuel as [|fuel IH]; intros a w c w' Hex.
  - simpl in Hex. injection Hex as _ <-. split; [reflexivity|].
    exists []. rewrite app_nil_r. split; [reflexivity|constructor].
  - destruct (Nat.ltb_spec a (MAX_RETRIES cfg)) as [Ha|Ha].
    + rewrite retry_loop_step in Hex by exact Ha.
      set (w1 := after_attempt cfg apiKeys model prompt w) in *.
      assert (H1 : disk w1 = disk w
                   /\ exists extra, trace w1 = trace w ++ extra
                        /\ Forall (fun r => is_internal r = true) extra).
      { split; [reflexivity|]. eexists. unfold w1, after_attempt. simpl.
        rewrite <- app_assoc. split; [reflexivity|].
        repeat constructor. }
      clearbody w1.
      destruct (attempt_result _) as [text|e].
      * injection Hex as _ <-. exact H1.
      * cbv zeta in Hex.
        set (w2 := after_catch cfg a e w1) in *.
        assert (H2 : disk w2 = disk w
                     /\ exists extra, trace w2 = trace w ++ extra
                          /\ Forall (fun r => is_internal r = true) extra).
        { destruct H1 as [Hd (extra & Ht & Hin)]. unfold w2, after_catch.
          split.
          - destruct (bool_decide _); simpl; exact Hd.
          - exists (extra ++ [SetTimeout (1000 * S a)]).
            split.
            + destruct (bool_decide _); simpl; rewrite Ht, <- app_assoc;
                reflexivity.
            + apply Forall_app. split; [exact Hin|repeat constructor]. }
        clearbody w2.
        destruct (MAX_RETRIES cfg <=? S a).
        -- injection Hex as _ <-. exact H2.
        -- apply IH in Hex. destruct Hex as [Hd (extra' & Ht' & Hin')].
           destruct H2 as [Hd2 (extra & Ht & Hin)].
           split; [congruence|].
           exists (extra ++ extra'). rewrite Ht', Ht, <- app_assoc.
           split; [reflexivity|]. apply Forall_app. split; assumption.
    + cbn [retry_loop] in Hex. apply Nat.ltb_ge in Ha. rewrite Ha in Hex.
      injection Hex as _ <-. split; [reflexivity|].
      exists []. rewrite app_nil_r. split; [reflexivity|constructor].
Qed.

(** [processFile], step by step. *)
Lemma exec_processFile file model w :
  exec env (processFile cfg env apiKeys file model) w =
  let w1 := issue (AxiosGet (secureUrl file))
              (print (lit "Processing: " ++ originalFilename file) w) in
  match axios_get env (trace w1) (secureUrl file) with
  | Rejected e => failed file e w1
  | Resolved v =>
      match exec env (generateWithRetry cfg apiKeys (promptText_of v) model)
              w1 with
      | (Thrown e, w2) => failed file e w2
      | (Normal None, w2) =>
          failed file
            (TypeError (lit "The data argument must be of type string")) w2
      | (Normal (Some content), w2) =>
          let safeFilename :=
            Slug.generateSafeFilename (originalFilename file) in
          match writeFileSync_error env (trace w2) safeFilename content with
          | Some e =>
              failed file e (after_failed_write env safeFilename content w2)
          | None =>
              let w3 := set_disk (<[safeFilename := content]> (disk w2)) w2 in
              let body := {| put_status := lit "AlreadyCopy";
                             completedTimestamp := Date_now env (trace w3) |} in
              let w4 := issue (AxiosPut (put_url file) body) w3 in
              match axios_put env (trace w4) (put_url file) body with
              | Rejected e => failed file e w4
              | Resolved _ =>
                  (Normal {| success := true; name := safeFilename;
                             error := None |},
                   print ([9989%N] ++ lit " Done: " ++ safeFilename) w4)
              end
          end
      end
  end.
Proof.
  unfold processFile. rewrite exec_bind. cbn [exec console_log].
  rewrite exec_try_catch, exec_bind. cbn [exec await answer].
  cbv zeta.
  destruct (axios_get env _ (secureUrl file)) as [v|e]; [|reflexivity].
  cbn [exec]. rewrite exec_bind.
  destruct (exec env (generateWithRetry cfg apiKeys _ model) _)
    as [[[content|]|e] w2]; [| reflexivity | reflexivity].
  rewrite exec_bind. cbn [exec writeFileSync].
  destruct (writeFileSync_error env (trace w2) _ content) as [e|];
    [reflexivity|].
  cbn [exec]. rewrite exec_bind. cbn [exec now].
  rewrite exec_bind. cbn [exec await answer].
  destruct (axios_put env _ _ _) as [[]|e]; reflexivity.
Qed.

End ProcessFile.

Lemma internal_not_put extra :
  Forall (fun r => is_internal r = true) extra -> List.filter is_put extra = [].
Proof.
  induction 1 as [|r extra Hr _ IH]; [reflexivity|].
  simpl. destruct r; try discriminate; exact IH.
Qed.

(** More fuel does not change what the queue returns. *)
Lemma pool_loop_more_fuel `{Slug.StringLib} cfg env apiKeys model files fuel :
  forall q w r fuel',
    pool_loop cfg env apiKeys fuel model files q w = Some r ->
    fuel <= fuel' ->
    pool_loop cfg env apiKeys fuel' model files q w = Some r.
Proof.
  induction fuel as [|fuel IH]; intros q w r fuel' Hr Hle.
  - cbn [pool_loop] in Hr. destruct (workers q) eqn:Hq; [|discriminate].
    destruct fuel'; cbn [pool_loop]; rewrite Hq; exact Hr.
  - destruct fuel' as [|fuel']; [lia|].
    cbn [pool_loop] in Hr |- *.
    destruct (workers q) as [|wk0 ws]; [exact Hr|].
    destruct (advance _ w) as [s w1].
    destruct (worker_from _ _ _ _ _ _ _ _ _) as [[[[o i] rs]|e] w2];
      [|exact Hr].
    apply IH; [exact Hr|lia].
Qed.

(** C2. With at least one worker, [runQueue] returns, and returns exactly
    one outcome per file: the outcomes are, in the order they were pushed,
    outcomes of the files at the indices [done], and [done] lists every
    index of the input exactly once.  [processFile] is entered once per
    file: the prompts fetched during the call are those of the files, each
    one once, in the order of the list.  The fuel of the model does not
    matter once it covers the awaits of the files. *)
Theorem runQueue_each_file_once `{Slug.StringLib} (cfg : Config) (env : Env)
  (apiKeys : list (list N)) (files : list File) (w : World) :
  1 <= CONCURRENCY_LIMIT cfg ->
  exists outs w' done,
    runQueue cfg env apiKeys files w = Some (Normal outs, w')
    /\ (forall fuel, length files * awaits_per_file cfg <= fuel ->
          runQueue_fuel cfg env apiKeys fuel files w = Some (Normal outs, w'))
    /\ length outs = length files
    /\ served files done outs
    /\ done ≡ₚ seq 0 (length files)
    /\ NoDup done
    /\ (forall i, i < length files -> i ∈ done)
    /\ fetches (trace w') = fetches (trace w) ++ List.map fetch_of files.
Proof.
  intros Hc.
  destruct (runQueue_fuel_spec cfg env apiKeys (model_name env) files
              (length files * awaits_per_file cfg) w Hc (le_n _) eq_refl)
    as (outs & w' & done & Hrun & Hserved & Hperm).
  assert (Hlen : length outs = length files).
  { rewrite <- (Forall2_length _ _ _ Hserved), Hperm, length_seq.
    reflexivity. }
  exists outs, w', done. split; [exact Hrun|]. split.
  { intros fuel Hfuel. unfold runQueue_fuel in Hrun |- *.
    destruct (start_workers _ _ _ _ _ _ _ _) as [[q|e] w1]; [|exact Hrun].
    eapply pool_loop_more_fuel; [exact Hrun|exact Hfuel]. }
  split; [exact Hlen|].
  split; [exact Hserved|]. split; [exact Hperm|]. split; [|split].
  - rewrite Hperm. apply NoDup_seq.
  - intros i Hi. rewrite Hperm. apply elem_of_seq. lia.
  - unfold runQueue_fuel in Hrun.
    destruct (start_workers _ _ _ _ _ _ _ _) as [[q|e] w1] eqn:Hst;
      [|discriminate].
    apply (start_workers_fetches _ _ _ _ _ (fetches (trace w))) in Hst.
    + rewrite (pool_loop_fetches _ _ _ _ _ _ _ _ _ _ _ Hst Hrun), Hlen.
      rewrite take_ge by lia. reflexivity.
    + split; [|split]; simpl; [|reflexivity|constructor].
      symmetry. apply app_nil_r.
Qed.

Lemma puts_after_fetch tr url extra :
  Forall (fun r => is_internal r = true) extra ->
  List.filter is_put ((tr ++ [AxiosGet url]) ++ extra) = List.filter is_put tr.
Proof.
  intros Hin. rewrite !List.filter_app, (internal_not_put _ Hin).
  simpl. rewrite !app_nil_r. reflexivity.
Qed.

(** C5, as the code has it.  [processFile] never throws: it returns an
    outcome, and whichever step fails the outcome is a failure that carries
    the original file name and the message of the error of that step.
    - The fetch of the prompt is rejected: nothing else is requested and
      nothing is written.
    - The generation fails after its retries: nothing is written and no
      status update is requested.
    - The write fails: no status update is requested; the directory is as
      it was, or holds a truncated or partial file under the slug.
    - The status update is rejected: it was the last request, and the
      content written just before it stays on disk.
    When no step fails the outcome is a success, the content is on disk and
    the update was accepted.  Whatever fails, the queue returns one outcome
    per file. *)
Theorem processFile_failure_recorded `{Slug.StringLib} (cfg : Config)
  (env : Env) (apiKeys : list (list N)) (file : File) (model : list N)
  (w : World) :
  let safeFilename := Slug.generateSafeFilename (originalFilename file) in
  let w1 := issue (AxiosGet (secureUrl file))
              (print (lit "Processing: " ++ originalFilename file) w) in
  let failure := fun e : JsError =>
    {| success := false; name := originalFilename file;
       error := Some (message e) |} in
  (exists o w',
     exec env (processFile cfg env apiKeys file model) w = (Normal o, w')
     /\ (forall e,
           axios_get env (trace w ++ [AxiosGet (secureUrl file)])
             (secureUrl file) = Rejected e ->
           o = failure e
           /\ disk w' = disk w
           /\ trace w' = trace w ++ [AxiosGet (secureUrl file)])
     /\ (forall v c w2,
           axios_get env (trace w ++ [AxiosGet (secureUrl file)])
             (secureUrl file) = Resolved v ->
           exec env (generateWithRetry cfg apiKeys (promptText_of v) model) w1
           = (c, w2) ->
           List.filter is_put (trace w2) = List.filter is_put (trace w)
           /\ (forall e,
                 c = Thrown e ->
                 o = failure e /\ disk w' = disk w /\ trace w' = trace w2)
           /\ (c = Normal None ->
                 o = failure
                       (TypeError
                          (lit "The data argument must be of type string"))
                 /\ disk w' = disk w /\ trace w' = trace w2)
           /\ (forall content,
                 c = Normal (Some content) ->
                 (forall e,
                    writeFileSync_error env (trace w2) safeFilename content
                    = Some e ->
                    o = failure e
                    /\ trace w' = trace w2
                    /\ (disk w' = disk w
                        \/ exists partial,
                             disk w' = <[safeFilename := partial]> (disk w)))
                 /\ (writeFileSync_error env (trace w2) safeFilename content
                     = None ->
                     let body :=
                       {| put_status := lit "AlreadyCopy";
                          completedTimestamp := Date_now env (trace w2) |} in
                     disk w' = <[safeFilename := content]> (disk w)
                     /\ trace w' = trace w2 ++ [AxiosPut (put_url file) body]
                     /\ (forall e,
                           axios_put env (trace w') (put_url file) body
                           = Rejected e ->
                           o = failure e)
                     /\ (axios_put env (trace w') (put_url file) body
                         = Resolved tt ->
                         o = {| success := true; name := safeFilename;
                                error := None |})))))
  /\ (forall files,
        1 <= CONCURRENCY_LIMIT cfg ->
        exists outs w',
          runQueue cfg env apiKeys files w = Some (Normal outs, w')
          /\ length outs = length files).
Proof.
  cbv zeta. split.
  2: { intros files Hc.
       destruct (runQueue_fuel_spec cfg env apiKeys (model_name env) files
                   (length files * awaits_per_file cfg) w Hc (le_n _) eq_refl)
         as (outs & w' & done & Hrun & Hserved & Hperm).
       exists outs, w'. split; [exact Hrun|].
       rewrite <- (Forall2_length _ _ _ Hserved), Hperm, length_seq.
       reflexivity. }
  rewrite exec_processFile. cbv zeta. unfold failed.
  set (w1 := issue (AxiosGet (secureUrl file)) _).
  assert (Hd1 : disk w1 = disk w) by reflexivity.
  assert (Ht1 : trace w1 = trace w ++ [AxiosGet (secureUrl file)])
    by reflexivity.
  rewrite Ht1.
  set (safe := Slug.generateSafeFilename (originalFilename file)).
  destruct (axios_get env (trace w ++ [AxiosGet (secureUrl file)])
              (secureUrl file)) as [v|e].
  2: { eexists _, _. split; [reflexivity|]. split.
       - intros e' He'. injection He' as <-. cbn [disk trace print].
         split; [reflexivity|]. split; [exact Hd1|exact Ht1].
       - intros v c w2 Hv. discriminate Hv. }
  destruct (exec env (generateWithRetry cfg apiKeys (promptText_of v) model)
              w1) as [c w2] eqn:Hgen.
  pose proof Hgen as Hframe.
  apply retry_loop_frame in Hframe as [Hd2 (extra & Ht2 & Hin)].
  assert (Hputs : List.filter is_put (trace w2) = List.filter is_put (trace w)).
  { rewrite Ht2, Ht1. apply puts_after_fetch, Hin. }
  assert (Hd : disk w2 = disk w) by congruence.
  clear Hd1 Hd2 Ht2 Hin extra.
  destruct c as [[content|]|e].
  - destruct (writeFileSync_error env (trace w2) safe content) as [e|] eqn:Hw.
    + eexists _, _. split; [reflexivity|].
      split; [intros e' He'; discriminate He'|].
      intros v0 c0 w20 Hv Hg0. injection Hv as <-.
      rewrite Hgen in Hg0. injection Hg0 as <- <-. split; [exact Hputs|].
      split; [intros e' He'; discriminate He'|].
      split; [intros He'; discriminate He'|].
      intros content0 Hc0. injection Hc0 as <-. rewrite Hw.
      split; [|intros He'; discriminate He'].
      intros e' He'. injection He' as <-. cbn [disk trace print].
      split; [reflexivity|].
      split; [apply after_failed_write_trace|].
      rewrite <- Hd. apply after_failed_write_disk.
    + cbn [trace issue set_disk].
      set (body := {| put_status := lit "AlreadyCopy";
                      completedTimestamp := _ |}).
      destruct (axios_put env _ (put_url file) body) as [[]|e] eqn:Hput;
        (eexists _, _; split; [reflexivity|];
         split; [intros e' He'; discriminate He'|];
         intros v0 c0 w20 Hv Hg0; injection Hv as <-;
         rewrite Hgen in Hg0; injection Hg0 as <- <-; split; [exact Hputs|];
         split; [intros e' He'; discriminate He'|];
         split; [intros He'; discriminate He'|];
         intros content0 Hc0; injection Hc0 as <-; rewrite Hw;
         split; [intros e' He'; discriminate He'|];
         intros _; cbn [disk trace print issue set_disk];
         split; [rewrite Hd; reflexivity|];
         split; [reflexivity|]; fold body; rewrite Hput; split).
      * intros e' He'. discriminate He'.
      * intros _. reflexivity.
      * intros e' He'. injection He' as <-. reflexivity.
      * intros He'. discriminate He'.
  - eexists _, _. split; [reflexivity|].
    split; [intros e' He'; discriminate He'|].
    intros v0 c0 w20 Hv Hg0. injection Hv as <-.
    rewrite Hgen in Hg0. injection Hg0 as <- <-. split; [exact Hputs|].
    split; [intros e' He'; discriminate He'|].
    split; [|intros content0 Hc0; discriminate Hc0].
    intros _. cbn [disk trace print]. split; [reflexivity|].
    split; [exact Hd|reflexivity].
  - eexists _, _. split; [reflexivity|].
    split; [intros e' He'; discriminate He'|].
    intros v0 c0 w20 Hv Hg0. injection Hv as <-.
    rewrite Hgen in Hg0. injection Hg0 as <- <-. split; [exact Hputs|].
    split; [|split; [intros He'; discriminate He'
                    |intros content0 Hc0; discriminate Hc0]].
    intros e' He'. injection He' as <-. cbn [disk trace print].
    split; [reflexivity|]. split; [exact Hd|reflexivity].
Qed.

(** ** Start-up *)

Lemma Forall_insert_sorted (P : list N -> Prop) k l :
  P k -> Forall P l -> Forall P (insert_sorted k l).
Proof.
  intros Hk. induction 1 as [|k' l Hk' Hl IH]; simpl.
  - constructor; [exact Hk|constructor].
  - destruct (str_leb k k'); repeat constructor; assumption.
Qed.

Lemma Forall_sort (P : list N -> Prop) l : Forall P l -> Forall P (sort l).
Proof.
  induction 1 as [|k l Hk Hl IH]; simpl; [constructor|].
  apply Forall_insert_sorted; assumption.
Qed.

Lemma Forall_filter_true {A} (f : A -> bool) l :
  Forall (fun x => f x = true) (List.filter f l).
Proof.
  induction l as [|x l IH]; simpl; [constructor|].
  destruct (f x) eqn:Hx; [constructor; assumption|exact IH].
Qed.

(** No variable whose name starts with [GEMINI_API_KEY] has a non-empty
    value: no key is loaded. *)
Lemma load_apiKeys_empty env :
  (forall key, startsWith (lit "GEMINI_API_KEY") key = true ->
               env_truthy env key = false) ->
  load_apiKeys env = [].
Proof.
  intros Hno. unfold load_apiKeys.
  pose proof (Forall_sort _ _
                (Forall_filter_true (startsWith (lit "GEMINI_API_KEY"))
                   (List.map fst (process_env env)))) as Hall.
  induction Hall as [|key keys Hkey _ IH]; [reflexivity|].
  cbn [omap list_omap]. specialize (Hno key Hkey). unfold env_truthy in Hno.
  destruct (getenv env key) as [[|c s]|]; [exact IH|discriminate|exact IH].
Qed.

(** C7. When no key is found the module throws the configuration error at
    once: nothing has been requested (no HTTP call, no generation call, no
    mail), nothing written or printed, the cursor untouched; only the output
    directory has been created if it was missing.  The process ends with
    exit code 1. *)
Theorem main_without_keys `{Slug.StringLib} (cfg : Config) (env : Env)
  (w : World) :
  (forall key, startsWith (lit "GEMINI_API_KEY") key = true ->
               env_truthy env key = false) ->
  exists w',
    main cfg env w
    = Some (Uncaught (Error (lit "No GEMINI_API_KEY variables found.")), w')
    /\ exit_code (Uncaught (Error (lit "No GEMINI_API_KEY variables found."))) = 1
    /\ load_apiKeys env = []
    /\ trace w' = trace w
    /\ disk w' = disk w
    /\ console w' = console w
    /\ keyIndex w' = keyIndex w
    /\ dir_exists w' = true.
Proof.
  intros Hno. pose proof (load_apiKeys_empty env Hno) as Hkeys.
  unfold main. rewrite Hkeys. cbn [length Nat.eqb].
  eexists. split; [reflexivity|].
  split; [reflexivity|]. split; [reflexivity|].
  destruct (dir_exists w) eqn:Hdir; cbn [negb]; repeat split; assumption.
Qed.

(** C9. When the list is fetched and holds no pending file, [run] is
    fulfilled, so the process ends with exit code 0; its only request is the
    fetch of the list: no generation call, no status update, no mail, and
    the disk is as it was. *)
Theorem run_without_pending `{Slug.StringLib} (cfg : Config) (env : Env)
  (apiKeys : list (list N)) (w : World) (files : list File) (json : list N) :
  axios_get env (trace w ++ [AxiosGet EXTERNAL_API_URL]) EXTERNAL_API_URL
  = Resolved (VFiles files json) ->
  take (BATCH_SIZE cfg) (List.filter is_pending files) = [] ->
  exists w',
    run cfg env apiKeys w = Some (Fulfilled, w')
    /\ exit_code Fulfilled = 0
    /\ trace w' = trace w ++ [AxiosGet EXTERNAL_API_URL]
    /\ generate_calls (trace w') = generate_calls (trace w)
    /\ List.filter is_put (trace w') = List.filter is_put (trace w)
    /\ List.filter is_mail (trace w') = List.filter is_mail (trace w)
    /\ disk w' = disk w
    /\ keyIndex w' = keyIndex w.
Proof.
  intros Hget Hnone. unfold run, run_try, fetch_pending.
  rewrite exec_bind. cbn [exec await answer issue trace print].
  rewrite Hget. cbn [exec]. rewrite Hnone. cbn [exec console_log].
  eexists. split; [reflexivity|]. cbn [trace disk keyIndex print issue].
  split; [reflexivity|]. split; [reflexivity|].
  split; [rewrite generate_calls_app; exact (Nat.add_0_r _)|].
  split; [rewrite List.filter_app; apply app_nil_r|].
  split; [rewrite List.filter_app; apply app_nil_r|].
  split; reflexivity.
Qed.

(** ** The report mail *)

(** Whenever the mail server rejects the report of a batch that had files to
    process, [run] does not end normally: the rejection reaches its [catch]
    block, so the process ends with exit code 1, by [process.exit(1)] if
    the second mail is accepted and by an unhandled rejection if not. *)
Lemma run_report_rejected `{Slug.StringLib} (cfg : Config) (env : Env)
  (apiKeys : list (list N)) (w : World) (files : list File) (json : list N) :
  1 <= CONCURRENCY_LIMIT cfg ->
  env_truthy env (lit "EMAIL_HOST") = true ->
  axios_get env (trace w ++ [AxiosGet EXTERNAL_API_URL]) EXTERNAL_API_URL
  = Resolved (VFiles files json) ->
  take (BATCH_SIZE cfg) (List.filter is_pending files) <> [] ->
  (forall tr m, mail_subject m <> lit "Batch Failed" ->
                exists e, sendMail env tr m = Rejected e) ->
  exists t w',
    run cfg env apiKeys w = Some (t, w')
    /\ t <> Fulfilled
    /\ exit_code t = 1.
Proof.
  intros Hc Hhost Hget Hsome Hmail. unfold run, run_try, fetch_pending.
  rewrite exec_bind. cbn [exec await answer issue trace print].
  rewrite Hget. cbn [exec].
  destruct (take (BATCH_SIZE cfg) (List.filter is_pending files))
    as [|f pending] eqn:Htake; [congruence|].
  match goal with
  | |- context [runQueue cfg env apiKeys (f :: pending) ?w2] =>
      destruct (runQueue_fuel_spec cfg env apiKeys (model_name env)
                  (f :: pending)
                  (length (f :: pending) * awaits_per_file cfg) w2 Hc
                  (le_n _) eq_refl)
        as (outs & w3 & done & Hrun & _)
  end.
  unfold runQueue. rewrite Hrun.
  rewrite exec_bind. unfold sendBatchEmail at 1.
  rewrite exec_bind. cbn [exec]. rewrite exec_bind.
  unfold getFolderStats at 1. cbn [exec].
  assert (Hsend : forall subject body w4,
            exists e w5,
              exec env (sendEmail env
                          (lit "Content Generation Report - " ++ subject)
                          body) w4 = (Thrown e, w5)).
  { intros subject body w4. unfold sendEmail. rewrite Hhost.
    cbn [negb exec await answer].
    match goal with
    | |- context [sendMail env ?tr ?m] =>
        destruct (Hmail tr m) as [e He]; [|rewrite He; eauto]
    end.
    cbn [mail_subject]. intros Heq. discriminate. }
  destruct (dir_exists w3); cbn [negb]; cbv beta iota zeta;
    match goal with
    | |- context [exec env (sendEmail env (_ ++ ?subject) ?body) ?w4] =>
        destruct (Hsend subject body w4) as (e & w5 & ->)
    end;
    rewrite exec_bind; cbn [exec console_log];
    match goal with
    | |- context [exec env (sendEmail env ?subject ?body) ?w6] =>
        destruct (exec env (sendEmail env subject body) w6) as [[[]|e'] w7]
    end;
    eexists _, _; (split; [reflexivity|]); split;
      (discriminate || reflexivity).
Qed.

(** ** The retry loop and its fuel *)

(** Fuel beyond the attempts that are left changes nothing: the loop of the
    model is the loop of the script. *)
Lemma retry_loop_fuel cfg env apiKeys prompt model fuel : forall a w,
  MAX_RETRIES cfg - a <= fuel ->
  exec env (retry_loop cfg apiKeys fuel a prompt model) w
  = exec env (retry_loop cfg apiKeys (MAX_RETRIES cfg - a) a prompt model) w.
Proof.
  induction fuel as [|fuel IH]; intros a w Hfuel.
  - replace (MAX_RETRIES cfg - a) with 0 by lia. reflexivity.
  - destruct (Nat.ltb_spec a (MAX_RETRIES cfg)) as [Ha|Ha].
    + replace (MAX_RETRIES cfg - a) with (S (MAX_RETRIES cfg - S a)) by lia.
      rewrite !retry_loop_step by exact Ha.
      destruct (attempt_result _) as [text|e]; [reflexivity|].
      cbv zeta. destruct (MAX_RETRIES cfg <=? S a); [reflexivity|].
      apply IH. lia.
    + replace (MAX_RETRIES cfg - a) with 0 by lia.
      cbn [retry_loop]. apply Nat.ltb_ge in Ha. rewrite Ha. reflexivity.
Qed.

(** With an attempt left, the loop returns a text or throws: it never
    returns [undefined]. *)
Lemma retry_loop_defined cfg env apiKeys prompt model fuel : forall a w c w',
  a < MAX_RETRIES cfg -> MAX_RETRIES cfg - a <= fuel ->
  exec env (retry_loop cfg apiKeys fuel a prompt model) w = (c, w') ->
  c <> Normal None.
Proof.
  induction fuel as [|fuel IH]; intros a w c w' Ha Hfuel Hex; [lia|].
  rewrite retry_loop_step in Hex by exact Ha.
  destruct (attempt_result _) as [text|e].
  - injection Hex as <- _. discriminate.
  - cbv zeta in Hex.
    destruct (Nat.leb_spec (MAX_RETRIES cfg) (S a)) as [Hle|Hgt].
    + injection Hex as <- _. discriminate.
    + eapply IH; [| |exact Hex]; lia.
Qed.

(** ** Sample runs of the theorems *)

Lemma getNextGemini_round_robin_sample :
  1 <= length Sample.keys /\ 1 <= 7 /\ keyIndex Sample.start = 0
  /\ exists ais w',
       exec Sample.healthy (rotate Sample.keys 7) Sample.start
       = (Normal ais, w')
       /\ last ais = Some {| apiKey := Some (lit "key-one") |}
       /\ keyIndex w' = 1.
Proof.
  assert (H1 : 1 <= length Sample.keys) by (simpl; lia).
  assert (H7 : 1 <= 7) by lia.
  split; [exact H1|]. split; [exact H7|]. split; [reflexivity|].
  destruct (getNextGemini_round_robin Sample.healthy Sample.keys 7
              Sample.start H1 H7 eq_refl)
    as (ais & w' & Hex & _ & _ & (key & Hkey & Hlast) & Hidx & _).
  exists ais, w'. split; [exact Hex|].
  vm_compute in Hkey. injection Hkey as <-.
  split; [exact Hlast|exact Hidx].
Defined.

Lemma runQueue_each_file_once_sample :
  1 <= CONCURRENCY_LIMIT script_config
  /\ exists outs w',
       runQueue script_config Sample.flaky Sample.keys
         (List.filter is_pending Sample.listing) Sample.start
       = Some (Normal outs, w')
       /\ length outs = 3.
Proof.
  assert (Hc : 1 <= CONCURRENCY_LIMIT script_config) by (simpl; lia).
  split; [exact Hc|].
  destruct (runQueue_each_file_once script_config Sample.flaky Sample.keys
              (List.filter is_pending Sample.listing) Sample.start Hc)
    as (outs & w' & done & Hrun & _ & Hlen & _).
  exists outs, w'. split; [exact Hrun|exact Hlen].
Defined.

Lemma generateSafeFilename_shape_sample :
  exists slug,
    Slug.generateSafeFilename (lit "My  File_v2 (final).txt")
    = slug ++ lit ".mdx"
    /\ slug = lit "my-file_v2-final"
    /\ Forall (fun c => Slug.is_lower_slug c = true) slug.
Proof.
  destruct (generateSafeFilename_shape (lit "My  File_v2 (final).txt"))
    as (slug & Heq & _ & _ & _ & _ & Hlow & _).
  exists slug. split; [exact Heq|]. split.
  - vm_compute in Heq. apply (app_inv_tail (lit ".mdx")).
    symmetry. exact Heq.
  - apply Hlow. vm_compute. repeat (constructor; [reflexivity|]). constructor.
Defined.

(** C5, as stated, fails: the status update is rejected, the outcome is a
    failure, and the file written just before is on disk. *)
Lemma processFile_keeps_file_when_update_fails :
  exists o w',
    exec Sample.put_down
      (processFile script_config Sample.put_down Sample.keys
         (Sample.file "a1" "Intro Notes.txt" "Pending") (lit "model"))
      Sample.start = (Normal o, w')
    /\ success o = false
    /\ error o = Some (lit "502")
    /\ disk Sample.start !! lit "intro-notes.mdx" = None
    /\ disk w' !! lit "intro-notes.mdx" = Some Sample.text
    /\ disk w' <> disk Sample.start.
Proof.
  eexists _, _. split; [vm_compute; reflexivity|].
  split; [reflexivity|]. split; [reflexivity|].
  split; [reflexivity|]. split; [vm_compute; reflexivity|].
  intros Heq. apply (f_equal (fun d => d !! lit "intro-notes.mdx")) in Heq.
  vm_compute in Heq. discriminate.
Qed.

Lemma processFile_failure_recorded_sample :
  1 <= CONCURRENCY_LIMIT script_config
  /\ (exists o w',
        exec Sample.put_down
          (processFile script_config Sample.put_down Sample.keys
             (Sample.file "a1" "Intro Notes.txt" "Pending") (lit "model"))
          Sample.start = (Normal o, w')
        /\ o = {| success := false; name := lit "Intro Notes.txt";
                  error := Some (lit "502") |}
        /\ disk w' !! lit "intro-notes.mdx" = Some Sample.text)
  /\ (exists outs w',
        runQueue script_config Sample.put_down Sample.keys
          (List.filter is_pending Sample.listing) Sample.start
        = Some (Normal outs, w')
        /\ length outs = 3).
Proof.
  assert (Hc : 1 <= CONCURRENCY_LIMIT script_config) by (simpl; lia).
  split; [exact Hc|].
  destruct (processFile_failure_recorded script_config Sample.put_down
              Sample.keys (Sample.file "a1" "Intro Notes.txt" "Pending")
              (lit "model") Sample.start)
    as [(o & w' & Hex & _ & Hsteps) Hqueue].
  split.
  - exists o, w'. split; [exact Hex|].
    set (file := Sample.file "a1" "Intro Notes.txt" "Pending") in *.
    set (w1 := issue (AxiosGet (secureUrl file)) _) in Hsteps.
    destruct (exec Sample.put_down
                (generateWithRetry script_config Sample.keys
                   (promptText_of
                      (VString (lit "Write about " ++ secureUrl file)))
                   (lit "model")) w1) as [c w2] eqn:Hgen.
    assert (Hcontent : c = Normal (Some Sample.text)).
    { change c with (fst (c, w2)). rewrite <- Hgen. vm_compute.
      reflexivity. }
    destruct (Hsteps (VString (lit "Write about " ++ secureUrl file)) c w2
                eq_refl Hgen) as (_ & _ & _ & Hwritten).
    destruct (Hwritten Sample.text Hcontent) as [_ Hput].
    destruct (Hput eq_refl) as (Hdisk & _ & Hrejected & _).
    split.
    + apply (Hrejected (Error (lit "502"))). reflexivity.
    + rewrite Hdisk. vm_compute. reflexivity.
  - destruct (Hqueue (List.filter is_pending Sample.listing) Hc)
      as (outs & w1 & Hrun & Hlen).
    exists outs, w1. split; [exact Hrun|exact Hlen].
Defined.

Lemma main_without_keys_sample :
  (forall key, startsWith (lit "GEMINI_API_KEY") key = true ->
               env_truthy Sample.without_keys key = false)
  /\ exists w',
       main script_config Sample.without_keys Sample.start
       = Some (Uncaught (Error (lit "No GEMINI_API_KEY variables found.")), w')
       /\ trace w' = [].
Proof.
  assert (Hno : forall key, startsWith (lit "GEMINI_API_KEY") key = true ->
                  env_truthy Sample.without_keys key = false).
  { intros key Hkey. unfold env_truthy, getenv. simpl.
    unfold str_eqb. repeat case_bool_decide; subst; try reflexivity.
    vm_compute in Hkey. discriminate. }
  split; [exact Hno|].
  destruct (main_without_keys script_config Sample.without_keys Sample.start
              Hno) as (w' & Hmain & _ & _ & Htrace & _).
  exists w'. split; [exact Hmain|exact Htrace].
Defined.

Lemma run_without_pending_sample :
  axios_get Sample.nothing_pending
    (trace Sample.start ++ [AxiosGet EXTERNAL_API_URL]) EXTERNAL_API_URL
  = Resolved (VFiles Sample.done_listing (lit "[]"))
  /\ take (BATCH_SIZE script_config)
       (List.filter is_pending Sample.done_listing) = []
  /\ exists w',
       run script_config Sample.nothing_pending Sample.keys Sample.start
       = Some (Fulfilled, w')
       /\ trace w' = [AxiosGet EXTERNAL_API_URL]
       /\ disk w' = ∅.
Proof.
  assert (Hget : axios_get Sample.nothing_pending
                   (trace Sample.start ++ [AxiosGet EXTERNAL_API_URL])
                   EXTERNAL_API_URL
                 = Resolved (VFiles Sample.done_listing (lit "[]")))
    by (vm_compute; reflexivity).
  assert (Hnone : take (BATCH_SIZE script_config)
                    (List.filter is_pending Sample.done_listing) = [])
    by (vm_compute; reflexivity).
  split; [exact Hget|]. split; [exact Hnone|].
  destruct (run_without_pending script_config Sample.nothing_pending
              Sample.keys Sample.start Sample.done_listing (lit "[]")
              Hget Hnone)
    as (w' & Hrun & _ & Htrace & _ & _ & _ & Hdisk & _).
  exists w'. split; [exact Hrun|]. split; [exact Htrace|exact Hdisk].
Defined.

(** C6 on a batch whose three files all succeed while the mail server
    refuses connections: the rejection of [sendMail] leaves [sendEmail] and
    [sendBatchEmail], reaches the [catch] of [run], and the second mail,
    sent from there, is rejected too, so the process ends with an unhandled
    rejection; when only the report is refused, [process.exit(1)] is
    reached.  With a working mail server the same batch ends with code 0. *)
Theorem run_mail_failure_changes_exit_code :
  (exists e w',
     main script_config Sample.mail_down Sample.start
     = Some (Unhandled e, w')
     /\ message e = lit "ECONNREFUSED"
     /\ exit_code (Unhandled e) = 1
     /\ length (List.filter is_put (trace w')) = 3)
  /\ (exists w',
        main script_config Sample.mail_down_once Sample.start
        = Some (Exited 1, w')
        /\ length (List.filter is_put (trace w')) = 3)
  /\ (exists w',
        main script_config Sample.healthy Sample.start = Some (Fulfilled, w')
        /\ exit_code Fulfilled = 0).
Proof.
  split; [|split].
  - eexists _, _. split; [vm_compute; reflexivity|].
    repeat split; vm_compute; reflexivity.
  - eexists. split; [vm_compute; reflexivity|]. vm_compute; reflexivity.
  - eexists. split; [vm_compute; reflexivity|]. reflexivity.
Qed.

(** * Further properties *)

(** ** The requests of the retry loop *)

Lemma flat_map_seq_shift {A} (F G : nat -> list A) m :
  (forall i, F i = G (S i)) ->
  forall s, flat_map F (seq s m) = flat_map G (seq (S s) m).
Proof.
  intros HFG. induction m as [|m IH]; intros s; [reflexivity|].
  cbn [seq flat_map]. rewrite HFG, IH. reflexivity.
Qed.

Section RetryRequests.

Variable cfg : Config.
Variable env : Env.
Variable apiKeys : list (list N).
Variables prompt model : list N.

Lemma failed_attempts_shift cursor a m :
  flat_map
    (failed_attempt_requests cfg apiKeys model prompt
       ((cursor + 1) mod length apiKeys) (S a)) (seq 0 m)
  = flat_map (failed_attempt_requests cfg apiKeys model prompt cursor a)
      (seq 1 m).
Proof.
  apply flat_map_seq_shift. intros i.
  unfold failed_attempt_requests, attempt_requests.
  rewrite Nat.Div0.add_mod_idemp_l.
  replace (cursor + 1 + i) with (cursor + S i) by lia.
  replace (S a + i) with (a + S i) by lia. reflexivity.
Qed.

Lemma attempt_requests_shift cursor m :
  attempt_requests cfg apiKeys model prompt
    ((cursor + 1) mod length apiKeys) m
  = attempt_requests cfg apiKeys model prompt cursor (S m).
Proof.
  unfold attempt_requests. rewrite Nat.Div0.add_mod_idemp_l.
  replace (cursor + 1 + m) with (cursor + S m) by lia. reflexivity.
Qed.

Lemma attempt_result_normal s text :
  attempt_result s = Normal text -> s = Resolved (Some text) /\ text <> [].
Proof.
  destruct s as [[[|ch t]|]|e]; simpl; intros Hs; try discriminate.
  injection Hs as <-. split; [reflexivity|discriminate].
Qed.

Lemma trace_after_attempt w :
  keyIndex w < length apiKeys ->
  trace (after_attempt cfg apiKeys model prompt w)
  = trace w ++ attempt_requests cfg apiKeys model prompt (keyIndex w) 0.
Proof.
  intros Hk. unfold after_attempt, attempt_requests. cbn [trace issue set_keyIndex keyIndex].
  rewrite Nat.add_0_r, Nat.mod_small by exact Hk.
  rewrite <- app_assoc. reflexivity.
Qed.

Lemma trace_after_catch a e w :
  trace (after_catch cfg a e w) = trace w ++ [SetTimeout (1000 * S a)]
  /\ keyIndex (after_catch cfg a e w) = keyIndex w.
Proof.
  unfold after_catch. destruct (bool_decide _); split; reflexivity.
Qed.

(** What the loop requests from attempt [a + 1] on: failed attempts, each
    with its backoff, and then either a successful attempt or nothing more
    when the attempts are used up. *)
Lemma retry_loop_requests fuel : forall a w c w',
  a < MAX_RETRIES cfg -> MAX_RETRIES cfg - a <= fuel ->
  keyIndex w < length apiKeys ->
  exec env (retry_loop cfg apiKeys fuel a prompt model) w = (c, w') ->
  (exists text m,
     c = Normal (Some text) /\ text <> [] /\ a + m < MAX_RETRIES cfg
     /\ trace w'
        = trace w
          ++ flat_map (failed_attempt_requests cfg apiKeys model prompt
                         (keyIndex w) a) (seq 0 m)
          ++ attempt_requests cfg apiKeys model prompt (keyIndex w) m
     /\ keyIndex w' = (keyIndex w + S m) mod length apiKeys
     /\ generateContent env (trace w')
          {| apiKey := apiKeys !! ((keyIndex w + m) mod length apiKeys) |}
          model prompt = Resolved (Some text))
  \/ (exists e,
        c = Thrown e
        /\ trace w'
           = trace w
             ++ flat_map (failed_attempt_requests cfg apiKeys model prompt
                            (keyIndex w) a) (seq 0 (MAX_RETRIES cfg - a))
        /\ keyIndex w' = (keyIndex w + (MAX_RETRIES cfg - a)) mod length apiKeys).
Proof.
  induction fuel as [|fuel IH]; intros a w c w' Ha Hfuel Hk Hex; [lia|].
  rewrite retry_loop_step in Hex by exact Ha.
  pose proof (trace_after_attempt w Hk) as Ht1.
  assert (Hk1 : keyIndex (after_attempt cfg apiKeys model prompt w)
                = (keyIndex w + 1) mod length apiKeys) by reflexivity.
  destruct (attempt_result (asked cfg env apiKeys model prompt w))
    as [text|e] eqn:Hres.
  - (* the attempt succeeds *)
    apply attempt_result_normal in Hres as [Hgen Htext].
    injection Hex as <- <-. left. exists text, 0.
    split; [reflexivity|]. split; [exact Htext|]. split; [lia|].
    cbn [seq flat_map app]. split; [exact Ht1|].
    split; [rewrite Hk1; reflexivity|].
    replace ((keyIndex w + 0) mod length apiKeys) with (keyIndex w)
      by (rewrite Nat.add_0_r, Nat.mod_small by exact Hk; reflexivity).
    exact Hgen.
  - cbv zeta in Hex.
    destruct (trace_after_catch a e
                (after_attempt cfg apiKeys model prompt w)) as [Ht2 Hk2].
    set (w2 := after_catch cfg a e _) in *. clearbody w2.
    destruct (Nat.leb_spec (MAX_RETRIES cfg) (S a)) as [Hle|Hgt].
    + (* the last attempt has failed *)
      injection Hex as <- <-. right. eexists. split; [reflexivity|].
      replace (MAX_RETRIES cfg - a) with 1 by lia.
      cbn [seq flat_map]. rewrite app_nil_r.
      unfold failed_attempt_requests. rewrite Nat.add_0_r.
      split; [rewrite Ht2, Ht1, <- app_assoc; reflexivity
             |rewrite Hk2, Hk1; reflexivity].
    + assert (Hk' : keyIndex w2 < length apiKeys)
        by (rewrite Hk2, Hk1; apply Nat.mod_upper_bound; lia).
      destruct (IH (S a) w2 c w' Hgt ltac:(lia) Hk' Hex)
        as [(text' & m & -> & Htext & Hm & Ht & Hki & Hans)
           |(e' & -> & Ht & Hki)];
        rewrite Hk2, Hk1 in Ht, Hki.
      * left. exists text', (S m). rewrite Hk2, Hk1 in Hans.
        split; [reflexivity|]. split; [exact Htext|]. split; [lia|].
        rewrite failed_attempts_shift, attempt_requests_shift in Ht.
        rewrite Nat.Div0.add_mod_idemp_l in Hki, Hans.
        split; [|split].
        -- rewrite Ht, Ht2, Ht1. cbn [seq flat_map].
           unfold failed_attempt_requests at 2. rewrite Nat.add_0_r.
           rewrite <- !app_assoc. reflexivity.
        -- rewrite Hki. f_equal. lia.
        -- replace (keyIndex w + S m) with (keyIndex w + 1 + m) by lia.
           exact Hans.
      * right. exists e'. split; [reflexivity|].
        rewrite failed_attempts_shift in Ht.
        rewrite Nat.Div0.add_mod_idemp_l in Hki.
        replace (MAX_RETRIES cfg - a) with (S (MAX_RETRIES cfg - S a)) by lia.
        split.
        -- rewrite Ht, Ht2, Ht1. cbn [seq flat_map].
           unfold failed_attempt_requests at 2. rewrite Nat.add_0_r.
           rewrite <- !app_assoc. reflexivity.
        -- rewrite Hki. f_equal. lia.
Qed.

Lemma attempt_result_thrown s e :
  attempt_result s = Thrown e -> attempt_error s = Some e.
Proof.
  destruct s as [[[|ch t]|]|e0]; simpl; intros Hs; congruence.
Qed.

Lemma attempt_error_text text :
  text <> [] -> attempt_error (Resolved (Some text)) = None.
Proof. destruct text; [congruence|reflexivity]. Qed.

Lemma attempt_trace_shift tr0 cursor a j :
  attempt_trace cfg apiKeys model prompt
    (tr0 ++ failed_attempt_requests cfg apiKeys model prompt cursor a 0)
    ((cursor + 1) mod length apiKeys) (S a) j
  = attempt_trace cfg apiKeys model prompt tr0 cursor a (S j).
Proof.
  unfold attempt_trace.
  rewrite failed_attempts_shift, attempt_requests_shift.
  cbn [seq flat_map]. rewrite <- !app_assoc. reflexivity.
Qed.

Lemma attempt_settled_shift tr0 cursor a j :
  attempt_settled cfg env apiKeys model prompt
    (tr0 ++ failed_attempt_requests cfg apiKeys model prompt cursor a 0)
    ((cursor + 1) mod length apiKeys) (S a) j
  = attempt_settled cfg env apiKeys model prompt tr0 cursor a (S j).
Proof.
  unfold attempt_settled. rewrite attempt_trace_shift.
  rewrite Nat.Div0.add_mod_idemp_l.
  replace (cursor + 1 + j) with (cursor + S j) by lia. reflexivity.
Qed.

Lemma asked_settled w a :
  keyIndex w < length apiKeys ->
  asked cfg env apiKeys model prompt w
  = attempt_settled cfg env apiKeys model prompt (trace w) (keyIndex w) a 0.
Proof.
  intros Hk. unfold asked, attempt_settled, attempt_trace.
  rewrite (trace_after_attempt w Hk). cbn [seq flat_map app].
  rewrite Nat.add_0_r, Nat.mod_small by exact Hk. reflexivity.
Qed.

Lemma generate_calls_failed_attempts cursor a m : forall s,
  generate_calls
    (flat_map (failed_attempt_requests cfg apiKeys model prompt cursor a)
       (seq s m)) = m.
Proof.
  induction m as [|m IH]; intros s; [reflexivity|].
  cbn [seq flat_map]. rewrite generate_calls_app, IH. reflexivity.
Qed.

Lemma generate_calls_attempt_trace tr0 cursor a j :
  generate_calls (attempt_trace cfg apiKeys model prompt tr0 cursor a j)
  = generate_calls tr0 + j + 1.
Proof.
  unfold attempt_trace.
  rewrite !generate_calls_app, generate_calls_failed_attempts.
  unfold attempt_requests, generate_calls at 2. simpl. lia.
Qed.

(** The run of the loop from attempt [a + 1] on, told by what its own calls
    settle to: it returns the answer of the first attempt that does not
    fail, or throws the error of the last attempt when all fail. *)
Lemma retry_loop_run fuel : forall a w c w',
  a < MAX_RETRIES cfg -> MAX_RETRIES cfg - a <= fuel ->
  keyIndex w < length apiKeys ->
  exec env (retry_loop cfg apiKeys fuel a prompt model) w = (c, w') ->
  let reached :=
    attempt_trace cfg apiKeys model prompt (trace w) (keyIndex w) a in
  let settled :=
    attempt_settled cfg env apiKeys model prompt (trace w) (keyIndex w) a in
  (exists text m,
     c = Normal (Some text) /\ text <> [] /\ a + m < MAX_RETRIES cfg
     /\ (forall j, j < m -> attempt_error (settled j) <> None)
     /\ settled m = Resolved (Some text)
     /\ trace w' = reached m)
  \/ (exists e,
        c = Thrown e
        /\ (forall j, j < MAX_RETRIES cfg - a ->
              attempt_error (settled j) <> None)
        /\ attempt_error (settled (MAX_RETRIES cfg - S a)) = Some e
        /\ trace w'
           = reached (MAX_RETRIES cfg - S a)
             ++ [SetTimeout (1000 * MAX_RETRIES cfg)]).
Proof.
  induction fuel as [|fuel IH]; intros a w c w' Ha Hfuel Hk Hex; [lia|].
  cbv zeta. rewrite retry_loop_step in Hex by exact Ha.
  pose proof (trace_after_attempt w Hk) as Ht1.
  pose proof (asked_settled w a Hk) as Hask.
  assert (Hk1 : keyIndex (after_attempt cfg apiKeys model prompt w)
                = (keyIndex w + 1) mod length apiKeys) by reflexivity.
  destruct (attempt_result (asked cfg env apiKeys model prompt w))
    as [text|e] eqn:Hres.
  - apply attempt_result_normal in Hres as [Hgen Htext].
    injection Hex as <- <-. left. exists text, 0.
    split; [reflexivity|]. split; [exact Htext|]. split; [lia|].
    split; [intros j Hj; lia|]. split; [rewrite <- Hask; exact Hgen|].
    rewrite Ht1. unfold attempt_trace. reflexivity.
  - apply attempt_result_thrown in Hres. rewrite Hask in Hres.
    cbv zeta in Hex.
    destruct (trace_after_catch a e
                (after_attempt cfg apiKeys model prompt w)) as [Ht2 Hk2].
    set (w2 := after_catch cfg a e _) in *. clearbody w2.
    assert (Htr2 : trace w2
                   = trace w
                     ++ failed_attempt_requests cfg apiKeys model prompt
                          (keyIndex w) a 0).
    { rewrite Ht2, Ht1. unfold failed_attempt_requests.
      rewrite Nat.add_0_r, <- app_assoc. reflexivity. }
    destruct (Nat.leb_spec (MAX_RETRIES cfg) (S a)) as [Hle|Hgt].
    + injection Hex as <- <-. right. exists e. split; [reflexivity|].
      replace (MAX_RETRIES cfg - S a) with 0 by lia.
      split; [|split; [exact Hres|]].
      * intros j Hj. replace j with 0 by lia. rewrite Hres. discriminate.
      * rewrite Ht2, Ht1. unfold attempt_trace. cbn [seq flat_map app].
        replace (MAX_RETRIES cfg) with (S a) by lia.
        rewrite <- app_assoc. reflexivity.
    + assert (Hk' : keyIndex w2 < length apiKeys)
        by (rewrite Hk2, Hk1; apply Nat.mod_upper_bound; lia).
      destruct (IH (S a) w2 c w' Hgt ltac:(lia) Hk' Hex)
        as [(text' & m & -> & Htext & Hm & Hfail & Hok & Ht)
           |(e' & -> & Hfail & Hlast & Ht)];
        rewrite Htr2, Hk2, Hk1 in *.
      * left. exists text', (S m).
        split; [reflexivity|]. split; [exact Htext|]. split; [lia|].
        rewrite attempt_settled_shift in Hok.
        rewrite attempt_trace_shift in Ht.
        split; [|split; [exact Hok|exact Ht]].
        intros [|j] Hj; [rewrite Hres; discriminate|].
        rewrite <- attempt_settled_shift. apply Hfail. lia.
      * right. exists e'. split; [reflexivity|].
        rewrite attempt_settled_shift in Hlast.
        rewrite attempt_trace_shift in Ht.
        replace (S (MAX_RETRIES cfg - S (S a))) with (MAX_RETRIES cfg - S a)
          in Hlast, Ht by lia.
        split; [|split; [exact Hlast|exact Ht]].
        intros [|j] Hj; [rewrite Hres; discriminate|].
        rewrite <- attempt_settled_shift. apply Hfail. lia.
Qed.

End RetryRequests.

(** C1.  [generateWithRetry] makes at most [MAX_RETRIES] upstream calls.
    Started with the cursor on a key, attempt number [j + 1] calls the
    upstream with the key the rotation has reached, after the requests of
    the [j] attempts that failed before it; this is call number [j + 1] of
    the run.  An attempt fails when its call is rejected or resolves with no
    or an empty text.  If the first [m < MAX_RETRIES] attempts fail and
    attempt [m + 1] gets a non-empty text, that text is returned after
    exactly [m + 1] calls.  If all [MAX_RETRIES] attempts fail, the error of
    the last attempt is thrown after exactly [MAX_RETRIES] calls, once the
    last backoff has been paid. *)
Theorem generateWithRetry_attempts (cfg : Config) (env : Env)
  (apiKeys : list (list N)) (prompt model : list N) (w : World) :
  1 <= MAX_RETRIES cfg ->
  let reached :=
    attempt_trace cfg apiKeys model prompt (trace w) (keyIndex w) 0 in
  let settled :=
    attempt_settled cfg env apiKeys model prompt (trace w) (keyIndex w) 0 in
  let fails := fun j => attempt_error (settled j) <> None in
  exists c w',
    exec env (generateWithRetry cfg apiKeys prompt model) w = (c, w')
    /\ generate_calls (trace w) <= generate_calls (trace w')
    /\ generate_calls (trace w') <= generate_calls (trace w) + MAX_RETRIES cfg
    /\ (forall j,
          generate_calls (reached j) = generate_calls (trace w) + j + 1)
    /\ (keyIndex w < length apiKeys ->
        (forall m text,
           m < MAX_RETRIES cfg -> text <> [] ->
           (forall j, j < m -> fails j) ->
           settled m = Resolved (Some text) ->
           c = Normal (Some text)
           /\ generate_calls (trace w') = generate_calls (trace w) + m + 1
           /\ trace w' = reached m)
        /\ ((forall j, j < MAX_RETRIES cfg -> fails j) ->
            exists e,
              attempt_error (settled (MAX_RETRIES cfg - 1)) = Some e
              /\ c = Thrown e
              /\ generate_calls (trace w')
                 = generate_calls (trace w) + MAX_RETRIES cfg
              /\ trace w'
                 = reached (MAX_RETRIES cfg - 1)
                   ++ [SetTimeout (1000 * MAX_RETRIES cfg)])).
Proof.
  intros Hmax reached settled fails. unfold generateWithRetry.
  destruct (exec env (retry_loop cfg apiKeys (MAX_RETRIES cfg) 0 prompt model) w)
    as [c w'] eqn:Hex.
  exists c, w'. split; [reflexivity|].
  pose proof (retry_loop_calls cfg env apiKeys prompt model _ _ _ _ _ Hex)
    as [Hlo Hhi].
  split; [exact Hlo|]. split; [lia|].
  split; [intros j; apply generate_calls_attempt_trace|].
  intros Hk.
  pose proof (retry_loop_run cfg env apiKeys prompt model (MAX_RETRIES cfg)
                0 w c w' Hmax ltac:(lia) Hk Hex) as Hrun.
  cbv zeta in Hrun. fold reached settled in Hrun.
  replace (MAX_RETRIES cfg - 0) with (MAX_RETRIES cfg) in Hrun by lia.
  split.
  - intros m text Hm Htext Hfail Hok.
    destruct Hrun as [(text' & m' & -> & Htext' & Hm' & Hfail' & Hok' & Ht)
                     |(e & -> & Hfail' & _)].
    + destruct (Nat.lt_trichotomy m' m) as [Hlt|[->|Hgt]].
      * exfalso. apply (Hfail m' Hlt). rewrite Hok'.
        apply attempt_error_text, Htext'.
      * rewrite Hok in Hok'. injection Hok' as <-.
        split; [reflexivity|]. split; [|exact Ht].
        rewrite Ht. unfold reached. apply generate_calls_attempt_trace.
      * exfalso. apply (Hfail' m Hgt). rewrite Hok.
        apply attempt_error_text, Htext.
    + exfalso. apply (Hfail' m Hm). rewrite Hok.
      apply attempt_error_text, Htext.
  - intros Hfail.
    destruct Hrun as [(text' & m' & -> & Htext' & Hm' & _ & Hok' & _)
                     |(e & -> & _ & Hlast & Ht)].
    + exfalso. apply (Hfail m'); [lia|]. rewrite Hok'.
      apply attempt_error_text, Htext'.
    + exists e. split; [exact Hlast|]. split; [reflexivity|].
      split; [|exact Ht].
      rewrite Ht, generate_calls_app. unfold reached.
      rewrite generate_calls_attempt_trace.
      unfold generate_calls at 2. simpl. lia.
Qed.

Lemma generateWithRetry_attempts_sample :
  1 <= MAX_RETRIES script_config
  /\ keyIndex Sample.start < length Sample.keys
  /\ attempt_settled script_config FailureSample.by_key Sample.keys
       (lit "model") (lit "prompt") [] 0 0 0
     = Rejected (Error (lit "429"))
  /\ attempt_settled script_config FailureSample.by_key Sample.keys
       (lit "model") (lit "prompt") [] 0 0 1
     = Resolved (Some Sample.text)
  /\ exists w',
       exec FailureSample.by_key
         (generateWithRetry script_config Sample.keys (lit "prompt")
            (lit "model")) Sample.start
       = (Normal (Some Sample.text), w')
       /\ generate_calls (trace w') = 2.
Proof.
  assert (Hmax : 1 <= MAX_RETRIES script_config) by (simpl; lia).
  assert (Hk : keyIndex Sample.start < length Sample.keys) by (simpl; lia).
  split; [exact Hmax|]. split; [exact Hk|].
  split; [vm_compute; reflexivity|]. split; [vm_compute; reflexivity|].
  destruct (generateWithRetry_attempts script_config FailureSample.by_key
              Sample.keys (lit "prompt") (lit "model") Sample.start Hmax)
    as (c & w' & Hex & _ & _ & _ & Hcases).
  destruct (Hcases Hk) as [Hok _].
  destruct (Hok 1 Sample.text) as (Hc & Hcalls & _).
  - simpl. lia.
  - discriminate.
  - intros j Hj. replace j with 0 by lia. vm_compute. discriminate.
  - vm_compute. reflexivity.
  - exists w'. rewrite Hc in Hex. split; [exact Hex|exact Hcalls].
Defined.


(** The requests of [generateWithRetry], in the order they are issued.
    Started with the cursor on a key and after [m] failed attempts, a
    successful call returns the non-empty text the upstream resolved with:
    every attempt asks for the delay and then calls the upstream with the
    next key of the rotation, every failed attempt is followed by a backoff
    of [1000 * attempt] ms.  When [MAX_RETRIES] attempts fail the error is
    thrown after the backoff of the last one.  The cursor has moved once
    per attempt; [undefined] is never returned. *)
Theorem generateWithRetry_requests (cfg : Config) (env : Env)
  (apiKeys : list (list N)) (prompt model : list N) (w : World)
  (c : Completion (option (list N))) (w' : World) :
  1 <= MAX_RETRIES cfg ->
  keyIndex w < length apiKeys ->
  exec env (generateWithRetry cfg apiKeys prompt model) w = (c, w') ->
  (exists text m,
     c = Normal (Some text) /\ text <> [] /\ m < MAX_RETRIES cfg
     /\ trace w'
        = trace w
          ++ flat_map (failed_attempt_requests cfg apiKeys model prompt
                         (keyIndex w) 0) (seq 0 m)
          ++ attempt_requests cfg apiKeys model prompt (keyIndex w) m
     /\ keyIndex w' = (keyIndex w + S m) mod length apiKeys
     /\ generateContent env (trace w')
          {| apiKey := apiKeys !! ((keyIndex w + m) mod length apiKeys) |}
          model prompt = Resolved (Some text))
  \/ (exists e,
        c = Thrown e
        /\ trace w'
           = trace w
             ++ flat_map (failed_attempt_requests cfg apiKeys model prompt
                            (keyIndex w) 0) (seq 0 (MAX_RETRIES cfg))
        /\ keyIndex w' = (keyIndex w + MAX_RETRIES cfg) mod length apiKeys).
Proof.
  intros Hmax Hk Hex. unfold generateWithRetry in Hex.
  destruct (retry_loop_requests cfg env apiKeys prompt model
              (MAX_RETRIES cfg) 0 w c w' Hmax ltac:(lia) Hk Hex)
    as [(text & m & Hc & Htext & Hm & Ht & Hki & Hans)|(e & Hc & Ht & Hki)].
  - left. exists text, m. repeat split; try assumption.
  - right. exists e. rewrite Nat.sub_0_r in Ht, Hki.
    repeat split; assumption.
Qed.

(** ** Counting requests *)

Lemma count_requests_app P tr1 tr2 :
  count_requests P (tr1 ++ tr2) = count_requests P tr1 + count_requests P tr2.
Proof. unfold count_requests. rewrite List.filter_app, length_app. reflexivity. Qed.

Lemma issues_mono {A} P (p : Prog A) : forall n n',
  n <= n' -> issues P p n -> issues P p n'.
Proof.
  induction p as [a|e|C f k IH|r k IH]; intros n n' Hn; simpl; auto.
  - intros [Hf Hk]. split; [exact Hf|]. intros b. eapply IH; eauto.
  - destruct (P r).
    + destruct n as [|m]; [tauto|]. destruct n' as [|m']; [lia|].
      intros Hk s. eapply (IH s m m'); [lia|apply Hk].
    + intros Hk s. eapply IH; eauto.
Qed.

Lemma issues_bind {A B} P (p : Prog A) (k : A -> Prog B) : forall n m,
  issues P p n -> (forall a, issues P (k a) m) -> issues P (bind p k) (n + m).
Proof.
  induction p as [a|e|C f k' IH|r k' IH]; intros n m Hp Hk; simpl in *.
  - eapply issues_mono; [|apply Hk]. lia.
  - exact I.
  - destruct Hp as [Hf Hk']. split; [exact Hf|]. intros b. apply IH; auto.
  - destruct (P r).
    + destruct n as [|n]; [destruct Hp|]. simpl. intros s. apply IH; auto.
    + intros s. apply IH; auto.
Qed.

Lemma issues_try_catch {A} P (p : Prog A) (h : JsError -> Prog A) :
  forall n m,
  issues P p n -> (forall e, issues P (h e) m) ->
  issues P (try_catch p h) (n + m).
Proof.
  induction p as [a|e|C f k' IH|r k' IH]; intros n m Hp Hh; simpl in *.
  - exact I.
  - eapply issues_mono; [|apply Hh]. lia.
  - destruct Hp as [Hf Hk']. split; [exact Hf|]. intros b. apply IH; auto.
  - destruct (P r).
    + destruct n as [|n]; [destruct Hp|]. simpl. intros s. apply IH; auto.
    + intros s. apply IH; auto.
Qed.

Lemma issues_await P r n :
  (P r = true -> 1 <= n) -> issues P (await r) n.
Proof.
  intros Hn. simpl. destruct (P r).
  - destruct n as [|m]; [specialize (Hn eq_refl); lia|].
    intros [a|e]; exact I.
  - intros [a|e]; exact I.
Qed.

Lemma issues_console_log P line n : issues P (console_log line) n.
Proof. simpl. auto. Qed.

(** Run alone, a program adds at most its budget to the count. *)
Lemma exec_issues env {A} P (p : Prog A) : forall n w c w',
  issues P p n -> exec env p w = (c, w') ->
  count_requests P (trace w) <= count_requests P (trace w')
  /\ count_requests P (trace w') <= count_requests P (trace w) + n.
Proof.
  induction p as [a|e|C f k IH|r k IH]; intros n w c w' Hp Hex;
    simpl in Hex, Hp.
  - injection Hex as _ <-. lia.
  - injection Hex as _ <-. lia.
  - destruct Hp as [Hf Hk]. specialize (Hf w). destruct (f w) as [b w1].
    simpl in Hf. rewrite <- Hf. eapply IH; [apply Hk|exact Hex].
  - assert (Ht : count_requests P (trace (issue r w))
                 = count_requests P (trace w) + (if P r then 1 else 0)).
    { simpl. rewrite count_requests_app. unfold count_requests at 2. simpl.
      destruct (P r); reflexivity. }
    destruct (P r).
    + destruct n as [|m]; [destruct Hp|].
      destruct (IH _ m _ _ _ (Hp _) Hex). lia.
    + destruct (IH _ n _ _ _ (Hp _) Hex). lia.
Qed.

Lemma advance_issues {A} P (p : Prog A) : forall n w,
  issues P p n ->
  exists m,
    count_requests P (trace (snd (advance p w))) + m
      <= count_requests P (trace w) + n
    /\ count_requests P (trace w)
       <= count_requests P (trace (snd (advance p w)))
    /\ resumes_issuing P (fst (advance p w)) m.
Proof.
  induction p as [a|e|C f k IH|r k IH]; intros n w Hp; simpl in *.
  - exists 0. repeat split; lia.
  - exists 0. repeat split; lia.
  - destruct Hp as [Hf Hk]. specialize (Hf w). destruct (f w) as [b w1].
    simpl in Hf. rewrite <- Hf. apply IH, Hk.
  - assert (Ht : count_requests P (trace w ++ [r])
                 = count_requests P (trace w) + (if P r then 1 else 0)).
    { rewrite count_requests_app. unfold count_requests at 2. simpl.
      destruct (P r); reflexivity. }
    rewrite Ht. destruct (P r).
    + destruct n as [|m]; [destruct Hp|]. exists m.
      split; [lia|]. split; [lia|exact Hp].
    + exists n. split; [lia|]. split; [lia|exact Hp].
Qed.

Section Budget.

Context `{Slug.StringLib}.
Variable cfg : Config.
Variable env : Env.
Variable apiKeys : list (list N).
Variable model : list N.
Variable P : Request -> bool.

Hypothesis timeouts_apart : forall ms, P (SetTimeout ms) = false.

Lemma issues_sleep ms n : issues P (sleep ms) n.
Proof. apply issues_await. rewrite timeouts_apart. discriminate. Qed.

Lemma issues_getNextGemini n : issues P (getNextGemini apiKeys) n.
Proof. simpl. auto. Qed.

(** One file costs at most [gget] for its fetch, [ggen] per attempt and
    [gput] for its status update. *)
Variables gget ggen gput : nat.
Hypothesis fetch_cost : forall url, P (AxiosGet url) = true -> 1 <= gget.
Hypothesis generate_cost :
  forall ai m c, P (GenerateContent ai m c) = true -> 1 <= ggen.
Hypothesis put_cost : forall url body, P (AxiosPut url body) = true -> 1 <= gput.

Lemma issues_retry_loop prompt fuel : forall a,
  issues P (retry_loop cfg apiKeys fuel a prompt model)
    ((MAX_RETRIES cfg - a) * ggen).
Proof.
  induction fuel as [|fuel IH]; intros a; [exact I|].
  cbn [retry_loop].
  destruct (Nat.ltb_spec a (MAX_RETRIES cfg)) as [Ha|Ha]; [|exact I].
  replace ((MAX_RETRIES cfg - a) * ggen)
    with ((0 + (0 + (ggen + 0)) + 0)
          + (0 + (0 + (0 + (MAX_RETRIES cfg - S a) * ggen)))).
  2: { replace (MAX_RETRIES cfg - a) with (S (MAX_RETRIES cfg - S a)) by lia.
       simpl. lia. }
  apply issues_try_catch.
  - apply issues_bind; [|intros; exact I].
    unfold attempt. apply issues_bind; [apply issues_getNextGemini|].
    intros ai. apply issues_bind; [apply issues_sleep|]. intros _.
    apply issues_bind; [apply issues_await, generate_cost|].
    intros [[|ch t]|]; exact I.
  - intros e. apply issues_bind; [apply issues_console_log|]. intros _.
    apply issues_bind.
    { destruct (bool_decide _); [apply issues_console_log|exact I]. }
    intros _. apply issues_bind; [apply issues_sleep|]. intros _.
    destruct (MAX_RETRIES cfg <=? S a); [exact I|apply IH].
Qed.

Lemma issues_processFile file :
  issues P (processFile cfg env apiKeys file model)
    (gget + MAX_RETRIES cfg * ggen + gput).
Proof.
  unfold processFile.
  replace (gget + MAX_RETRIES cfg * ggen + gput)
    with (0 + ((gget + ((MAX_RETRIES cfg - 0) * ggen
                        + (0 + (0 + (gput + (0 + 0)))))) + (0 + 0))).
  2: { rewrite Nat.sub_0_r. lia. }
  apply issues_bind; [apply issues_console_log|]. intros _.
  apply issues_try_catch.
  - apply issues_bind; [apply issues_await, fetch_cost|]. intros v.
    apply issues_bind; [apply issues_retry_loop|]. intros content.
    apply issues_bind.
    { destruct content as [content|]; simpl; [|exact I].
      split; [|intros [e|]; exact I].
      intros w0. destruct (writeFileSync_error env _ _ _);
        [apply after_failed_write_trace|reflexivity]. }
    intros _. apply issues_bind; [simpl; auto|]. intros t.
    apply issues_bind; [apply issues_await, put_cost|]. intros _.
    apply issues_bind; [apply issues_console_log|]. intros _. exact I.
  - intros e. apply issues_bind; [apply issues_console_log|].
    intros _. exact I.
Qed.

Abbreviation G := (gget + MAX_RETRIES cfg * ggen + gput).

Lemma worker_from_budget pending : forall s idx rs w m o idx' rs' w',
  resumes_issuing P s m ->
  worker_from cfg env apiKeys model s pending idx rs w
    = (Normal (o, idx', rs'), w') ->
  idx <= idx' /\ idx' <= idx + length pending
  /\ count_requests P (trace w) <= count_requests P (trace w')
  /\ exists m',
       count_requests P (trace w') + m'
         <= count_requests P (trace w) + m + (idx' - idx) * G
       /\ match o with
          | Some wk => forall s', issues P (cont wk s') m'
          | None => m' = 0
          end.
Proof.
  induction pending as [|file pending IH];
    intros s idx rs w m o idx' rs' w' Hs Hex;
    (destruct s as [[result|e]|r k]; cbn [worker_from] in Hex;
     [| discriminate |]).
  - injection Hex as <- <- <- <-. repeat split; try lia.
    exists 0. split; [lia|reflexivity].
  - injection Hex as <- <- <- <-. repeat split; try lia.
    exists m. split; [lia|exact Hs].
  - destruct (advance_issues P _ G w (issues_processFile file))
      as (m1 & Hc1 & Hg1 & Hs1).
    destruct (advance (processFile cfg env apiKeys file model) w)
      as [s1 w1]. cbn [fst snd] in Hc1, Hg1, Hs1.
    destruct (IH _ _ _ _ _ _ _ _ _ Hs1 Hex)
      as (Hle & Hhi & Hg & m' & Hc & Ho).
    cbn [length]. repeat split; try lia.
    exists m'. split; [|exact Ho].
    replace (idx' - idx) with (S (idx' - S idx)) by lia.
    rewrite Nat.mul_succ_l. lia.
  - injection Hex as <- <- <- <-. repeat split; try lia.
    exists m. split; [lia|exact Hs].
Qed.

Lemma worker_budget files idx rs w o idx' rs' w' :
  worker cfg env apiKeys model files idx rs w = (Normal (o, idx', rs'), w') ->
  idx <= idx' /\ idx' <= idx + length (drop idx files)
  /\ count_requests P (trace w) <= count_requests P (trace w')
  /\ exists m',
       count_requests P (trace w') + m'
         <= count_requests P (trace w) + (idx' - idx) * G
       /\ match o with
          | Some wk => forall s', issues P (cont wk s') m'
          | None => m' = 0
          end.
Proof.
  unfold worker. destruct (drop idx files) as [|file pending].
  - intros Hex. injection Hex as <- <- <- <-. repeat split; try lia.
    exists 0. split; [lia|reflexivity].
  - intros Hex.
    destruct (advance_issues P _ G w (issues_processFile file))
      as (m1 & Hc1 & Hg1 & Hs1).
    destruct (advance (processFile cfg env apiKeys file model) w)
      as [s1 w1]. cbn [fst snd] in Hc1, Hg1, Hs1.
    destruct (worker_from_budget _ _ _ _ _ _ _ _ _ _ Hs1 Hex)
      as (Hle & Hhi & Hg & m' & Hc & Ho).
    cbn [length]. repeat split; try lia.
    exists m'. split; [|exact Ho].
    replace (idx' - idx) with (S (idx' - S idx)) by lia.
    rewrite Nat.mul_succ_l. lia.
Qed.

Lemma sum_list_insert (l : list nat) j x y :
  l !! j = Some x -> sum_list (<[j:=y]> l) + x = sum_list l + y.
Proof.
  intros Hj. pose proof (lookup_lt_Some _ _ _ Hj) as Hlt.
  rewrite insert_take_drop by exact Hlt.
  rewrite <- (take_drop_middle _ _ _ Hj) at 3.
  rewrite !sum_list_with_app. simpl. lia.
Qed.

Lemma sum_list_delete (l : list nat) j x :
  l !! j = Some x -> sum_list (delete j l) + x = sum_list l.
Proof.
  intros Hj. rewrite delete_take_drop.
  rewrite <- (take_drop_middle _ _ _ Hj) at 3.
  rewrite !sum_list_with_app. simpl. lia.
Qed.

Lemma budgeted_step files base limit (q : Queue) w idx' rs' ws' w'
  (budgets budgets' : list nat) :
  Forall2 (fun wk m => forall s, issues P (cont wk s) m) ws' budgets' ->
  index q <= idx' -> idx' <= length files ->
  base <= count_requests P (trace w') ->
  count_requests P (trace w') + sum_list budgets'
    <= count_requests P (trace w) + sum_list budgets + (idx' - index q) * G ->
  count_requests P (trace w) + sum_list budgets
    + (length files - index q) * G <= limit ->
  budgeted P G files base limit
    {| index := idx'; results := rs'; workers := ws' |} w'.
Proof.
  intros Hws Hle Hhi Hbase Hstep Hlim. exists budgets'.
  cbn [index workers]. split; [exact Hws|]. split; [exact Hbase|].
  split; [|exact Hhi].
  assert ((length files - index q) * G
          = (length files - idx') * G + (idx' - index q) * G) as Hm.
  { rewrite <- Nat.mul_add_distr_r. f_equal. lia. }
  lia.
Qed.

Lemma start_workers_budget files base limit n : forall q w q' w',
  budgeted P G files base limit q w ->
  start_workers cfg env apiKeys model files n q w = (Normal q', w') ->
  budgeted P G files base limit q' w'.
Proof.
  induction n as [|n IH]; intros q w q' w' Hinv Hst.
  - simpl in Hst. injection Hst as <- <-. exact Hinv.
  - cbn [start_workers] in Hst.
    destruct (worker cfg env apiKeys model files (index q) (results q) w)
      as [[[[o i] rs]|e] w1] eqn:Hwk; [|discriminate].
    apply worker_budget in Hwk as (Hle & Hhi & Hg & m' & Hc & Ho).
    destruct Hinv as (budgets & Hws & Hbase & Hlim & Hidx).
    rewrite length_drop in Hhi.
    refine (IH _ _ _ _ _ Hst).
    destruct o as [wk|].
    + apply (budgeted_step files base limit q w i rs _ w1 budgets
               (budgets ++ [m'])); try lia.
      * cbn [add_worker]. apply Forall2_app; [exact Hws|].
        constructor; [exact Ho|constructor].
      * rewrite sum_list_with_app. simpl. lia.
    + subst m'.
      apply (budgeted_step files base limit q w i rs _ w1 budgets budgets);
        try lia. exact Hws.
Qed.

Lemma pool_loop_budget files base limit fuel : forall q w outs w',
  budgeted P G files base limit q w ->
  pool_loop cfg env apiKeys fuel model files q w = Some (Normal outs, w') ->
  base <= count_requests P (trace w')
  /\ count_requests P (trace w') <= limit.
Proof.
  induction fuel as [|fuel IH]; intros q w outs w' Hinv Hrun;
    cbn [pool_loop] in Hrun;
    destruct (workers q) as [|wk0 ws] eqn:Hq.
  1, 3: injection Hrun as <- <-;
    destruct Hinv as (budgets & _ & Hbase & Hlim & _).
  1, 2: revert Hlim; generalize ((length files - index q) * G); lia.
  - discriminate.
  - rewrite <- Hq in Hrun.
    set (j := schedule env (trace w) mod length (workers q)) in *.
    assert (Hj : j < length (workers q)).
    { apply Nat.mod_upper_bound. rewrite Hq. discriminate. }
    destruct (lookup_lt_is_Some_2 _ _ Hj) as [wk Hwk].
    rewrite (nth_lookup_Some _ _ wk0 _ Hwk) in Hrun.
    destruct Hinv as (budgets & Hws & Hbase & Hlim & Hidx).
    destruct (Forall2_lookup_l _ _ _ _ _ Hws Hwk) as (mj & Hmj & Hfree).
    destruct (advance_issues P _ mj w
                (Hfree (answer env (trace w) (req wk))))
      as (m1 & Hc1 & Hg1 & Hs1).
    destruct (advance (cont wk (answer env (trace w) (req wk))) w)
      as [s w1]. cbn [fst snd] in Hc1, Hg1, Hs1.
    destruct (worker_from cfg env apiKeys model s (drop (index q) files)
                (index q) (results q) w1)
      as [[[[o i] rs]|e] w2] eqn:Hwf; [|discriminate].
    apply worker_from_budget with (m := m1) in Hwf
      as (Hle & Hhi & Hg & m' & Hc & Ho); [|exact Hs1].
    rewrite length_drop in Hhi.
    refine (IH _ _ _ _ _ Hrun).
    destruct o as [wk'|].
    + pose proof (sum_list_insert budgets j mj m' Hmj) as Hsum.
      apply (budgeted_step files base limit q w i rs _ w2 budgets
               (<[j:=m']> budgets)); try lia.
      apply Forall2_insert; assumption.
    + subst m'. pose proof (sum_list_delete budgets j mj Hmj) as Hsum.
      apply (budgeted_step files base limit q w i rs _ w2 budgets
               (delete j budgets)); try lia.
      apply Forall2_delete; assumption.
Qed.

(** The count for a whole call of the queue. *)
Lemma runQueue_budget files fuel w outs w' :
  model = model_name env ->
  runQueue_fuel cfg env apiKeys fuel files w = Some (Normal outs, w') ->
  count_requests P (trace w) <= count_requests P (trace w')
  /\ count_requests P (trace w')
     <= count_requests P (trace w) + length files * G.
Proof.
  intros Hmodel Hrun. unfold runQueue_fuel in Hrun. rewrite <- Hmodel in Hrun.
  destruct (start_workers _ _ _ _ _ _ _ _) as [[q|e] w1] eqn:Hst;
    [|discriminate].
  eapply pool_loop_budget; [|exact Hrun].
  eapply start_workers_budget; [|exact Hst].
  exists []. cbn [index workers sum_list sum_list_with].
  split; [constructor|]. split; [lia|]. split; lia.
Qed.

End Budget.


(** What a call of [runQueue] asks of the outside, however the workers
    interleave: at most [MAX_RETRIES] generation calls and one status update
    per file, and no mail.  The call returns. *)
Theorem runQueue_request_bounds `{Slug.StringLib} (cfg : Config) (env : Env)
  (apiKeys : list (list N)) (files : list File) (w : World) :
  1 <= CONCURRENCY_LIMIT cfg ->
  exists outs w',
    runQueue cfg env apiKeys files w = Some (Normal outs, w')
    /\ generate_calls (trace w)
       <= generate_calls (trace w')
       <= generate_calls (trace w) + length files * MAX_RETRIES cfg
    /\ count_requests is_put (trace w)
       <= count_requests is_put (trace w')
       <= count_requests is_put (trace w) + length files
    /\ count_requests is_mail (trace w') = count_requests is_mail (trace w).
Proof.
  intros Hc.
  destruct (runQueue_fuel_spec cfg env apiKeys (model_name env) files
              (length files * awaits_per_file cfg) w Hc (le_n _) eq_refl)
    as (outs & w' & done & Hrun & _ & _).
  exists outs, w'. split; [exact Hrun|].
  assert (Hgen :
    count_requests is_generate (trace w)
      <= count_requests is_generate (trace w')
    /\ count_requests is_generate (trace w')
       <= count_requests is_generate (trace w)
          + length files * (0 + MAX_RETRIES cfg * 1 + 0)).
  { apply (runQueue_budget cfg env apiKeys (model_name env) is_generate)
      with (fuel := length files * awaits_per_file cfg) (outs := outs);
      try reflexivity; try exact Hrun; try discriminate; intros; lia. }
  assert (Hput :
    count_requests is_put (trace w) <= count_requests is_put (trace w')
    /\ count_requests is_put (trace w')
       <= count_requests is_put (trace w)
          + length files * (0 + MAX_RETRIES cfg * 0 + 1)).
  { apply (runQueue_budget cfg env apiKeys (model_name env) is_put)
      with (fuel := length files * awaits_per_file cfg) (outs := outs);
      try reflexivity; try exact Hrun; try discriminate; intros; lia. }
  assert (Hmail :
    count_requests is_mail (trace w) <= count_requests is_mail (trace w')
    /\ count_requests is_mail (trace w')
       <= count_requests is_mail (trace w)
          + length files * (0 + MAX_RETRIES cfg * 0 + 0)).
  { apply (runQueue_budget cfg env apiKeys (model_name env) is_mail)
      with (fuel := length files * awaits_per_file cfg) (outs := outs);
      try reflexivity; try exact Hrun; try discriminate; intros; lia. }
  replace (0 + MAX_RETRIES cfg * 1 + 0) with (MAX_RETRIES cfg) in Hgen by lia.
  replace (0 + MAX_RETRIES cfg * 0 + 1) with 1 in Hput by lia.
  replace (0 + MAX_RETRIES cfg * 0 + 0) with 0 in Hmail by lia.
  rewrite Nat.mul_1_r in Hput. rewrite Nat.mul_0_r, Nat.add_0_r in Hmail.
  unfold generate_calls. fold (count_requests is_generate (trace w)).
  fold (count_requests is_generate (trace w')).
  split; [exact Hgen|]. split; [exact Hput|]. lia.
Qed.

(** ** Sample runs of the further properties *)

Lemma generateWithRetry_requests_sample :
  1 <= MAX_RETRIES script_config
  /\ keyIndex Sample.start < length Sample.keys
  /\ exists w' m,
       exec Sample.flaky
         (generateWithRetry script_config Sample.keys (lit "prompt")
            (lit "model")) Sample.start
       = (Normal (Some Sample.text), w')
       /\ m < MAX_RETRIES script_config
       /\ keyIndex w' = (keyIndex Sample.start + S m) mod length Sample.keys.
Proof.
  assert (Hmax : 1 <= MAX_RETRIES script_config) by (simpl; lia).
  assert (Hk : keyIndex Sample.start < length Sample.keys) by (simpl; lia).
  split; [exact Hmax|]. split; [exact Hk|].
  destruct (exec Sample.flaky
              (generateWithRetry script_config Sample.keys (lit "prompt")
                 (lit "model")) Sample.start) as [c w'] eqn:Hex.
  assert (Hc : c = Normal (Some Sample.text)).
  { change c with (fst (c, w')). rewrite <- Hex. vm_compute. reflexivity. }
  destruct (generateWithRetry_requests script_config Sample.flaky Sample.keys
              (lit "prompt") (lit "model") Sample.start c w' Hmax Hk Hex)
    as [(text & m & _ & _ & Hm & _ & Hki & _)|(e & He & _)].
  - exists w', m. rewrite Hc. split; [reflexivity|]. split; [exact Hm|exact Hki].
  - rewrite Hc in He. discriminate.
Defined.

Lemma runQueue_request_bounds_sample :
  1 <= CONCURRENCY_LIMIT script_config
  /\ exists outs w',
       runQueue script_config Sample.flaky Sample.keys
         (List.filter is_pending Sample.listing) Sample.start
       = Some (Normal outs, w')
       /\ generate_calls (trace w') <= 15
       /\ count_requests is_put (trace w') <= 3
       /\ count_requests is_mail (trace w') = 0.
Proof.
  assert (Hc : 1 <= CONCURRENCY_LIMIT script_config) by (simpl; lia).
  split; [exact Hc|].
  destruct (runQueue_request_bounds script_config Sample.flaky Sample.keys
              (List.filter is_pending Sample.listing) Sample.start Hc)
    as (outs & w' & Hrun & [_ Hgen] & [_ Hput] & Hmail).
  exists outs, w'. split; [exact Hrun|].
  split; [exact Hgen|]. split; [exact Hput|exact Hmail].
Defined.


(** * The single-key script *)

Section SingleFacts.

Variable env : Env.
Variable variant : Single.Variant.
Variable GENERATED_DIR : list N.
Variable inspect : JsError -> list N.

Local Abbreviation sendEmail := (Single.sendEmail env inspect).
Local Abbreviation process := (Single.process env variant GENERATED_DIR).
Local Abbreviation process_all := (Single.process_all env variant GENERATED_DIR).
Local Abbreviation safe_name file :=
  (Single.sanitize variant (originalFilename file)).

Lemma sendEmail_exec subject text w :
  exists w',
    exec env (sendEmail subject text) w = (Normal tt, w')
    /\ keyIndex w' = keyIndex w /\ dir_exists w' = dir_exists w
    /\ disk w' = disk w
    /\ trace w'
       = trace w ++ (if Single.email_configured env
                     then [SendMail (Single.mail_of env subject text)]
                     else []).
Proof.
  unfold Single.sendEmail.
  destruct (Single.email_configured env); cbn [negb].
  - rewrite exec_try_catch, exec_bind. cbn [exec await answer]. cbv zeta.
    destruct (sendMail env _ _) as [[]|e]; cbn [exec];
      eexists; (split; [reflexivity|]); repeat split; reflexivity.
  - eexists. split; [reflexivity|]. cbn [trace print].
    rewrite app_nil_r. repeat split; reflexivity.
Qed.

Lemma process_spec ai model file results w :
  exists results' w' tr,
    exec env (process ai model file results) w = (Normal results', w')
    /\ trace w' = trace w ++ fetch_of file :: tr
    /\ keyIndex w' = keyIndex w /\ dir_exists w' = dir_exists w
    /\ loop_turn env variant ai model file results w results' w' tr.
Proof.
  unfold loop_turn, turn_update, turn_body, turn_generate, turn_call,
    turn_fetch. cbv zeta.
  unfold Single.process. rewrite exec_bind. cbn [exec console_log].
  rewrite exec_try_catch, exec_bind. cbn [exec await answer]. cbv zeta.
  cbn [trace issue print]. fold (fetch_of file).
  destruct (axios_get env _ (secureUrl file)) as [v|e] eqn:Hget.
  2: { cbn [exec]. eexists _, _, []. split; [reflexivity|].
       repeat (split; [reflexivity|]). right. left. exists e.
       repeat (split; [reflexivity|]). reflexivity. }
  cbn [exec]. rewrite exec_bind. cbn [exec await answer]. cbv zeta.
  cbn [trace issue print]. rewrite <- app_assoc. cbn [app].
  destruct (generateContent env _ ai model (promptText_of v))
    as [[[|c text]|]|e] eqn:Hgen.
  1, 3, 4: cbn [exec]; eexists _, _, [_]; (split; [reflexivity|]);
    (split; [cbn [trace issue print]; rewrite <- app_assoc; reflexivity|]);
    repeat (split; [reflexivity|]); right; right; left; exists v; eexists;
    (split; [reflexivity|]); rewrite Hgen;
    repeat (split; [reflexivity|]); reflexivity.
  cbn [exec]. rewrite exec_bind. cbn [exec writeFileSync].
  cbn [trace issue print].
  destruct (writeFileSync_error env _ _ (c :: text)) as [e|] eqn:Hwrite;
    rewrite <- ?app_assoc in Hwrite; cbn [app] in Hwrite.
  { cbn [exec]. eexists _, _, [_]. split; [reflexivity|].
    cbn [trace keyIndex dir_exists disk print].
    rewrite after_failed_write_trace, after_failed_write_keyIndex,
      after_failed_write_dir.
    split; [cbn [trace issue print]; rewrite <- app_assoc; reflexivity|].
    repeat (split; [reflexivity|]). right. right. right. left.
    exists v, (c :: text), e. split; [reflexivity|]. rewrite Hgen, Hwrite.
    split; [reflexivity|]. split; [discriminate|].
    repeat (split; [reflexivity|]).
    match goal with
    | |- context [after_failed_write ?E ?n ?t ?W] =>
        destruct (after_failed_write_disk E n t W) as [Hd|[partial Hd]]
    end; [left|right; exists partial]; rewrite Hd; reflexivity. }
  cbn [exec]. rewrite exec_bind. cbn [exec console_log].
  rewrite exec_bind. cbn [exec now]. rewrite exec_bind.
  cbn [exec await answer]. cbv zeta. cbn [trace issue print set_disk].
  rewrite <- !app_assoc. cbn [app].
  destruct (axios_put env _ _ _) as [[]|e] eqn:Hput;
    rewrite <- ?app_assoc in Hput; cbn [app] in Hput.
  - cbn [exec]. rewrite exec_bind. cbn [exec console_log].
    eexists _, _, [_; _; _]. split; [reflexivity|].
    split; [cbn [trace issue print set_disk]; rewrite <- !app_assoc;
            reflexivity|].
    repeat (split; [reflexivity|]). left. exists v, (c :: text).
    split; [reflexivity|]. rewrite Hgen, Hwrite.
    split; [reflexivity|]. split; [discriminate|]. split; [reflexivity|].
    rewrite <- ?app_assoc. cbn [app]. rewrite Hput.
    repeat (split; [reflexivity|]). reflexivity.
  - cbn [exec]. eexists _, _, [_; _]. split; [reflexivity|].
    split; [cbn [trace issue print set_disk]; rewrite <- !app_assoc;
            reflexivity|].
    repeat (split; [reflexivity|]). right. right. right. right.
    exists v, (c :: text), e.
    split; [reflexivity|]. rewrite Hgen, Hwrite.
    split; [reflexivity|]. split; [discriminate|]. split; [reflexivity|].
    rewrite <- ?app_assoc. cbn [app]. rewrite Hput.
    repeat (split; [reflexivity|]). reflexivity.
Qed.

Lemma process_counts ai model file results w :
  exists results' w' tr,
    exec env (process ai model file results) w = (Normal results', w')
    /\ trace w' = trace w ++ fetch_of file :: tr
    /\ fetches tr = []
    /\ count_requests is_generate tr <= 1
    /\ count_requests is_put tr <= 1
    /\ count_requests is_mail tr = 0
    /\ keyIndex w' = keyIndex w /\ dir_exists w' = dir_exists w
    /\ (disk w' = disk w
        \/ exists content, disk w' = <[safe_name file := content]> (disk w))
    /\ ((exists entry,
           results' = Single.push_success entry results
           /\ count_requests is_timeout tr = 1)
        \/ (exists entry,
              results' = Single.push_failed entry results
              /\ count_requests is_timeout tr = 0)).
Proof.
  destruct (process_spec ai model file results w)
    as (results' & w' & tr & Hex & Ht & Hk & Hd & Hcase).
  exists results', w', tr. split; [exact Hex|]. split; [exact Ht|].
  unfold loop_turn, turn_call in Hcase. cbv zeta in Hcase.
  destruct Hcase
    as [(v & content & _ & _ & _ & _ & _ & -> & -> & Hdisk)
       |[(e & _ & -> & -> & Hdisk)
        |[(v & e & _ & _ & -> & -> & Hdisk)
         |[(v & content & e & _ & _ & _ & _ & -> & -> & Hdisk)
          |(v & content & e & _ & _ & _ & _ & _ & -> & -> & Hdisk)]]]];
    cbn; do 6 (split; [first [reflexivity|lia|assumption]|]);
    (split; [first [left; exact Hdisk|right; eexists; exact Hdisk
                   |exact Hdisk]|]);
    first [left; eexists; split; reflexivity
          |right; eexists; split; reflexivity].
Qed.

Lemma process_all_spec ai model files : forall results w,
  exists results' w' ss fs ext,
    exec env (process_all ai model files results) w = (Normal results', w')
    /\ Single.results_success results' = Single.results_success results ++ ss
    /\ Single.results_failed results' = Single.results_failed results ++ fs
    /\ length ss + length fs = length files
    /\ trace w' = trace w ++ ext
    /\ fetches ext = List.map fetch_of files
    /\ count_requests is_generate ext <= length files
    /\ count_requests is_put ext <= length files
    /\ count_requests is_timeout ext = length ss
    /\ count_requests is_mail ext = 0
    /\ keyIndex w' = keyIndex w /\ dir_exists w' = dir_exists w
    /\ (forall k, is_Some (disk w !! k) -> is_Some (disk w' !! k))
    /\ (forall k, disk w' !! k <> disk w !! k ->
          exists file, file ∈ files /\ k = safe_name file).
Proof.
  induction files as [|file rest IH]; intros results w.
  - exists results, w, [], [], []. cbn.
    rewrite !app_nil_r. repeat (split; [reflexivity|]).
    split; [auto|]. intros k Hk. contradiction.
  - cbn [Single.process_all]. rewrite exec_bind.
    destruct (process_counts ai model file results w)
      as (r1 & w1 & tr & Hex & Ht & Hf & Hg & Hp & Hm & Hk & Hd & Hdisk
          & Hres).
    rewrite Hex.
    destruct (IH r1 w1)
      as (r' & w' & ss & fs & ext & Hex' & Hss & Hfs & Hlen & Ht' & Hf'
          & Hg' & Hp' & Hto' & Hm' & Hk' & Hd' & Hkeep & Hnew).
    assert (Hdom : forall k, is_Some (disk w !! k) -> is_Some (disk w1 !! k)).
    { intros k Hk0.
      destruct Hdisk as [->|(content & ->)]; [exact Hk0|].
      destruct (decide (safe_name file = k)) as [<-|Hne].
      - rewrite lookup_insert_eq. eauto.
      - rewrite lookup_insert_ne by exact Hne. exact Hk0. }
    assert (Hchg : forall k, disk w1 !! k <> disk w !! k -> k = safe_name file).
    { intros k Hk0.
      destruct Hdisk as [Heq|(content & Heq)]; rewrite Heq in Hk0;
        [contradiction|].
      destruct (decide (safe_name file = k)) as [<-|Hne]; [reflexivity|].
      rewrite lookup_insert_ne in Hk0 by exact Hne. contradiction. }
    assert (Hcount : forall P,
      count_requests P (fetch_of file :: tr ++ ext)
      = (if P (fetch_of file) then 1 else 0)
        + count_requests P tr + count_requests P ext).
    { intros P. change (fetch_of file :: tr ++ ext)
        with ([fetch_of file] ++ tr ++ ext).
      rewrite !count_requests_app. unfold count_requests at 1. cbn.
      destruct (P (fetch_of file)); cbn; lia. }
    destruct Hres as [(entry & -> & Hto)|(entry & -> & Hto)].
    + exists r', w', (entry :: ss), fs, (fetch_of file :: tr ++ ext).
      split; [exact Hex'|].
      split; [rewrite Hss; cbn; rewrite <- app_assoc; reflexivity|].
      split; [rewrite Hfs; reflexivity|].
      split; [cbn; lia|].
      split; [rewrite Ht', Ht, <- app_assoc; reflexivity|].
      split.
      { unfold fetches in *. cbn. rewrite List.filter_app, Hf, Hf'.
        reflexivity. }
      rewrite !Hcount. cbn [fetch_of is_generate is_put is_timeout is_mail].
      cbn [length]. repeat (split; [first [lia|congruence]|]).
      split; [auto|].
      intros k Hk0.
      destruct (decide (disk w' !! k = disk w1 !! k)) as [Heq|Hne].
      * exists file. split; [left|]. apply Hchg. rewrite <- Heq. exact Hk0.
      * destruct (Hnew k Hne) as (f & Hin & ->). exists f.
        split; [right; exact Hin|reflexivity].
    + exists r', w', ss, (entry :: fs), (fetch_of file :: tr ++ ext).
      split; [exact Hex'|].
      split; [rewrite Hss; reflexivity|].
      split; [rewrite Hfs; cbn; rewrite <- app_assoc; reflexivity|].
      split; [cbn; lia|].
      split; [rewrite Ht', Ht, <- app_assoc; reflexivity|].
      split.
      { unfold fetches in *. cbn. rewrite List.filter_app, Hf, Hf'.
        reflexivity. }
      rewrite !Hcount. cbn [fetch_of is_generate is_put is_timeout is_mail].
      cbn [length]. repeat (split; [first [lia|congruence]|]).
      split; [auto|].
      intros k Hk0.
      destruct (decide (disk w' !! k = disk w1 !! k)) as [Heq|Hne].
      * exists file. split; [left|]. apply Hchg. rewrite <- Heq. exact Hk0.
      * destruct (Hnew k Hne) as (f & Hin & ->). exists f.
        split; [right; exact Hin|reflexivity].
Qed.

End SingleFacts.


Section SingleRun.

Variable env : Env.
Variable variant : Single.Variant.
Variable GENERATED_DIR : list N.
Variable inspect : JsError -> list N.

Local Abbreviation main := (Single.main env variant GENERATED_DIR inspect).
Local Abbreviation fatal_mail := (fatal_mail_of env).
Local Abbreviation fatal := (fatal_run env).
Local Abbreviation batch := (batch_run env variant).

Lemma catch_exec e w :
  exists w',
    exec env
      (bind (Single.console_error
               (lit "Fatal error in generation script: " ++ inspect e))
         (fun _ =>
            bind (Single.sendEmail env inspect
                    (lit "Content Generation Failed")
                    (lit "Fatal error: " ++ message e))
              (fun _ => Ret (Exited 1)))) w
    = (Normal (Exited 1), w')
    /\ disk w' = disk w /\ trace w' = trace w ++ fatal_mail e.
Proof.
  unfold fatal_mail_of.
  rewrite exec_bind. cbn [exec Single.console_error console_log].
  rewrite exec_bind.
  destruct (sendEmail_exec env inspect (lit "Content Generation Failed")
              (lit "Fatal error: " ++ message e)
              (print (lit "Fatal error in generation script: " ++ inspect e) w))
    as (w' & Hex & _ & _ & Hd & Ht).
  rewrite Hex. exists w'. cbn [exec]. split; [reflexivity|].
  split; [exact Hd|exact Ht].
Qed.

Lemma main_spec w :
  exists t w',
    main w = (t, w')
    /\ match axios_get env (trace w ++ [list_request]) EXTERNAL_API_URL with
       | Resolved (VFiles allFiles _) =>
           match Single.pending_of allFiles with
           | [] => batch (@nil File) w t w'
           | file :: rest =>
               if env_truthy env (lit "GEMINI_API_KEY")
               then batch (file :: rest) w t w'
               else fatal (Error (lit "GEMINI_API_KEY is not defined")) w t w'
           end
       | Resolved _ =>
           fatal (TypeError (lit "allFiles.filter is not a function")) w t w'
       | Rejected e => fatal e w t w'
       end.
Proof.
  unfold batch_run, fatal_run, report_mail_of, fatal_mail_of, list_request.
  unfold Single.main.
  set (w0 := if negb (dir_exists w) then mkdirSync w else w).
  assert (Ht0 : trace w0 = trace w) by (unfold w0; destruct (dir_exists w); reflexivity).
  assert (Hd0 : disk w0 = disk w) by (unfold w0; destruct (dir_exists w); reflexivity).
  clearbody w0.
  unfold Single.run. rewrite exec_bind. cbn [exec console_log].
  rewrite exec_try_catch, exec_bind. unfold Single.run_try.
  rewrite exec_bind. cbn [exec console_log]. rewrite exec_bind.
  cbn [exec await answer]. cbv zeta. cbn [trace issue print]. rewrite Ht0.
  set (w1 := issue (AxiosGet EXTERNAL_API_URL) _).
  assert (Ht1 : trace w1 = trace w ++ [(AxiosGet EXTERNAL_API_URL)])
    by (unfold w1; cbn [trace issue print]; rewrite Ht0; reflexivity).
  assert (Hd1 : disk w1 = disk w) by (unfold w1; exact Hd0).
  clearbody w1.
  assert (Hfatal : forall e (w2 : World),
    trace w2 = trace w ++ [(AxiosGet EXTERNAL_API_URL)] -> disk w2 = disk w ->
    exists t w',
      (let (c, w3) :=
         exec env
           (bind (Single.console_error
                    (lit "Fatal error in generation script: " ++ inspect e))
              (fun _ =>
                 bind (Single.sendEmail env inspect
                         (lit "Content Generation Failed")
                         (lit "Fatal error: " ++ message e))
                   (fun _ => Ret (Exited 1)))) w2 in
       match c with
       | Normal t0 => (t0, w3)
       | Thrown e0 => (Unhandled e0, w3)
       end) = (t, w')
      /\ fatal e w t w').
  { intros e w2 Ht2 Hd2. destruct (catch_exec e w2) as (w' & Hex & Hd & Ht).
    unfold fatal_mail_of in Ht.
    rewrite Hex. exists (Exited 1), w'. split; [reflexivity|].
    split; [reflexivity|]. split; [congruence|].
    rewrite Ht, Ht2, <- app_assoc. reflexivity. }
  destruct (axios_get env _ EXTERNAL_API_URL) as [[s|allFiles json|json]|e];
    cbn [exec]; try (apply Hfatal; assumption).
  destruct (Single.pending_of allFiles) as [|file rest] eqn:Hpending.
  - cbn [exec console_log]. eexists _, _. split; [reflexivity|].
    split; [reflexivity|].
    exists {| Single.results_success := []; Single.results_failed := [] |}, [].
    cbn. rewrite Ht1, Hd1. repeat (split; [reflexivity|]).
    split; [auto|]. intros k Hk. contradiction.
  - rewrite exec_bind. cbn [exec console_log]. rewrite exec_bind.
    unfold Single.getGemini, env_truthy.
    destruct (getenv env (lit "GEMINI_API_KEY")) as [[|c s]|];
      cbn [exec]; try (apply Hfatal; assumption).
    rewrite exec_bind.
    set (w2 := print _ w1).
    destruct (process_all_spec env variant GENERATED_DIR
                {| apiKey := Some (c :: s) |} (model_name env) (file :: rest)
                {| Single.results_success := []; Single.results_failed := [] |}
                w2)
      as (results & w3 & ss & fs & ext & Hex & Hss & Hfs & Hlen & Ht3 & Hf
          & Hg & Hp & Hto & Hm & _ & _ & Hkeep & Hnew).
    rewrite Hex. rewrite exec_bind.
    destruct (sendEmail_exec env inspect (Single.report_subject results)
                (Single.report_body variant (length (file :: rest)) results)
                w3)
      as (w4 & Hmail & _ & _ & Hd4 & Ht4).
    rewrite Hmail. cbn [exec console_log].
    eexists _, _. split; [reflexivity|]. split; [reflexivity|].
    exists results, ext. cbn [trace disk print].
    split.
    { rewrite Ht4, Ht3. unfold w2. cbn [trace print]. rewrite Ht1.
      rewrite <- !app_assoc. reflexivity. }
    cbn in Hss, Hfs. rewrite Hss, Hfs.
    split; [exact Hlen|]. split; [exact Hf|]. split; [exact Hg|].
    split; [exact Hp|]. split; [exact Hto|]. split; [exact Hm|].
    rewrite Hd4. unfold w2 in Hkeep, Hnew. cbn [disk print] in Hkeep, Hnew.
    rewrite Hd1 in Hkeep, Hnew. split; [exact Hkeep|exact Hnew].
Qed.

End SingleRun.


(** [sendEmail] of the single-key script never throws: it completes
    normally whether the mail is configured or not and whether the mail
    server accepts the mail or rejects it.  It sends one mail when
    [EMAIL_HOST], [EMAIL_USER] and [EMAIL_PASS] are all set and nothing
    otherwise, and it leaves the output directory alone. *)
Theorem single_sendEmail_never_throws (env : Env)
  (inspect : JsError -> list N) (subject text : list N) (w : World) :
  exists w',
    exec env (Single.sendEmail env inspect subject text) w = (Normal tt, w')
    /\ disk w' = disk w
    /\ trace w'
       = trace w ++ (if Single.email_configured env
                     then [SendMail (Single.mail_of env subject text)]
                     else []).
Proof.
  destruct (sendEmail_exec env inspect subject text w)
    as (w' & Hex & _ & _ & Hd & Ht).
  exists w'. split; [exact Hex|]. split; [exact Hd|exact Ht].
Qed.

(** One turn of the loop of the single-key script.  It never throws and
    pushes exactly one entry.  Its steps run in this order: fetch of the
    prompt, one generation call, write under the sanitized name, status
    update, 2 s delay.  When every step succeeds (the generation call
    answers a non-empty text) the success entry is pushed and the text is
    saved.  Otherwise the first step that fails ends the turn: the entry
    pushed carries the message of that step's error, no further request is
    issued and no delay is paid.  The output directory is unchanged when the
    fetch or the generation fails; when the write fails it is unchanged or
    holds a partial file under the sanitized name; when the status update is
    rejected the generated text stays saved. *)
Theorem single_process_file (env : Env) (variant : Single.Variant)
  (GENERATED_DIR : list N) (ai : GoogleGenAI) (model : list N) (file : File)
  (results : Single.Results) (w : World) :
  let safeFilename := Single.sanitize variant (originalFilename file) in
  let failed := fun e =>
    Single.push_failed (originalFilename file ++ lit ": " ++ message e)
      results in
  let call := fun v => GenerateContent ai model (promptText_of v) in
  let fetched := trace w ++ [fetch_of file] in
  let generated := fun v => trace w ++ [fetch_of file; call v] in
  let body := fun v =>
    {| put_status := lit "AlreadyCopy";
       completedTimestamp := Date_now env (generated v) |} in
  let updated := fun v =>
    trace w ++ [fetch_of file; call v; AxiosPut (put_url file) (body v)] in
  exists results' w' tr,
    exec env (Single.process env variant GENERATED_DIR ai model file results) w
    = (Normal results', w')
    /\ trace w' = trace w ++ fetch_of file :: tr
    /\ ((exists v content,
           axios_get env fetched (secureUrl file) = Resolved v
           /\ generateContent env (generated v) ai model (promptText_of v)
              = Resolved (Some content)
           /\ content <> []
           /\ writeFileSync_error env (generated v) safeFilename content
              = None
           /\ axios_put env (updated v) (put_url file) (body v) = Resolved tt
           /\ tr = [call v; AxiosPut (put_url file) (body v); SetTimeout 2000]
           /\ results'
              = Single.push_success
                  (Single.pushed variant file safeFilename) results
           /\ disk w' = <[safeFilename := content]> (disk w))
        \/ (exists e,
              axios_get env fetched (secureUrl file) = Rejected e
              /\ tr = [] /\ results' = failed e /\ disk w' = disk w)
        \/ (exists v e,
              axios_get env fetched (secureUrl file) = Resolved v
              /\ generation_error
                   (generateContent env (generated v) ai model
                      (promptText_of v)) = Some e
              /\ tr = [call v] /\ results' = failed e /\ disk w' = disk w)
        \/ (exists v content e,
              axios_get env fetched (secureUrl file) = Resolved v
              /\ generateContent env (generated v) ai model (promptText_of v)
                 = Resolved (Some content)
              /\ content <> []
              /\ writeFileSync_error env (generated v) safeFilename content
                 = Some e
              /\ tr = [call v] /\ results' = failed e
              /\ (disk w' = disk w
                  \/ exists partial,
                       disk w' = <[safeFilename := partial]> (disk w)))
        \/ (exists v content e,
              axios_get env fetched (secureUrl file) = Resolved v
              /\ generateContent env (generated v) ai model (promptText_of v)
                 = Resolved (Some content)
              /\ content <> []
              /\ writeFileSync_error env (generated v) safeFilename content
                 = None
              /\ axios_put env (updated v) (put_url file) (body v)
                 = Rejected e
              /\ tr = [call v; AxiosPut (put_url file) (body v)]
              /\ results' = failed e
              /\ disk w' = <[safeFilename := content]> (disk w))).
Proof.
  intros safeFilename failed call fetched generated body updated.
  destruct (process_spec env variant GENERATED_DIR ai model file results w)
    as (results' & w' & tr & Hex & Ht & _ & _ & Hcase).
  exists results', w', tr. split; [exact Hex|]. split; [exact Ht|].
  exact Hcase.
Qed.

(** How the single-key script ends depends on two things only: whether the
    request for the list answered with an array, and, when a file is
    pending, whether [GEMINI_API_KEY] is set.  Neither a file that fails nor
    a mail the server rejects changes it, and the promise of [run] is never
    rejected. *)
Theorem single_exit_status (env : Env) (variant : Single.Variant)
  (GENERATED_DIR : list N) (inspect : JsError -> list N) (w : World) :
  fst (Single.main env variant GENERATED_DIR inspect w)
  = match axios_get env (trace w ++ [list_request]) EXTERNAL_API_URL with
    | Resolved (VFiles allFiles _) =>
        match Single.pending_of allFiles with
        | [] => Fulfilled
        | _ :: _ =>
            if env_truthy env (lit "GEMINI_API_KEY") then Fulfilled
            else Exited 1
        end
    | _ => Exited 1
    end.
Proof.
  destruct (main_spec env variant GENERATED_DIR inspect w)
    as (t & w' & Hm & Hcase).
  rewrite Hm. cbn [fst]. unfold list_request.
  destruct (axios_get env _ EXTERNAL_API_URL) as [[s|allFiles json|json]|e];
    try (destruct Hcase as [-> _]; reflexivity).
  destruct (Single.pending_of allFiles) as [|file rest];
    [destruct Hcase as [-> _]; reflexivity|].
  destruct (env_truthy env (lit "GEMINI_API_KEY"));
    destruct Hcase as [-> _]; reflexivity.
Qed.

(** When the single-key script exits with code 1 it has processed nothing:
    besides the request for the list, its only request is the failure mail
    (when the mail is configured), so no prompt was fetched, no generation
    call made and no status updated, and the output directory is as it
    was. *)
Theorem single_exit_1_processed_nothing (env : Env)
  (variant : Single.Variant) (GENERATED_DIR : list N)
  (inspect : JsError -> list N) (w : World) :
  fst (Single.main env variant GENERATED_DIR inspect w) = Exited 1 ->
  exists e w',
    Single.main env variant GENERATED_DIR inspect w = (Exited 1, w')
    /\ disk w' = disk w
    /\ trace w' = trace w ++ list_request :: fatal_mail_of env e.
Proof.
  destruct (main_spec env variant GENERATED_DIR inspect w)
    as (t & w' & Hm & Hcase).
  rewrite Hm. cbn [fst]. intros ->.
  assert (Hfatal : forall e, fatal_run env e w (Exited 1) w' ->
    exists e0 w'0, (Exited 1, w') = (Exited 1, w'0) /\ disk w'0 = disk w
      /\ trace w'0 = trace w ++ list_request :: fatal_mail_of env e0).
  { intros e (_ & Hd & Ht). exists e, w'. repeat split; assumption. }
  destruct (axios_get env _ EXTERNAL_API_URL) as [[s|allFiles json|json]|e];
    try (eapply Hfatal; exact Hcase).
  destruct (Single.pending_of allFiles) as [|file rest];
    [destruct Hcase as [Hc _]; discriminate|].
  destruct (env_truthy env (lit "GEMINI_API_KEY"));
    [destruct Hcase as [Hc _]; discriminate|].
  eapply Hfatal; exact Hcase.
Qed.

(** A batch of the single-key script.  When the list arrives and the key
    is set, the script goes through the pending files of the list, at most
    [BATCH_SIZE] of them and in the order of the list, and is fulfilled.
    Every file gets one entry in [results]; its prompt is fetched once; at
    most one generation call and one status update are made per file, the
    delay is paid once per success, and the report is the only mail.  No
    file of the output directory is removed, and the names written are the
    sanitized names of the batch. *)
Theorem single_batch (env : Env) (variant : Single.Variant)
  (GENERATED_DIR : list N) (inspect : JsError -> list N) (w : World)
  (allFiles : list File) (json : list N) :
  axios_get env (trace w ++ [list_request]) EXTERNAL_API_URL
    = Resolved (VFiles allFiles json) ->
  env_truthy env (lit "GEMINI_API_KEY") = true ->
  let pending := Single.pending_of allFiles in
  length pending <= Single.BATCH_SIZE
  /\ Forall (fun f => file_status f = lit "Pending") pending
  /\ exists w',
       Single.main env variant GENERATED_DIR inspect w = (Fulfilled, w')
       /\ batch_run env variant pending w Fulfilled w'.
Proof.
  intros Hlist Hkey pending.
  split; [unfold pending, Single.pending_of; rewrite length_take; lia|].
  split.
  { apply Forall_take, Forall_forall. intros f Hf.
    apply list_elem_of_In, List.filter_In in Hf as [_ Hp].
    unfold is_pending, str_eqb in Hp. apply bool_decide_eq_true in Hp.
    exact Hp. }
  destruct (main_spec env variant GENERATED_DIR inspect w)
    as (t & w' & Hm & Hcase).
  rewrite Hlist, Hkey in Hcase.
  fold pending in Hcase.
  assert (Hb : batch_run env variant pending w t w')
    by (destruct pending; exact Hcase).
  pose proof Hb as [-> _]. exists w'. split; [exact Hm|exact Hb].
Qed.

(** The files [src/scripts/generate.ts] writes.  Whatever the run does, a
    file that was in the output directory is still there afterwards, and a
    name that is new or whose content changed is made of lower-case ASCII
    letters, digits and underscores followed by [.mdx]. *)
Theorem generate_ts_written_names (env : Env) (GENERATED_DIR : list N)
  (inspect : JsError -> list N) (w : World) (k : list N) :
  let w' := snd (Single.main env Single.generate_ts GENERATED_DIR inspect w) in
  (is_Some (disk w !! k) -> is_Some (disk w' !! k))
  /\ (disk w' !! k <> disk w !! k ->
      exists slug,
        k = slug ++ lit ".mdx"
        /\ Forall (fun c => Slug.is_lower_underscore c = true) slug).
Proof.
  intros w'.
  destruct (main_spec env Single.generate_ts GENERATED_DIR inspect w)
    as (t & w1 & Hm & Hcase).
  unfold w'. rewrite Hm. cbn [snd]. clear w' Hm.
  assert (Hfatal : forall e, fatal_run env e w t w1 ->
    (is_Some (disk w !! k) -> is_Some (disk w1 !! k))
    /\ (disk w1 !! k <> disk w !! k ->
        exists slug,
          k = slug ++ lit ".mdx"
          /\ Forall (fun c => Slug.is_lower_underscore c = true) slug)).
  { intros e (_ & Hd & _). rewrite Hd. split; [auto|]. intros Hk.
    contradiction. }
  assert (Hbatch : forall pending,
    batch_run env Single.generate_ts pending w t w1 ->
    (is_Some (disk w !! k) -> is_Some (disk w1 !! k))
    /\ (disk w1 !! k <> disk w !! k ->
        exists slug,
          k = slug ++ lit ".mdx"
          /\ Forall (fun c => Slug.is_lower_underscore c = true) slug)).
  { intros pending (_ & results & ext & _ & _ & _ & _ & _ & _ & _ & Hkeep
                    & Hnew).
    split; [apply Hkeep|]. intros Hk.
    destruct (Hnew k Hk) as (file & _ & ->). cbn [Single.sanitize Single.generate_ts].
    destruct (SlugFacts.safeFilename_chars (originalFilename file))
      as (slug & Hs & Hrest).
    exists slug. split; [exact Hs|]. apply Hrest. }
  destruct (axios_get env _ EXTERNAL_API_URL) as [[s|allFiles json|json]|e];
    try (eapply Hfatal; exact Hcase).
  destruct (Single.pending_of allFiles) as [|file rest];
    [eapply Hbatch; exact Hcase|].
  destruct (env_truthy env (lit "GEMINI_API_KEY"));
    [eapply Hbatch; exact Hcase|eapply Hfatal; exact Hcase].
Qed.


(** ** Sample runs of the single-key script *)

Lemma single_exit_1_processed_nothing_sample :
  fst (Single.main Sample.healthy Single.generate_ts
         SingleSample.GENERATED_DIR SingleSample.inspect Sample.start)
  = Exited 1
  /\ exists w',
       Single.main Sample.healthy Single.generate_ts
         SingleSample.GENERATED_DIR SingleSample.inspect Sample.start
       = (Exited 1, w')
       /\ trace w' = [list_request]
       /\ disk w' = ∅.
Proof.
  assert (H1 : fst (Single.main Sample.healthy Single.generate_ts
                      SingleSample.GENERATED_DIR SingleSample.inspect
                      Sample.start) = Exited 1)
    by (vm_compute; reflexivity).
  split; [exact H1|].
  destruct (single_exit_1_processed_nothing Sample.healthy Single.generate_ts
              SingleSample.GENERATED_DIR SingleSample.inspect Sample.start H1)
    as (e & w' & Hm & Hd & Ht).
  exists w'. split; [exact Hm|]. split; [exact Ht|exact Hd].
Defined.

Lemma single_batch_sample :
  axios_get SingleSample.mail_down (trace Sample.start ++ [list_request])
    EXTERNAL_API_URL
  = Resolved (VFiles Sample.listing (lit "[]"))
  /\ env_truthy SingleSample.mail_down (lit "GEMINI_API_KEY") = true
  /\ exists w',
       Single.main SingleSample.mail_down Single.generate_ts
         SingleSample.GENERATED_DIR SingleSample.inspect Sample.start
       = (Fulfilled, w')
       /\ batch_run SingleSample.mail_down Single.generate_ts
            (Single.pending_of Sample.listing) Sample.start Fulfilled w'.
Proof.
  assert (H1 : axios_get SingleSample.mail_down
                 (trace Sample.start ++ [list_request]) EXTERNAL_API_URL
               = Resolved (VFiles Sample.listing (lit "[]")))
    by (vm_compute; reflexivity).
  assert (H2 : env_truthy SingleSample.mail_down (lit "GEMINI_API_KEY") = true)
    by (vm_compute; reflexivity).
  split; [exact H1|]. split; [exact H2|].
  exact (proj2 (proj2 (single_batch SingleSample.mail_down Single.generate_ts
                         SingleSample.GENERATED_DIR SingleSample.inspect
                         Sample.start Sample.listing (lit "[]") H1 H2))).
Defined.

Lemma generate_ts_written_names_sample :
  disk (snd (Single.main SingleSample.mail_down Single.generate_ts
               SingleSample.GENERATED_DIR SingleSample.inspect Sample.start))
    !! lit "intro_notes_txt.mdx"
  <> disk Sample.start !! lit "intro_notes_txt.mdx"
  /\ exists slug,
       lit "intro_notes_txt.mdx" = slug ++ lit ".mdx"
       /\ Forall (fun c => Slug.is_lower_underscore c = true) slug.
Proof.
  assert (H1 :
    disk (snd (Single.main SingleSample.mail_down Single.generate_ts
                 SingleSample.GENERATED_DIR SingleSample.inspect
                 Sample.start))
      !! lit "intro_notes_txt.mdx"
    <> disk Sample.start !! lit "intro_notes_txt.mdx")
    by (vm_compute; discriminate).
  split; [exact H1|].
  exact (proj2 (generate_ts_written_names SingleSample.mail_down
                  SingleSample.GENERATED_DIR SingleSample.inspect
                  Sample.start (lit "intro_notes_txt.mdx")) H1).
Defined.


(** * The mails of the multi-key script *)

Lemma sendEmail_cases env subject text w :
  (env_truthy env (lit "EMAIL_HOST") = false
   /\ exec env (sendEmail env subject text) w = (Normal tt, w))
  \/ (env_truthy env (lit "EMAIL_HOST") = true
      /\ exec env (sendEmail env subject text) w
         = (match sendMail env
                    (trace w ++ [SendMail (mail_record env subject text)])
                    (mail_record env subject text) with
            | Resolved _ => Normal tt
            | Rejected e => Thrown e
            end,
            issue (SendMail (mail_record env subject text)) w)).
Proof.
  unfold sendEmail. destruct (env_truthy env (lit "EMAIL_HOST"));
    cbn [negb]; [right|left; split; reflexivity].
  split; [reflexivity|]. cbn [exec await answer]. cbv zeta.
  fold (mail_record env subject text). cbn [trace issue].
  destruct (sendMail env _ _) as [[]|e]; reflexivity.
Qed.

Lemma exec_sendBatchEmail env succeeded failed w :
  exists body,
    exec env (sendBatchEmail env succeeded failed) w
    = exec env
        (sendEmail env
           (lit "Content Generation Report - " ++ toLocaleString env (trace w)
            ++ lit " - " ++ Number_toString (length succeeded)
            ++ lit " Success, " ++ Number_toString (length failed)
            ++ lit " Failed") body) w.
Proof.
  unfold sendBatchEmail. rewrite exec_bind. cbn [exec]. rewrite exec_bind.
  unfold getFolderStats. cbn [exec].
  destruct (dir_exists w); cbn [negb]; cbv beta iota zeta;
    eexists; reflexivity.
Qed.

(** What the [catch] block of [run] does with [e]. *)
Lemma exec_run_catch env e w :
  exists t w',
    (match exec env
             (bind (console_log (lit "Fatal error: " ++ message e))
                (fun _ => sendEmail env (lit "Batch Failed") (message e)))
             w with
     | (Normal _, w2) => Some (Exited 1, w2)
     | (Thrown e2, w2) => Some (Unhandled e2, w2)
     end) = Some (t, w')
    /\ exit_code t = 1 /\ t <> Fulfilled
    /\ disk w' = disk w /\ keyIndex w' = keyIndex w
    /\ ((env_truthy env (lit "EMAIL_HOST") = false
         /\ t = Exited 1 /\ trace w' = trace w)
        \/ (env_truthy env (lit "EMAIL_HOST") = true
            /\ trace w'
               = trace w
                 ++ [SendMail (mail_record env (lit "Batch Failed")
                                 (message e))]
            /\ (t = Exited 1
                \/ exists e2,
                     t = Unhandled e2
                     /\ sendMail env (trace w')
                          (mail_record env (lit "Batch Failed") (message e))
                        = Rejected e2))).
Proof.
  rewrite exec_bind. cbn [exec console_log].
  destruct (sendEmail_cases env (lit "Batch Failed") (message e)
              (print (lit "Fatal error: " ++ message e) w))
    as [[Hhost ->]|[Hhost ->]].
  - eexists _, _. split; [reflexivity|]. split; [reflexivity|].
    split; [discriminate|]. split; [reflexivity|]. split; [reflexivity|].
    left. split; [exact Hhost|]. split; reflexivity.
  - cbn [trace print].
    destruct (sendMail env _ _) as [[]|e2] eqn:Hmail;
      eexists _, _; (split; [reflexivity|]); (split; [reflexivity|]);
      (split; [discriminate|]); (split; [reflexivity|]);
      (split; [reflexivity|]); right; (split; [exact Hhost|]);
      (split; [reflexivity|]).
    + left. reflexivity.
    + right. exists e2. split; [reflexivity|]. exact Hmail.
Qed.

(** A run whose request for the list fails or answers with something that
    is not an array.  Nothing is processed: the request for the list is
    followed at most by the mail [Batch Failed], which carries the message
    of the error; no key is used and the output directory is left alone.
    The exit code is 1, by [process.exit(1)], or by an unhandled rejection
    when that mail is rejected too. *)
Theorem run_list_failure `{Slug.StringLib} (cfg : Config) (env : Env)
  (apiKeys : list (list N)) (w : World) :
  (forall files json,
     axios_get env (trace w ++ [AxiosGet EXTERNAL_API_URL]) EXTERNAL_API_URL
     <> Resolved (VFiles files json)) ->
  exists e t w',
    run cfg env apiKeys w = Some (t, w')
    /\ (forall e',
          axios_get env (trace w ++ [AxiosGet EXTERNAL_API_URL])
            EXTERNAL_API_URL = Rejected e' -> e = e')
    /\ exit_code t = 1 /\ t <> Fulfilled
    /\ disk w' = disk w /\ keyIndex w' = keyIndex w
    /\ ((env_truthy env (lit "EMAIL_HOST") = false
         /\ t = Exited 1
         /\ trace w' = trace w ++ [AxiosGet EXTERNAL_API_URL])
        \/ (env_truthy env (lit "EMAIL_HOST") = true
            /\ trace w'
               = trace w
                 ++ [AxiosGet EXTERNAL_API_URL;
                     SendMail (mail_record env (lit "Batch Failed")
                                 (message e))]
            /\ (t = Exited 1
                \/ exists e2,
                     t = Unhandled e2
                     /\ sendMail env (trace w')
                          (mail_record env (lit "Batch Failed") (message e))
                        = Rejected e2))).
Proof.
  intros Hlist.
  assert (Hcatch : forall e (w1 : World),
    trace w1 = trace w ++ [AxiosGet EXTERNAL_API_URL] ->
    disk w1 = disk w -> keyIndex w1 = keyIndex w ->
    (forall e',
       axios_get env (trace w ++ [AxiosGet EXTERNAL_API_URL])
         EXTERNAL_API_URL = Rejected e' -> e = e') ->
    exists e0 t w',
      (match exec env
               (bind (console_log (lit "Fatal error: " ++ message e))
                  (fun _ => sendEmail env (lit "Batch Failed") (message e)))
               w1 with
       | (Normal _, w2) => Some (Exited 1, w2)
       | (Thrown e2, w2) => Some (Unhandled e2, w2)
       end) = Some (t, w')
      /\ (forall e',
            axios_get env (trace w ++ [AxiosGet EXTERNAL_API_URL])
              EXTERNAL_API_URL = Rejected e' -> e0 = e')
      /\ exit_code t = 1 /\ t <> Fulfilled
      /\ disk w' = disk w /\ keyIndex w' = keyIndex w
      /\ ((env_truthy env (lit "EMAIL_HOST") = false
           /\ t = Exited 1
           /\ trace w' = trace w ++ [AxiosGet EXTERNAL_API_URL])
          \/ (env_truthy env (lit "EMAIL_HOST") = true
              /\ trace w'
                 = trace w
                   ++ [AxiosGet EXTERNAL_API_URL;
                       SendMail (mail_record env (lit "Batch Failed")
                                   (message e0))]
              /\ (t = Exited 1
                  \/ exists e2,
                       t = Unhandled e2
                       /\ sendMail env (trace w')
                            (mail_record env (lit "Batch Failed")
                               (message e0))
                          = Rejected e2)))).
  { intros e w1 Ht1 Hd1 Hk1 He.
    destruct (exec_run_catch env e w1)
      as (t & w' & Hex & Hcode & Hnot & Hd & Hk & Hmail).
    exists e, t, w'. split; [exact Hex|]. split; [exact He|].
    split; [exact Hcode|]. split; [exact Hnot|].
    split; [congruence|]. split; [congruence|].
    destruct Hmail as [(Hhost & Ht & Htr)|(Hhost & Htr & Hend)].
    - left. split; [exact Hhost|]. split; [exact Ht|]. congruence.
    - right. split; [exact Hhost|]. split; [|exact Hend].
      rewrite Htr, Ht1, <- app_assoc. reflexivity. }
  unfold run, run_try, fetch_pending.
  rewrite exec_bind. cbn [exec await answer issue trace print].
  destruct (axios_get env _ EXTERNAL_API_URL)
    as [[s|files json|json]|e] eqn:Hget; cbn [exec].
  - apply Hcatch; try reflexivity. intros e' He'. discriminate.
  - exfalso. exact (Hlist files json eq_refl).
  - apply Hcatch; try reflexivity. intros e' He'. discriminate.
  - apply Hcatch; try reflexivity. intros e' He'. congruence.
Qed.


Lemma filter_success_length (outs : list Outcome) :
  length (List.filter success outs)
  + length (List.filter (fun r => negb (success r)) outs) = length outs.
Proof.
  induction outs as [|o outs IH]; [reflexivity|].
  cbn [List.filter]. destruct (success o); cbn [negb length]; lia.
Qed.

(** What a call of the queue leaves behind. *)
Lemma runQueue_summary `{Slug.StringLib} cfg env apiKeys files w :
  1 <= CONCURRENCY_LIMIT cfg ->
  exists outs w',
    runQueue cfg env apiKeys files w = Some (Normal outs, w')
    /\ length outs = length files
    /\ fetches (trace w') = fetches (trace w) ++ List.map fetch_of files
    /\ count_requests is_generate (trace w')
       <= count_requests is_generate (trace w)
          + length files * MAX_RETRIES cfg
    /\ count_requests is_put (trace w')
       <= count_requests is_put (trace w) + length files
    /\ count_requests is_mail (trace w') = count_requests is_mail (trace w).
Proof.
  intros Hc.
  destruct (runQueue_fuel_spec cfg env apiKeys (model_name env) files
              (length files * awaits_per_file cfg) w Hc (le_n _) eq_refl)
    as (outs & w' & done & Hrun & Hserved & Hperm).
  assert (Hlen : length outs = length files).
  { rewrite <- (Forall2_length _ _ _ Hserved), Hperm, length_seq.
    reflexivity. }
  exists outs, w'. split; [exact Hrun|]. split; [exact Hlen|].
  split.
  { unfold runQueue_fuel in Hrun.
    destruct (start_workers _ _ _ _ _ _ _ _) as [[q|e] w1] eqn:Hst;
      [|discriminate].
    apply (start_workers_fetches _ _ _ _ _ (fetches (trace w))) in Hst.
    + rewrite (pool_loop_fetches _ _ _ _ _ _ _ _ _ _ _ Hst Hrun), Hlen.
      rewrite take_ge by lia. reflexivity.
    + split; [|split]; simpl; [|reflexivity|constructor].
      symmetry. apply app_nil_r. }
  assert (Hgen :
    count_requests is_generate (trace w)
      <= count_requests is_generate (trace w')
    /\ count_requests is_generate (trace w')
       <= count_requests is_generate (trace w)
          + length files * (0 + MAX_RETRIES cfg * 1 + 0)).
  { apply (runQueue_budget cfg env apiKeys (model_name env) is_generate)
      with (fuel := length files * awaits_per_file cfg) (outs := outs);
      try reflexivity; try exact Hrun; try discriminate; intros; lia. }
  assert (Hput :
    count_requests is_put (trace w) <= count_requests is_put (trace w')
    /\ count_requests is_put (trace w')
       <= count_requests is_put (trace w)
          + length files * (0 + MAX_RETRIES cfg * 0 + 1)).
  { apply (runQueue_budget cfg env apiKeys (model_name env) is_put)
      with (fuel := length files * awaits_per_file cfg) (outs := outs);
      try reflexivity; try exact Hrun; try discriminate; intros; lia. }
  assert (Hmail :
    count_requests is_mail (trace w) <= count_requests is_mail (trace w')
    /\ count_requests is_mail (trace w')
       <= count_requests is_mail (trace w)
          + length files * (0 + MAX_RETRIES cfg * 0 + 0)).
  { apply (runQueue_budget cfg env apiKeys (model_name env) is_mail)
      with (fuel := length files * awaits_per_file cfg) (outs := outs);
      try reflexivity; try exact Hrun; try discriminate; intros; lia. }
  replace (0 + MAX_RETRIES cfg * 1 + 0) with (MAX_RETRIES cfg) in Hgen by lia.
  replace (0 + MAX_RETRIES cfg * 0 + 1) with 1 in Hput by lia.
  replace (0 + MAX_RETRIES cfg * 0 + 0) with 0 in Hmail by lia.
  rewrite Nat.mul_1_r in Hput. rewrite Nat.mul_0_r, Nat.add_0_r in Hmail.
  split; [apply Hgen|]. split; [apply Hput|]. lia.
Qed.

(** A batch of the multi-key script.  When the list arrives with pending
    files, [run] puts the first [BATCH_SIZE] of them through the queue and
    returns; the queue yields one outcome per file, whose successes and
    failures are the two counts of the subject of the report.  A file that
    fails does not fail the run: [run] is fulfilled when the mail is not
    configured or the report is accepted, and ends with exit code 1 exactly
    when the report is rejected, after the mail [Batch Failed]. *)
Theorem run_batch `{Slug.StringLib} (cfg : Config) (env : Env)
  (apiKeys : list (list N)) (w : World) (files : list File) (json : list N) :
  1 <= CONCURRENCY_LIMIT cfg ->
  axios_get env (trace w ++ [AxiosGet EXTERNAL_API_URL]) EXTERNAL_API_URL
  = Resolved (VFiles files json) ->
  let pending := take (BATCH_SIZE cfg) (List.filter is_pending files) in
  pending <> [] ->
  exists t w' outs w3,
    run cfg env apiKeys w = Some (t, w')
    /\ length outs = length pending
    /\ length (List.filter success outs)
       + length (List.filter (fun r => negb (success r)) outs)
       = length pending
    /\ fetches (trace w3)
       = fetches (trace w)
         ++ AxiosGet EXTERNAL_API_URL :: List.map fetch_of pending
    /\ count_requests is_generate (trace w3)
       <= count_requests is_generate (trace w)
          + length pending * MAX_RETRIES cfg
    /\ count_requests is_put (trace w3)
       <= count_requests is_put (trace w) + length pending
    /\ count_requests is_mail (trace w3) = count_requests is_mail (trace w)
    /\ ((env_truthy env (lit "EMAIL_HOST") = false
         /\ t = Fulfilled /\ trace w' = trace w3)
        \/ (env_truthy env (lit "EMAIL_HOST") = true
            /\ exists body,
                 let report :=
                   mail_record env
                     (report_subject (toLocaleString env (trace w3)) outs)
                     body in
                 (sendMail env (trace w3 ++ [SendMail report]) report
                  = Resolved tt
                  /\ t = Fulfilled
                  /\ trace w' = trace w3 ++ [SendMail report])
                 \/ (exists e,
                       sendMail env (trace w3 ++ [SendMail report]) report
                       = Rejected e
                       /\ exit_code t = 1 /\ t <> Fulfilled
                       /\ trace w'
                          = trace w3
                            ++ [SendMail report;
                                SendMail (mail_record env (lit "Batch Failed")
                                            (message e))]))).
Proof.
  intros Hc Hget pending Hsome. unfold run, run_try, fetch_pending.
  rewrite exec_bind. cbn [exec await answer issue trace print].
  rewrite Hget. cbn [exec]. fold pending.
  destruct pending as [|f rest] eqn:Hpending; [congruence|].
  match goal with
  | |- context [runQueue cfg env apiKeys (f :: rest) ?w2] =>
      destruct (runQueue_summary cfg env apiKeys (f :: rest) w2 Hc)
        as (outs & w3 & Hrun & Hlen & Hf & Hg & Hp & Hm)
  end.
  rewrite Hrun. rewrite exec_bind.
  destruct (exec_sendBatchEmail env (List.filter success outs)
              (List.filter (fun r => negb (success r)) outs) w3)
    as (body & ->).
  cbn [trace print issue] in Hf, Hg, Hp, Hm.
  assert (Hfacts :
    length outs = length (f :: rest)
    /\ length (List.filter success outs)
       + length (List.filter (fun r => negb (success r)) outs)
       = length (f :: rest)
    /\ fetches (trace w3)
       = fetches (trace w)
         ++ AxiosGet EXTERNAL_API_URL :: List.map fetch_of (f :: rest)
    /\ count_requests is_generate (trace w3)
       <= count_requests is_generate (trace w)
          + length (f :: rest) * MAX_RETRIES cfg
    /\ count_requests is_put (trace w3)
       <= count_requests is_put (trace w) + length (f :: rest)
    /\ count_requests is_mail (trace w3) = count_requests is_mail (trace w)).
  { split; [exact Hlen|].
    split; [rewrite filter_success_length; exact Hlen|].
    rewrite count_requests_app in Hg, Hp, Hm.
    unfold fetches in Hf |- *. rewrite List.filter_app in Hf.
    cbn in Hf, Hg, Hp, Hm. rewrite Nat.add_0_r in Hg, Hp, Hm.
    split; [rewrite Hf, <- app_assoc; reflexivity|].
    split; [exact Hg|]. split; [exact Hp|exact Hm]. }
  destruct Hfacts as (H1 & H2 & H3 & H4 & H5 & H6).
  match goal with
  | |- context [exec env (sendEmail env ?subject body) w3] =>
      destruct (sendEmail_cases env subject body w3)
        as [[Hhost ->]|[Hhost ->]]
  end.
  - cbn [exec console_log]. eexists _, _, outs, w3.
    split; [reflexivity|]. repeat (split; [assumption|]).
    left. split; [exact Hhost|]. split; reflexivity.
  - fold (report_subject (toLocaleString env (trace w3)) outs).
    destruct (sendMail env _ _) as [[]|e] eqn:Hmail.
    + cbn [exec console_log]. eexists _, _, outs, w3.
      split; [reflexivity|]. repeat (split; [assumption|]).
      right. split; [exact Hhost|]. exists body. left.
      split; [exact Hmail|]. split; reflexivity.
    + destruct (exec_run_catch env e
                  (issue (SendMail
                            (mail_record env
                               (report_subject (toLocaleString env (trace w3))
                                  outs) body)) w3))
        as (t & w' & Hex & Hcode & Hnot & _ & _ & Hcase).
      exists t, w', outs, w3. split; [exact Hex|].
      repeat (split; [assumption|]).
      right. split; [exact Hhost|]. exists body. right. exists e.
      split; [exact Hmail|]. split; [exact Hcode|]. split; [exact Hnot|].
      destruct Hcase as [(Hhost' & _)|(_ & Htr & _)]; [congruence|].
      rewrite Htr. cbn [trace issue]. rewrite <- app_assoc. reflexivity.
Qed.


(** ** Sample runs of the multi-key script *)

Lemma run_list_failure_sample :
  (forall files json,
     axios_get FailureSample.list_down
       (trace Sample.start ++ [AxiosGet EXTERNAL_API_URL]) EXTERNAL_API_URL
     <> Resolved (VFiles files json))
  /\ exists t w',
       run script_config FailureSample.list_down Sample.keys Sample.start
       = Some (t, w')
       /\ exit_code t = 1
       /\ disk w' = disk Sample.start.
Proof.
  assert (H1 : forall files json,
            axios_get FailureSample.list_down
              (trace Sample.start ++ [AxiosGet EXTERNAL_API_URL])
              EXTERNAL_API_URL
            <> Resolved (VFiles files json))
    by (intros files json Heq; discriminate Heq).
  split; [exact H1|].
  destruct (run_list_failure script_config FailureSample.list_down
              Sample.keys Sample.start H1)
    as (e & t & w' & Hrun & _ & Hcode & _ & Hd & _).
  exists t, w'. split; [exact Hrun|]. split; [exact Hcode|exact Hd].
Defined.

Lemma run_batch_sample :
  1 <= CONCURRENCY_LIMIT script_config
  /\ axios_get Sample.mail_down_once
       (trace Sample.start ++ [AxiosGet EXTERNAL_API_URL]) EXTERNAL_API_URL
     = Resolved (VFiles Sample.listing (lit "[]"))
  /\ take (BATCH_SIZE script_config) (List.filter is_pending Sample.listing)
     <> []
  /\ exists t w' outs,
       run script_config Sample.mail_down_once Sample.keys Sample.start
       = Some (t, w')
       /\ length outs = 3
       /\ length (List.filter success outs)
          + length (List.filter (fun r => negb (success r)) outs) = 3.
Proof.
  assert (H1 : 1 <= CONCURRENCY_LIMIT script_config) by (simpl; lia).
  assert (H2 : axios_get Sample.mail_down_once
                 (trace Sample.start ++ [AxiosGet EXTERNAL_API_URL])
                 EXTERNAL_API_URL
               = Resolved (VFiles Sample.listing (lit "[]")))
    by (vm_compute; reflexivity).
  assert (H3 : take (BATCH_SIZE script_config)
                 (List.filter is_pending Sample.listing) <> [])
    by (vm_compute; discriminate).
  split; [exact H1|]. split; [exact H2|]. split; [exact H3|].
  destruct (run_batch script_config Sample.mail_down_once Sample.keys
              Sample.start Sample.listing (lit "[]") H1 H2 H3)
    as (t & w' & outs & w3 & Hrun & Hlen & Hsum & _).
  exists t, w', outs. split; [exact Hrun|]. split; [exact Hlen|exact Hsum].
Defined.


(** * Rely and guarantee for the queue *)

Section Sat.

Variable R : World -> World -> Prop.
Hypothesis R_refl : forall w, R w w.
Hypothesis R_trans : forall w1 w2 w3, R w1 w2 -> R w2 w3 -> R w1 w3.
Hypothesis R_issue : forall r w, R w (issue r w).

Lemma sat_weaken {A} (p : Prog A) :
  forall (pre pre' : World -> Prop) (Q Q' : A -> World -> Prop)
         (E E' : JsError -> World -> Prop),
  (forall w, pre' w -> pre w) ->
  (forall a w, Q a w -> Q' a w) ->
  (forall e w, E e w -> E' e w) ->
  sat R p pre Q E -> sat R p pre' Q' E'.
Proof.
  induction p as [a|e|C f k IH|r k IH]; intros pre pre' Q Q' E E' Hp HQ HE;
    cbn [sat].
  - intros Hs w Hw. apply HQ, Hs, Hp, Hw.
  - intros Hs w Hw. apply HE, Hs, Hp, Hw.
  - intros [Hstep Hk]. split; [intros w Hw; apply Hstep, Hp, Hw|].
    intros b. eapply (IH b); [| exact HQ | exact HE | apply Hk].
    intros w' (w0 & Hw0 & Hf). exists w0. split; [apply Hp, Hw0|exact Hf].
  - intros Hk s. eapply (IH s); [| exact HQ | exact HE | apply Hk].
    intros w' (w0 & Hw0 & Hr). exists w0. split; [apply Hp, Hw0|exact Hr].
Qed.

Lemma sat_bind {A B} (p : Prog A) (k : A -> Prog B) :
  forall (pre : World -> Prop) (Q1 : A -> World -> Prop)
         (Q : B -> World -> Prop) (E : JsError -> World -> Prop),
  sat R p pre Q1 E -> (forall a, sat R (k a) (Q1 a) Q E) ->
  sat R (bind p k) pre Q E.
Proof.
  induction p as [a|e|C f k' IH|r k' IH]; intros pre Q1 Q E Hp Hk;
    cbn [sat bind] in *.
  - eapply sat_weaken; [exact Hp| | |apply Hk]; auto.
  - exact Hp.
  - destruct Hp as [Hstep Hk']. split; [exact Hstep|].
    intros b. eapply IH; [apply Hk'|exact Hk].
  - intros s. eapply IH; [apply Hp|exact Hk].
Qed.

Lemma sat_try_catch {A} (p : Prog A) (h : JsError -> Prog A) :
  forall (pre : World -> Prop) (Q : A -> World -> Prop)
         (E1 E : JsError -> World -> Prop),
  sat R p pre Q E1 -> (forall e, sat R (h e) (E1 e) Q E) ->
  sat R (try_catch p h) pre Q E.
Proof.
  induction p as [a|e|C f k IH|r k IH]; intros pre Q E1 E Hp Hh;
    cbn [sat try_catch] in *.
  - exact Hp.
  - eapply sat_weaken; [exact Hp| | |apply Hh]; auto.
  - destruct Hp as [Hstep Hk]. split; [exact Hstep|].
    intros b. eapply IH; [apply Hk|exact Hh].
  - intros s. eapply IH; [apply Hp|exact Hh].
Qed.

(** After an await a stable assertion still holds, whether the request
    resolved or was rejected. *)
Lemma sat_await r (pre : World -> Prop) :
  stable R pre ->
  sat R (await r) pre (fun _ => pre) (fun _ => pre).
Proof.
  intros Hst. cbn [sat await]. intros [a|e]; cbn [sat];
    intros w (w0 & Hw0 & Hr); apply (Hst (issue r w0)); auto;
    apply (Hst w0); auto.
Qed.

Lemma sat_await_any r (pre : World -> Prop) :
  stable R pre ->
  sat R (await r) pre (fun _ => pre) (fun _ _ => True).
Proof.
  intros Hst. eapply sat_weaken; [| | |apply sat_await, Hst]; auto.
Qed.

(** A synchronous step that stays in [R] keeps a stable assertion. *)
Lemma sat_sync {B} (f : World -> B * World) (pre : World -> Prop)
  (E : JsError -> World -> Prop) :
  stable R pre -> (forall w, R w (snd (f w))) ->
  sat R (Sync f Ret) pre (fun _ => pre) E.
Proof.
  intros Hst Hf. cbn [sat]. split; [intros w _; apply Hf|].
  intros b w' (w0 & Hw0 & Hfw). apply (Hst w0); [exact Hw0|].
  specialize (Hf w0). rewrite Hfw in Hf. exact Hf.
Qed.

Lemma advance_sat {A} (p : Prog A) :
  forall (pre : World -> Prop) (Q : A -> World -> Prop) w,
  sat R p pre Q (fun _ _ => True) -> pre w ->
  R w (snd (advance p w))
  /\ resumes_sat R Q (fst (advance p w)) (snd (advance p w)).
Proof.
  induction p as [a|e|C f k IH|r k IH]; intros pre Q w Hp Hw;
    cbn [sat advance] in *.
  - split; [apply R_refl|]. cbn. apply Hp, Hw.
  - split; [apply R_refl|]. exact I.
  - destruct Hp as [Hstep Hk]. specialize (Hstep w Hw).
    destruct (f w) as [b w1] eqn:Hf. cbn [snd] in Hstep.
    destruct (IH b _ Q w1 (Hk b)) as [Hr Hs].
    { exists w. split; [exact Hw|exact Hf]. }
    split; [eapply R_trans; eassumption|exact Hs].
  - cbn [fst snd resumes_sat]. split; [apply R_issue|].
    exists (fun w'' => exists w0, pre w0 /\ R (issue r w0) w'').
    split; [exists w; split; [exact Hw|apply R_refl]|].
    split; [|exact Hp].
    intros w1 w2 (w0 & Hw0 & Hr) H12. exists w0.
    split; [exact Hw0|eapply R_trans; eassumption].
Qed.

End Sat.


Section PoolSat.

Context `{Slug.StringLib}.
Variable cfg : Config.
Variable env : Env.
Variable apiKeys : list (list N).
Variable model : list N.
Variable R : World -> World -> Prop.
Variable Q : Outcome -> World -> Prop.
Hypothesis R_refl : forall w, R w w.
Hypothesis R_trans : forall w1 w2 w3, R w1 w2 -> R w2 w3 -> R w1 w3.
Hypothesis R_issue : forall r w, R w (issue r w).
Hypothesis Q_stable : forall o, stable R (Q o).
Variable files : list File.
Hypothesis file_sat : forall f,
  f ∈ files ->
  sat R (processFile cfg env apiKeys f model) (fun _ => True) Q
    (fun _ _ => True).

Local Abbreviation worker_ok w :=
  (fun wk : Worker =>
     exists pre,
       pre w /\ stable R pre
       /\ forall s, sat R (cont wk s) pre Q (fun _ _ => True)).

Lemma results_transport rs w w' :
  Forall (fun o => Q o w) rs -> R w w' -> Forall (fun o => Q o w') rs.
Proof.
  intros Hrs Hr. eapply Forall_impl; [exact Hrs|].
  intros o Ho. cbn beta in *. eapply Q_stable; eassumption.
Qed.

Lemma workers_transport ws w w' :
  Forall (worker_ok w) ws -> R w w' -> Forall (worker_ok w') ws.
Proof.
  intros Hws Hr. eapply Forall_impl; [exact Hws|].
  intros wk (pre & Hpre & Hst & Hsat). exists pre.
  split; [eapply Hst; eassumption|]. split; assumption.
Qed.

Lemma worker_from_sat pending : forall s idx rs w o idx' rs' w',
  (forall f, f ∈ pending -> f ∈ files) ->
  resumes_sat R Q s w -> Forall (fun o => Q o w) rs ->
  worker_from cfg env apiKeys model s pending idx rs w
    = (Normal (o, idx', rs'), w') ->
  R w w' /\ Forall (fun o => Q o w') rs'
  /\ match o with Some wk => worker_ok w' wk | None => True end.
Proof.
  induction pending as [|file pending IH];
    intros s idx rs w o idx' rs' w' Hin Hs Hrs Hex;
    (destruct s as [[result|e]|r k]; cbn [worker_from] in Hex;
     [| discriminate |]).
  - injection Hex as <- <- <- <-. split; [apply R_refl|].
    split; [|exact I]. apply Forall_app. split; [exact Hrs|].
    constructor; [exact Hs|constructor].
  - injection Hex as <- <- <- <-. split; [apply R_refl|].
    split; [exact Hrs|exact Hs].
  - destruct (advance_sat R R_refl R_trans R_issue
                (processFile cfg env apiKeys file model) (fun _ => True) Q w
                (file_sat file (Hin file ltac:(left))) I) as [Hr1 Hs1].
    destruct (advance (processFile cfg env apiKeys file model) w)
      as [s1 w1]. cbn [fst snd] in Hr1, Hs1.
    destruct (IH s1 (S idx) (rs ++ [result]) w1 o idx' rs' w')
      as (Hr & Hrs' & Ho); try assumption.
    + intros f Hf. apply Hin. right. exact Hf.
    + apply (results_transport _ w); [|exact Hr1].
      apply Forall_app. split; [exact Hrs|].
      constructor; [exact Hs|constructor].
    + split; [eapply R_trans; eassumption|]. split; assumption.
  - injection Hex as <- <- <- <-. split; [apply R_refl|].
    split; [exact Hrs|exact Hs].
Qed.

Lemma worker_sat idx rs w o idx' rs' w' :
  Forall (fun o => Q o w) rs ->
  worker cfg env apiKeys model files idx rs w = (Normal (o, idx', rs'), w') ->
  R w w' /\ Forall (fun o => Q o w') rs'
  /\ match o with Some wk => worker_ok w' wk | None => True end.
Proof.
  intros Hrs. unfold worker.
  pose proof (subseteq_drop idx files) as Hsub.
  destruct (drop idx files) as [|file pending].
  - intros Hex. injection Hex as <- <- <- <-.
    split; [apply R_refl|]. split; [exact Hrs|exact I].
  - intros Hex.
    destruct (advance_sat R R_refl R_trans R_issue
                (processFile cfg env apiKeys file model) (fun _ => True) Q w
                (file_sat file (Hsub file ltac:(left))) I) as [Hr1 Hs1].
    destruct (advance (processFile cfg env apiKeys file model) w)
      as [s1 w1]. cbn [fst snd] in Hr1, Hs1.
    destruct (worker_from_sat pending s1 (S idx) rs w1 o idx' rs' w')
      as (Hr & Hrs' & Ho); try assumption.
    + intros f Hf. apply Hsub. right. exact Hf.
    + apply (results_transport _ w); assumption.
    + split; [eapply R_trans; eassumption|]. split; assumption.
Qed.

Lemma start_workers_sat n : forall q w q' w',
  pool_sat R Q q w ->
  start_workers cfg env apiKeys model files n q w = (Normal q', w') ->
  R w w' /\ pool_sat R Q q' w'.
Proof.
  induction n as [|n IH]; intros q w q' w' [Hrs Hws] Hst.
  - simpl in Hst. injection Hst as <- <-.
    split; [apply R_refl|]. split; assumption.
  - cbn [start_workers] in Hst.
    destruct (worker cfg env apiKeys model files (index q) (results q) w)
      as [[[[o i] rs]|e] w1] eqn:Hwk; [|discriminate].
    apply worker_sat in Hwk as (Hr1 & Hrs1 & Ho); [|exact Hrs].
    apply IH in Hst as [Hr Hinv].
    + split; [eapply R_trans; eassumption|exact Hinv].
    + split; [exact Hrs1|]. cbn [workers].
      pose proof (workers_transport _ _ _ Hws Hr1) as Hws1.
      destruct o as [wk|]; cbn [add_worker]; [|exact Hws1].
      apply Forall_app. split; [exact Hws1|].
      constructor; [exact Ho|constructor].
Qed.

Lemma pool_loop_sat fuel : forall q w outs w',
  pool_sat R Q q w ->
  pool_loop cfg env apiKeys fuel model files q w = Some (Normal outs, w') ->
  R w w' /\ Forall (fun o => Q o w') outs.
Proof.
  induction fuel as [|fuel IH]; intros q w outs w' [Hrs Hws] Hrun;
    cbn [pool_loop] in Hrun;
    destruct (workers q) as [|wk0 ws] eqn:Hq.
  1, 3: injection Hrun as <- <-; split; [apply R_refl|exact Hrs].
  - discriminate.
  - rewrite <- Hq in Hrun, Hws.
    set (j := schedule env (trace w) mod length (workers q)) in *.
    assert (Hj : j < length (workers q)).
    { apply Nat.mod_upper_bound. rewrite Hq. discriminate. }
    destruct (lookup_lt_is_Some_2 _ _ Hj) as [wk Hwk].
    rewrite (nth_lookup_Some _ _ wk0 _ Hwk) in Hrun.
    destruct (proj1 (Forall_lookup _ _) Hws j wk Hwk)
      as (pre & Hpre & Hst & Hsat).
    destruct (advance_sat R R_refl R_trans R_issue
                (cont wk (answer env (trace w) (req wk))) pre Q w
                (Hsat _) Hpre) as [Hr1 Hs1].
    destruct (advance (cont wk (answer env (trace w) (req wk))) w)
      as [s w1]. cbn [fst snd] in Hr1, Hs1.
    destruct (worker_from cfg env apiKeys model s (drop (index q) files)
                (index q) (results q) w1)
      as [[[[o i] rs]|e] w2] eqn:Hwf; [|discriminate].
    apply worker_from_sat in Hwf as (Hr2 & Hrs2 & Ho);
      [|apply subseteq_drop|exact Hs1
       |apply (results_transport _ w); assumption].
    assert (Hr : R w w2) by (eapply R_trans; eassumption).
    apply IH in Hrun as [Hr' Houts].
    + split; [eapply R_trans; eassumption|exact Houts].
    + split; [exact Hrs2|]. cbn [workers].
      pose proof (workers_transport _ _ _ Hws Hr) as Hws2.
      destruct o as [wk'|].
      * apply Forall_insert; assumption.
      * apply Forall_delete. exact Hws2.
Qed.

Lemma runQueue_sat fuel w outs w' :
  model = model_name env ->
  runQueue_fuel cfg env apiKeys fuel files w = Some (Normal outs, w') ->
  R w w' /\ Forall (fun o => Q o w') outs.
Proof.
  intros Hmodel Hrun. unfold runQueue_fuel in Hrun. rewrite <- Hmodel in Hrun.
  destruct (start_workers _ _ _ _ _ _ _ _) as [[q|e] w1] eqn:Hst;
    [|discriminate].
  apply start_workers_sat in Hst as [Hr1 Hinv].
  - apply (pool_loop_sat _ _ _ _ _ Hinv) in Hrun as [Hr2 Houts].
    split; [eapply R_trans; eassumption|exact Houts].
  - split; constructor.
Qed.

End PoolSat.


(** * The output directory under the queue *)

Section Evolves.

Variable L : nat.
Variable written : list N -> Prop.

Local Abbreviation R := (evolves L written).

Lemma evolves_refl w : R w w.
Proof.
  split; [auto|]. split; [reflexivity|]. split; [reflexivity|].
  split; [auto|]. intros k Hk. contradiction.
Qed.

Lemma evolves_trans w1 w2 w3 : R w1 w2 -> R w2 w3 -> R w1 w3.
Proof.
  intros (Hk1 & Hd1 & Ht1 & Hs1 & Hw1) (Hk2 & Hd2 & Ht2 & Hs2 & Hw2).
  split; [auto|]. split; [congruence|].
  split; [etransitivity; eassumption|]. split; [auto|].
  intros k Hk.
  destruct (decide (disk w2 !! k = disk w1 !! k)) as [Heq|Hne].
  - apply Hw2. congruence.
  - apply Hw1, Hne.
Qed.

Lemma evolves_issue r w : R w (issue r w).
Proof.
  split; [auto|]. split; [reflexivity|].
  split; [apply prefix_app_r; reflexivity|].
  split; [auto|]. intros k Hk. contradiction.
Qed.

Lemma evolves_print line w : R w (print line w).
Proof.
  split; [auto|]. split; [reflexivity|]. split; [reflexivity|].
  split; [auto|]. intros k Hk. contradiction.
Qed.

Lemma evolves_write name content w :
  written name -> R w (set_disk (<[name := content]> (disk w)) w).
Proof.
  intros Hname. split; [auto|]. split; [reflexivity|].
  split; [reflexivity|]. cbn [disk set_disk]. split.
  - intros k Hk. destruct (decide (name = k)) as [<-|Hne].
    + rewrite lookup_insert_eq. eauto.
    + rewrite lookup_insert_ne by exact Hne. exact Hk.
  - intros k Hk. destruct (decide (name = k)) as [<-|Hne]; [exact Hname|].
    rewrite lookup_insert_ne in Hk by exact Hne. contradiction.
Qed.

Lemma evolves_failed_write (oracle : Env) name content w :
  written name -> R w (after_failed_write oracle name content w).
Proof.
  intros Hname. unfold after_failed_write.
  destruct (writeFileSync_left oracle (trace w) name content);
    [apply evolves_write, Hname|apply evolves_refl].
Qed.

Lemma saved_stable o : stable R (saved o).
Proof.
  intros w1 w2 Hs (_ & _ & _ & Hkeep & _) Ho. apply Hkeep, Hs, Ho.
Qed.

Lemma on_disk_stable name :
  stable R (fun w => is_Some (disk w !! name)).
Proof. intros w1 w2 Hs (_ & _ & _ & Hkeep & _). apply Hkeep, Hs. Qed.

Lemma top_stable : stable R (fun _ => True).
Proof. intros w1 w2 _ _. exact I. Qed.

Context `{Slug.StringLib}.
Variable cfg : Config.
Variable env : Env.
Variable apiKeys : list (list N).
Hypothesis keys : L = length apiKeys.

Local Abbreviation any := (fun (_ : JsError) (_ : World) => True).

Lemma sat_console_log line pre :
  stable R pre -> sat R (console_log line) pre (fun _ => pre) any.
Proof.
  intros Hst. apply sat_sync; [exact Hst|]. intros w. apply evolves_print.
Qed.

Lemma sat_getNextGemini pre :
  stable R pre -> sat R (getNextGemini apiKeys) pre (fun _ => pre) any.
Proof.
  intros Hst. apply sat_sync; [exact Hst|]. intros w. cbn [snd].
  split.
  - cbn [keyIndex set_keyIndex]. intros Hk. rewrite keys in Hk |- *.
    apply Nat.mod_upper_bound. lia.
  - split; [reflexivity|]. split; [reflexivity|].
    split; [auto|]. intros k Hk. contradiction.
Qed.

Lemma sat_retry_loop prompt model fuel : forall a,
  sat R (retry_loop cfg apiKeys fuel a prompt model) (fun _ => True)
    (fun _ _ => True) any.
Proof.
  induction fuel as [|fuel IH]; intros a; [intros w _; exact I|].
  cbn [retry_loop].
  destruct (a <? MAX_RETRIES cfg); [|intros w _; exact I].
  apply sat_try_catch with (E1 := fun _ _ => True).
  - apply sat_bind with (Q1 := fun _ _ => True); [|intros text w _; exact I].
    unfold attempt.
    apply sat_bind with (Q1 := fun _ _ => True); [apply sat_getNextGemini, top_stable|]. intros ai.
    apply sat_bind with (Q1 := fun _ _ => True).
    { apply (sat_await_any R evolves_issue), top_stable. }
    intros ?.
    apply sat_bind with (Q1 := fun _ _ => True).
    { apply (sat_await_any R evolves_issue), top_stable. }
    intros [[|c t]|]; intros w _; exact I.
  - intros e.
    apply sat_bind with (Q1 := fun _ _ => True); [apply sat_console_log, top_stable|]. intros ?.
    apply sat_bind with (Q1 := fun _ _ => True).
    { destruct (bool_decide _);
        [apply sat_console_log, top_stable|intros w _; exact I]. }
    intros ?.
    apply sat_bind with (Q1 := fun _ _ => True).
    { apply (sat_await_any R evolves_issue), top_stable. }
    intros ?.
    destruct (MAX_RETRIES cfg <=? S a); [intros w _; exact I|apply IH].
Qed.

Lemma sat_processFile file model :
  written (Slug.generateSafeFilename (originalFilename file)) ->
  sat R (processFile cfg env apiKeys file model) (fun _ => True) saved any.
Proof.
  intros Hname. unfold processFile.
  set (safe := Slug.generateSafeFilename (originalFilename file)) in *.
  apply sat_bind with (Q1 := fun _ _ => True);
    [apply sat_console_log, top_stable|]. intros ?.
  apply sat_try_catch with (E1 := fun _ _ => True).
  - apply sat_bind with (Q1 := fun _ _ => True).
    { apply (sat_await_any R evolves_issue), top_stable. }
    intros v.
    apply sat_bind with (Q1 := fun _ _ => True); [apply sat_retry_loop|].
    intros content.
    apply sat_bind
      with (Q1 := fun _ w => is_Some (disk w !! safe)).
    { destruct content as [content|]; cbn [writeFileSync sat];
        [|intros w _; exact I].
      split.
      - intros w _.
        destruct (writeFileSync_error env (trace w) safe content);
          [apply evolves_failed_write, Hname|apply evolves_write, Hname].
      - intros [e|]; cbn [sat]; [intros w _; exact I|].
        intros w' (w0 & _ & Hf).
        destruct (writeFileSync_error env (trace w0) safe content);
          [discriminate|].
        injection Hf as <-. cbn [disk set_disk].
        rewrite lookup_insert_eq. eauto. }
    intros ?.
    apply sat_bind with (Q1 := fun _ w => is_Some (disk w !! safe)).
    { apply sat_sync with (f := fun w => (Date_now env (trace w), w));
        [apply on_disk_stable|intros w; apply evolves_refl]. }
    intros timestamp.
    apply sat_bind with (Q1 := fun _ w => is_Some (disk w !! safe)).
    { apply (sat_await_any R evolves_issue), on_disk_stable. }
    intros ?.
    apply sat_bind with (Q1 := fun _ w => is_Some (disk w !! safe));
      [apply sat_console_log, on_disk_stable|]. intros ?.
    intros w Hw _. exact Hw.
  - intros e.
    apply sat_bind with (Q1 := fun _ _ => True);
      [apply sat_console_log, top_stable|]. intros ?.
    intros w _ Hs. discriminate Hs.
Qed.

End Evolves.

(** The output directory and the cursor under [runQueue], however the
    workers interleave.  The call returns; the cursor, if it was on a key,
    still is; the requests issued before are still the first of the trace;
    no file of the output directory has gone; the names created or
    overwritten are slugs of files of the batch; and the file of every
    successful outcome is in the directory. *)
Theorem runQueue_output_directory `{Slug.StringLib} (cfg : Config)
  (env : Env) (apiKeys : list (list N)) (files : list File) (w : World) :
  1 <= CONCURRENCY_LIMIT cfg ->
  exists outs w',
    runQueue cfg env apiKeys files w = Some (Normal outs, w')
    /\ (keyIndex w < length apiKeys -> keyIndex w' < length apiKeys)
    /\ dir_exists w' = dir_exists w
    /\ trace w `prefix_of` trace w'
    /\ (forall k, is_Some (disk w !! k) -> is_Some (disk w' !! k))
    /\ (forall k, disk w' !! k <> disk w !! k ->
          exists f,
            f ∈ files
            /\ k = Slug.generateSafeFilename (originalFilename f))
    /\ Forall (fun o => success o = true -> is_Some (disk w' !! name o)) outs.
Proof.
  intros Hc.
  destruct (runQueue_fuel_spec cfg env apiKeys (model_name env) files
              (length files * awaits_per_file cfg) w Hc (le_n _) eq_refl)
    as (outs & w' & done & Hrun & _ & _).
  exists outs, w'. split; [exact Hrun|].
  set (written := fun k =>
         exists f, f ∈ files
                   /\ k = Slug.generateSafeFilename (originalFilename f)).
  destruct (runQueue_sat cfg env apiKeys (model_name env)
              (evolves (length apiKeys) written) saved
              (evolves_refl _ _) (evolves_trans _ _) (evolves_issue _ _)
              (saved_stable _ _) files)
    with (fuel := length files * awaits_per_file cfg) (w := w)
         (outs := outs) (w' := w')
    as [(Hk & Hd & Ht & Hkeep & Hnew) Houts]; try reflexivity;
    try exact Hrun.
  - intros f Hf. apply sat_processFile; [reflexivity|].
    exists f. split; [exact Hf|reflexivity].
  - repeat (split; [assumption|]). exact Houts.
Qed.


Lemma runQueue_output_directory_sample :
  1 <= CONCURRENCY_LIMIT script_config
  /\ exists outs w',
       runQueue script_config Sample.flaky Sample.keys
         (List.filter is_pending Sample.listing) Sample.start
       = Some (Normal outs, w')
       /\ keyIndex w' < length Sample.keys
       /\ Forall (fun o => success o = true -> is_Some (disk w' !! name o))
            outs.
Proof.
  assert (Hc : 1 <= CONCURRENCY_LIMIT script_config) by (simpl; lia).
  split; [exact Hc|].
  destruct (runQueue_output_directory script_config Sample.flaky Sample.keys
              (List.filter is_pending Sample.listing) Sample.start Hc)
    as (outs & w' & Hrun & Hk & _ & _ & _ & _ & Houts).
  exists outs, w'. split; [exact Hrun|]. split; [|exact Houts].
  apply Hk. simpl. lia.
Defined.

(** * The keys of the multi-key script *)

Lemma str_leb_total a : forall b, str_leb a b = true \/ str_leb b a = true.
Proof.
  induction a as [|x a IH]; intros b; [left; reflexivity|].
  destruct b as [|y b]; [right; reflexivity|]. cbn [str_leb].
  destruct (IH b) as [Hab|Hba];
    destruct (N.ltb_spec x y), (N.ltb_spec y x), (N.eqb_spec x y),
      (N.eqb_spec y x); cbn; try lia; auto.
Qed.

Lemma insert_sorted_perm k l : insert_sorted k l ≡ₚ k :: l.
Proof.
  induction l as [|k' l IH]; [reflexivity|]. cbn [insert_sorted].
  destruct (str_leb k k'); [reflexivity|].
  rewrite IH. apply Permutation_swap.
Qed.

Lemma sort_perm l : sort l ≡ₚ l.
Proof.
  induction l as [|k l IH]; [reflexivity|].
  cbn [sort fold_right]. fold (sort l).
  rewrite insert_sorted_perm, IH. reflexivity.
Qed.

Lemma insert_sorted_sorted k l :
  Sorted (fun a b => str_leb a b = true) l ->
  Sorted (fun a b => str_leb a b = true) (insert_sorted k l).
Proof.
  induction 1 as [|k' l Hl IH Hhd]; cbn [insert_sorted].
  - repeat constructor.
  - destruct (str_leb k k') eqn:Hk.
    + constructor; [constructor; assumption|constructor; exact Hk].
    + constructor; [exact IH|].
      assert (Hk' : str_leb k' k = true)
        by (destruct (str_leb_total k k'); congruence).
      destruct Hhd as [|k2 l2 Hk2]; cbn [insert_sorted];
        [constructor; exact Hk'|].
      destruct (str_leb k k2); constructor; assumption.
Qed.

Lemma sort_sorted l : Sorted (fun a b => str_leb a b = true) (sort l).
Proof.
  induction l as [|k l IH]; [constructor|].
  cbn [sort fold_right]. fold (sort l). apply insert_sorted_sorted, IH.
Qed.

(** The keys the module loads.  They are the non-empty values of the
    variables whose names start with [GEMINI_API_KEY], taken in the order
    of the names sorted by code units: an empty value is dropped, a
    variable with another name is never used, and every variable with such
    a name and a non-empty value gives a key. *)
Theorem load_apiKeys_spec (env : Env) :
  exists names,
    names ≡ₚ List.filter (startsWith (lit "GEMINI_API_KEY"))
               (List.map fst (process_env env))
    /\ Sorted (fun a b => str_leb a b = true) names
    /\ load_apiKeys env
       = omap (fun name => match getenv env name with
                           | Some (c :: s) => Some (c :: s)
                           | _ => None
                           end) names
    /\ Forall (fun key =>
                 key <> []
                 /\ exists name,
                      startsWith (lit "GEMINI_API_KEY") name = true
                      /\ getenv env name = Some key)
         (load_apiKeys env)
    /\ (forall name,
          startsWith (lit "GEMINI_API_KEY") name = true ->
          env_truthy env name = true ->
          exists key, getenv env name = Some key /\ key ∈ load_apiKeys env).
Proof.
  exists (sort (List.filter (startsWith (lit "GEMINI_API_KEY"))
                  (List.map fst (process_env env)))).
  split; [apply sort_perm|]. split; [apply sort_sorted|].
  split; [reflexivity|]. split.
  - unfold load_apiKeys.
    pose proof (Forall_sort _ _
                  (Forall_filter_true (startsWith (lit "GEMINI_API_KEY"))
                     (List.map fst (process_env env)))) as Hall.
    induction Hall as [|name names Hname _ IH]; [constructor|].
    cbn [omap list_omap].
    destruct (getenv env name) as [[|c s]|] eqn:Hget; try exact IH.
    constructor; [|exact IH]. split; [discriminate|].
    exists name. split; [exact Hname|exact Hget].
  - intros name Hname Htruthy. unfold env_truthy in Htruthy.
    destruct (getenv env name) as [[|c s]|] eqn:Hget; try discriminate.
    exists (c :: s). split; [reflexivity|].
    unfold load_apiKeys. apply list_elem_of_omap. exists name.
    rewrite Hget. split; [|reflexivity].
    rewrite sort_perm. apply list_elem_of_In, List.filter_In.
    split; [|exact Hname].
    unfold getenv in Hget.
    destruct (List.find _ (process_env env)) as [[k v]|] eqn:Hfind;
      [|discriminate].
    apply List.find_some in Hfind as [Hin Heq].
    cbn [fst] in Heq. unfold str_eqb in Heq.
    apply bool_decide_eq_true in Heq. subst k.
    apply List.in_map_iff. exists (name, v). split; [reflexivity|exact Hin].
Qed.


(** * The whole run *)

(** A program that runs alone is a special case: nothing happens while it
    waits. *)
Lemma exec_sat (R : World -> World -> Prop) env {A} (p : Prog A) :
  (forall w, R w w) ->
  (forall w1 w2 w3, R w1 w2 -> R w2 w3 -> R w1 w3) ->
  (forall r w, R w (issue r w)) ->
  forall (pre : World -> Prop) (Q : A -> World -> Prop)
         (E : JsError -> World -> Prop) w,
  sat R p pre Q E -> pre w -> R w (snd (exec env p w)).
Proof.
  intros R_refl R_trans R_issue.
  induction p as [a|e|C f k IH|r k IH]; intros pre Q E w Hp Hw;
    cbn [sat exec] in *.
  - apply R_refl.
  - apply R_refl.
  - destruct Hp as [Hstep Hk]. specialize (Hstep w Hw).
    destruct (f w) as [b w1] eqn:Hf. cbn [snd] in Hstep.
    eapply R_trans; [exact Hstep|].
    eapply IH; [apply Hk|]. exists w. split; [exact Hw|exact Hf].
  - eapply R_trans; [apply R_issue|].
    eapply IH; [apply Hp|]. exists w. split; [exact Hw|apply R_refl].
Qed.

Section RunEvolves.

Context `{Slug.StringLib}.
Variable cfg : Config.
Variable env : Env.
Variable apiKeys : list (list N).

Local Abbreviation written :=
  (fun k : list N =>
     exists original, k = Slug.generateSafeFilename original).
Local Abbreviation R := (evolves (length apiKeys) written).
Local Abbreviation any := (fun (_ : JsError) (_ : World) => True).
Local Abbreviation top := (fun _ : World => True).

Lemma sat_sendEmail subject text :
  sat R (sendEmail env subject text) top (fun _ => top) any.
Proof.
  unfold sendEmail. destruct (negb _); [intros w _; exact I|].
  apply (sat_await_any R (evolves_issue _ _)), top_stable.
Qed.

Lemma sat_sendBatchEmail succeeded failed :
  sat R (sendBatchEmail env succeeded failed) top (fun _ => top) any.
Proof.
  unfold sendBatchEmail.
  apply sat_bind with (Q1 := fun _ _ => True).
  { apply sat_sync with (f := fun w => (toLocaleString env (trace w), w));
      [apply top_stable|intros w; apply evolves_refl]. }
  intros dateTimeStr.
  apply sat_bind with (Q1 := fun _ _ => True).
  { unfold getFolderStats. apply sat_sync; [apply top_stable|].
    intros w. destruct (negb (dir_exists w)); apply evolves_refl. }
  intros folderStats. apply sat_sendEmail.
Qed.

Lemma sat_fetch_pending :
  sat R (fetch_pending cfg) top (fun _ => top) any.
Proof.
  unfold fetch_pending.
  apply sat_bind with (Q1 := fun _ _ => True).
  { apply (sat_await_any R (evolves_issue _ _)), top_stable. }
  intros [s|files json|json]; intros w _; exact I.
Qed.

Lemma run_evolves w :
  1 <= CONCURRENCY_LIMIT cfg ->
  exists t w',
    run cfg env apiKeys w = Some (t, w')
    /\ R w w' /\ exit_code t <= 1 /\ (forall e, t <> Uncaught e).
Proof.
  intros Hc.
  assert (Hexec : forall {A} (p : Prog A) w1,
            sat R p top (fun _ => top) any -> R w1 (snd (exec env p w1))).
  { intros A p w1 Hp.
    apply (exec_sat R env p (evolves_refl _ _) (evolves_trans _ _)
             (evolves_issue _ _) top (fun _ => top) any w1 Hp I). }
  assert (Hcatch : forall e w1, R w w1 ->
    exists t w',
      (match exec env
               (bind (console_log (lit "Fatal error: " ++ message e))
                  (fun _ => sendEmail env (lit "Batch Failed") (message e)))
               w1 with
       | (Normal _, w2) => Some (Exited 1, w2)
       | (Thrown e2, w2) => Some (Unhandled e2, w2)
       end) = Some (t, w')
      /\ R w w' /\ exit_code t <= 1 /\ (forall e0, t <> Uncaught e0)).
  { intros e w1 Hw1.
    pose proof (Hexec _
                  (bind (console_log (lit "Fatal error: " ++ message e))
                     (fun _ => sendEmail env (lit "Batch Failed") (message e)))
                  w1) as Hr.
    destruct (exec env _ w1) as [[u|e2] w2]; cbn [snd] in Hr;
      eexists _, _; (split; [reflexivity|]);
      (split; [eapply evolves_trans; [exact Hw1|apply Hr]|]);
      try (split; [cbn; lia|intros e0; discriminate]);
      apply sat_bind with (Q1 := fun _ _ => True);
      try (apply sat_console_log, top_stable);
      intros ?; apply sat_sendEmail. }
  unfold run, run_try.
  set (w0 := print _ w).
  assert (Hw0 : R w w0) by apply evolves_print.
  pose proof (Hexec _ (fetch_pending cfg) w0 sat_fetch_pending) as Hfetch.
  destruct (exec env (fetch_pending cfg) w0) as [[[|f rest]|e] w1];
    cbn [snd] in Hfetch.
  - cbn [exec console_log]. eexists _, _. split; [reflexivity|].
    split.
    { eapply evolves_trans; [exact Hw0|].
      eapply evolves_trans; [exact Hfetch|apply evolves_print]. }
    split; [cbn; lia|intros e; discriminate].
  - set (w2 := print _ w1).
    destruct (runQueue_fuel_spec cfg env apiKeys (model_name env) (f :: rest)
                (length (f :: rest) * awaits_per_file cfg) w2 Hc (le_n _)
                eq_refl)
      as (outs & w3 & done & Hrun & _ & _).
    unfold runQueue. rewrite Hrun.
    destruct (runQueue_sat cfg env apiKeys (model_name env) R saved
                (evolves_refl _ _) (evolves_trans _ _) (evolves_issue _ _)
                (saved_stable _ _) (f :: rest))
      with (fuel := length (f :: rest) * awaits_per_file cfg) (w := w2)
           (outs := outs) (w' := w3)
      as [Hq _]; try reflexivity; try exact Hrun.
    { intros f0 _. apply sat_processFile; [reflexivity|]. eexists.
      reflexivity. }
    assert (Hw3 : R w w3).
    { eapply evolves_trans; [exact Hw0|].
      eapply evolves_trans; [exact Hfetch|].
      eapply evolves_trans; [apply evolves_print|exact Hq]. }
    match goal with
    | |- context [exec env ?p w3] =>
        pose proof (Hexec _ p w3) as Hmail
    end.
    destruct (exec env _ w3) as [[u|e] w4]; cbn [snd] in Hmail.
    + eexists _, _. split; [reflexivity|].
      split; [eapply evolves_trans; [exact Hw3|apply Hmail]|];
        try (split; [cbn; lia|intros e; discriminate]).
      apply sat_bind with (Q1 := fun _ _ => True);
        [apply sat_sendBatchEmail|].
      intros ?. apply sat_console_log, top_stable.
    + apply Hcatch. eapply evolves_trans; [exact Hw3|apply Hmail].
      apply sat_bind with (Q1 := fun _ _ => True);
        [apply sat_sendBatchEmail|].
      intros ?. apply sat_console_log, top_stable.
  - apply Hcatch. eapply evolves_trans; [exact Hw0|exact Hfetch].
Qed.

End RunEvolves.


(** The multi-key script as a whole.  With at least one worker the module
    always comes to an end, with exit code 0 or 1; it ends with the uncaught
    configuration error exactly when no key is loaded.  At the end the
    output directory exists, the requests issued before are still the first
    of the trace, no file of the directory has gone, every name created or
    overwritten is a name [generateSafeFilename] returns, and the cursor is
    on a key. *)
Theorem main_output_directory `{Slug.StringLib} (cfg : Config) (env : Env)
  (w : World) :
  1 <= CONCURRENCY_LIMIT cfg ->
  exists t w',
    main cfg env w = Some (t, w')
    /\ exit_code t <= 1
    /\ ((exists e, t = Uncaught e) <-> load_apiKeys env = [])
    /\ dir_exists w' = true
    /\ trace w `prefix_of` trace w'
    /\ (forall k, is_Some (disk w !! k) -> is_Some (disk w' !! k))
    /\ (forall k, disk w' !! k <> disk w !! k ->
          exists original, k = Slug.generateSafeFilename original)
    /\ (load_apiKeys env <> [] -> keyIndex w' < length (load_apiKeys env)).
Proof.
  intros Hc. unfold main.
  set (w1 := if negb (dir_exists w) then mkdirSync w else w).
  assert (Hdir : dir_exists w1 = true)
    by (unfold w1; destruct (dir_exists w) eqn:Hd; [exact Hd|reflexivity]).
  assert (Ht1 : trace w1 = trace w)
    by (unfold w1; destruct (dir_exists w); reflexivity).
  assert (Hd1 : disk w1 = disk w)
    by (unfold w1; destruct (dir_exists w); reflexivity).
  clearbody w1.
  destruct (load_apiKeys env) as [|key keys] eqn:Hkeys; cbn [length Nat.eqb].
  - eexists _, _. split; [reflexivity|]. split; [cbn; lia|].
    split; [split; [reflexivity|eauto]|]. split; [exact Hdir|].
    split; [rewrite Ht1; reflexivity|]. rewrite Hd1.
    split; [auto|]. split; [intros k Hk|intros Hk]; contradiction.
  - match goal with
    | |- context [run cfg env (key :: keys) ?w2] =>
        destruct (run_evolves cfg env (key :: keys) w2 Hc)
          as (t & w' & Hrun & (Hk & Hd & Ht & Hkeep & Hnew) & Hcode & Hnot)
    end.
    exists t, w'. split; [exact Hrun|]. split; [exact Hcode|].
    cbn [keyIndex trace dir_exists disk set_keyIndex print] in Hk, Hd, Ht,
      Hkeep, Hnew.
    split.
    { split; [intros [e He]; destruct (Hnot e He)|discriminate]. }
    split; [congruence|]. split; [rewrite <- Ht1; exact Ht|].
    rewrite Hd1 in Hkeep, Hnew.
    split; [exact Hkeep|]. split; [exact Hnew|].
    intros _. apply Hk. cbn [length]. lia.
Qed.

Lemma endsWith_app p s : endsWith p (s ++ p) = true.
Proof.
  unfold endsWith. rewrite rev_app_distr. apply SlugFacts.startsWith_app.
Qed.

(** The names [generateSafeFilename] returns are single path components:
    such a name ends with [.mdx], holds no [/] and no NUL, and is neither
    [.] nor [..]; so [path.join(GENERATED_DIR, name)] is a file directly
    in the output directory, whatever the original file name was. *)
Theorem generateSafeFilename_stays_in_directory `{Slug.StringLib}
  (originalFilename : list N) :
  let name := Slug.generateSafeFilename originalFilename in
  endsWith (lit ".mdx") name = true
  /\ ~ In 47%N name /\ ~ In 0%N name
  /\ name <> lit "." /\ name <> lit "..".
Proof.
  intros name. unfold name, Slug.generateSafeFilename.
  pose proof (SlugFacts.slug_chars originalFilename) as Hchars.
  rewrite Forall_forall in Hchars.
  split; [apply endsWith_app|].
  split.
  { intros Hin. apply List.in_app_or in Hin as [Hin|Hin].
    - apply list_elem_of_In, Hchars in Hin. discriminate.
    - cbn in Hin. repeat destruct Hin as [Hin|Hin]; try discriminate.
      exact Hin. }
  split.
  { intros Hin. apply List.in_app_or in Hin as [Hin|Hin].
    - apply list_elem_of_In, Hchars in Hin. discriminate.
    - cbn in Hin. repeat destruct Hin as [Hin|Hin]; try discriminate.
      exact Hin. }
  split; intros Heq; apply (f_equal (@length N)) in Heq;
    rewrite length_app in Heq; cbn in Heq; lia.
Qed.

(** The folder statistics of the report.  When the output directory exists
    and holds only [.mdx] files before [runQueue], it still does
    afterwards: [getFolderStats] reports as many MDX files as files, namely
    the number of files in the directory, which has not gone down.
    [getFolderStats] changes nothing. *)
Theorem getFolderStats_after_queue `{Slug.StringLib} (cfg : Config)
  (env : Env) (apiKeys : list (list N)) (files : list File) (w : World) :
  1 <= CONCURRENCY_LIMIT cfg ->
  dir_exists w = true ->
  (forall k, is_Some (disk w !! k) -> endsWith (lit ".mdx") k = true) ->
  exists outs w',
    runQueue cfg env apiKeys files w = Some (Normal outs, w')
    /\ exec env getFolderStats w'
       = (Normal (size (disk w'), size (disk w')), w')
    /\ size (disk w) <= size (disk w').
Proof.
  intros Hc Hdir Hmdx.
  destruct (runQueue_fuel_spec cfg env apiKeys (model_name env) files
              (length files * awaits_per_file cfg) w Hc (le_n _) eq_refl)
    as (outs & w' & done & Hrun & _ & _).
  exists outs, w'. split; [exact Hrun|].
  set (written := fun k : list N =>
         exists original, k = Slug.generateSafeFilename original).
  destruct (runQueue_sat cfg env apiKeys (model_name env)
              (evolves (length apiKeys) written) saved
              (evolves_refl _ _) (evolves_trans _ _) (evolves_issue _ _)
              (saved_stable _ _) files)
    with (fuel := length files * awaits_per_file cfg) (w := w)
         (outs := outs) (w' := w')
    as [(_ & Hd & _ & Hkeep & Hnew) _]; try reflexivity; try exact Hrun.
  { intros f _. apply sat_processFile; [reflexivity|]. eexists.
    reflexivity. }
  assert (Hall : Forall (fun k => endsWith (lit ".mdx") k = true)
                   (map_to_list (disk w')).*1).
  { apply Forall_forall. intros k Hk.
    apply list_elem_of_fmap in Hk as ([k' v] & -> & Hkv). cbn [fst].
    apply elem_of_map_to_list in Hkv.
    destruct (decide (disk w' !! k' = disk w !! k')) as [Heq|Hne].
    - apply Hmdx. rewrite <- Heq, Hkv. eauto.
    - destruct (Hnew k' Hne) as (original & ->).
      apply endsWith_app. }
  split.
  - unfold getFolderStats. cbn [exec]. rewrite Hd, Hdir. cbn [negb].
    rewrite length_fmap, length_map_to_list.
    assert (Hfilter : forall l : list (list N),
              Forall (fun k => endsWith (lit ".mdx") k = true) l ->
              List.filter (endsWith (lit ".mdx")) l = l).
    { induction 1 as [|k l Hk _ IH]; [reflexivity|].
      cbn [List.filter]. rewrite Hk, IH. reflexivity. }
    rewrite (Hfilter _ Hall), length_fmap, length_map_to_list. reflexivity.
  - rewrite <- !size_dom. apply subseteq_size.
    intros k Hk. apply elem_of_dom in Hk. apply elem_of_dom, Hkeep, Hk.
Qed.

Lemma main_output_directory_sample :
  1 <= CONCURRENCY_LIMIT script_config
  /\ exists t w',
       main script_config Sample.flaky Sample.start = Some (t, w')
       /\ exit_code t <= 1
       /\ dir_exists w' = true
       /\ keyIndex w' < 3.
Proof.
  assert (Hc : 1 <= CONCURRENCY_LIMIT script_config) by (simpl; lia).
  split; [exact Hc|].
  destruct (main_output_directory script_config Sample.flaky Sample.start Hc)
    as (t & w' & Hmain & Hcode & _ & Hdir & _ & _ & _ & Hk).
  exists t, w'. split; [exact Hmain|]. split; [exact Hcode|].
  split; [exact Hdir|]. apply Hk. vm_compute. discriminate.
Defined.

Lemma getFolderStats_after_queue_sample :
  1 <= CONCURRENCY_LIMIT script_config
  /\ dir_exists (initial_world true ∅) = true
  /\ (forall k, is_Some (disk (initial_world true ∅) !! k) ->
                endsWith (lit ".mdx") k = true)
  /\ exists outs w',
       runQueue script_config Sample.healthy Sample.keys
         (List.filter is_pending Sample.listing) (initial_world true ∅)
       = Some (Normal outs, w')
       /\ exec Sample.healthy getFolderStats w'
          = (Normal (size (disk w'), size (disk w')), w').
Proof.
  assert (Hc : 1 <= CONCURRENCY_LIMIT script_config) by (simpl; lia).
  assert (Hm : forall k, is_Some (disk (initial_world true ∅) !! k) ->
                         endsWith (lit ".mdx") k = true).
  { intros k [v Hk]. cbn [disk initial_world] in Hk.
    rewrite lookup_empty in Hk. discriminate Hk. }
  split; [exact Hc|]. split; [reflexivity|]. split; [exact Hm|].
  destruct (getFolderStats_after_queue script_config Sample.healthy
              Sample.keys (List.filter is_pending Sample.listing)
              (initial_world true ∅) Hc eq_refl Hm)
    as (outs & w' & Hrun & Hstats & _).
  exists outs, w'. split; [exact Hrun|exact Hstats].
Defined.


(** * Names without a word character *)

Module SlugEdge.
Import Slug.

Lemma In_trimStart c s :
  In c s -> is_space c = false -> In c (trimStart s).
Proof.
  induction s as [|x s IH]; intros Hin Hc; [exact Hin|].
  cbn [trimStart]. destruct (is_space x) eqn:Hx; [|exact Hin].
  destruct Hin as [->|Hin]; [congruence|]. apply IH; assumption.
Qed.

Lemma In_trim c s : In c s -> is_space c = false -> In c (trim s).
Proof.
  intros Hin Hc. unfold trim. apply -> List.in_rev.
  apply In_trimStart; [|exact Hc]. apply -> List.in_rev.
  apply In_trimStart; assumption.
Qed.

Lemma In_replace_runs p r c s : forall b,
  In c s -> p c = false -> In c (replace_runs p r b s).
Proof.
  induction s as [|x s IH]; intros b Hin Hc; [exact Hin|].
  cbn [replace_runs]. destruct Hin as [->|Hin].
  - rewrite Hc. left. reflexivity.
  - destruct (p x); [destruct b|]; try right; apply IH; assumption.
Qed.

Lemma In_strip_leading c s :
  In c s -> is_hyphen c = false -> In c (strip_leading s).
Proof.
  destruct s as [|x s]; intros Hin Hc; [exact Hin|]. cbn [strip_leading].
  destruct (is_hyphen x) eqn:Hx; [|exact Hin].
  destruct Hin as [->|Hin]; [congruence|exact Hin].
Qed.

Lemma In_strip_trailing c s :
  In c s -> is_hyphen c = false -> In c (strip_trailing s).
Proof.
  induction s as [|x s IH]; intros Hin Hc; [exact Hin|].
  cbn [strip_trailing]. destruct s as [|y s].
  - destruct Hin as [->|[]]. rewrite Hc. left. reflexivity.
  - destruct Hin as [->|Hin]; [left; reflexivity|right].
    apply IH; assumption.
Qed.

Lemma is_word_plain c :
  is_word c = true -> is_space c = false /\ is_hyphen c = false.
Proof.
  intros Hw. split.
  - apply SlugFacts.is_slug_not_space. unfold is_slug. rewrite Hw.
    reflexivity.
  - unfold is_word, is_hyphen, hyphen in *. SlugFacts.compare_units.
Qed.

(** Runs of hyphens only. *)
Lemma replace_runs_hyphens s :
  Forall (fun c => is_hyphen c = true) s ->
  replace_runs is_hyphen hyphen true s = []
  /\ (replace_runs is_hyphen hyphen false s = []
      \/ replace_runs is_hyphen hyphen false s = [hyphen]).
Proof.
  induction 1 as [|c s Hc _ [IH _]]; [split; [reflexivity|left; reflexivity]|].
  cbn [replace_runs]. rewrite Hc, IH. split; [reflexivity|right; reflexivity].
Qed.

Lemma replace_runs_spaces s : forall b,
  Forall (fun c => is_space c = true \/ is_hyphen c = true) s ->
  Forall (fun c => is_hyphen c = true) (replace_runs is_space hyphen b s).
Proof.
  induction s as [|c s IH]; intros b Hs; [constructor|].
  apply Forall_cons in Hs as [Hc Hs]. cbn [replace_runs].
  destruct (is_space c) eqn:Hsp.
  - destruct b; [apply IH, Hs|constructor; [reflexivity|apply IH, Hs]].
  - destruct Hc as [Hc|Hc]; [congruence|].
    constructor; [exact Hc|apply IH, Hs].
Qed.

End SlugEdge.

(** When [generateSafeFilename] returns the bare extension.  The name is
    [.mdx], with an empty slug, exactly when the lower-cased and normalised
    base name holds no letter, digit or underscore: the empty name, and
    every name made of punctuation, spaces and other symbols only. *)
Theorem generateSafeFilename_bare_extension `{Slug.StringLib}
  (originalFilename : list N) :
  Slug.generateSafeFilename originalFilename = lit ".mdx"
  <-> Forall (fun c => Slug.is_word c = false)
        (Slug.normalize_NFKD
           (Slug.toLowerCase (Slug.path_parse_name originalFilename))).
Proof.
  unfold Slug.generateSafeFilename, Slug.slug_of.
  set (base := Slug.normalize_NFKD _).
  split.
  - intros Heq. apply Forall_forall. intros c Hc.
    destruct (Slug.is_word c) eqn:Hw; [|reflexivity]. exfalso.
    destruct (SlugEdge.is_word_plain c Hw) as [Hsp Hhy].
    apply list_elem_of_In in Hc.
    assert (Hin : In c (Slug.strip_hyphen_ends
                          (Slug.collapse_hyphens
                             (Slug.spaces_to_hyphen
                                (Slug.trim (Slug.remove_special base)))))).
    { unfold Slug.strip_hyphen_ends.
      apply SlugEdge.In_strip_trailing; [|exact Hhy].
      apply SlugEdge.In_strip_leading; [|exact Hhy].
      apply SlugEdge.In_replace_runs; [|exact Hhy].
      apply SlugEdge.In_replace_runs; [|exact Hsp].
      apply SlugEdge.In_trim; [|exact Hsp].
      apply List.filter_In. split; [exact Hc|]. rewrite Hw. reflexivity. }
    apply (f_equal (@length N)) in Heq. rewrite length_app in Heq.
    destruct (Slug.strip_hyphen_ends _) as [|x slug]; [destruct Hin|].
    cbn in Heq. lia.
  - intros Hbase.
    assert (Hrem : Forall (fun c => Slug.is_space c = true
                                    \/ Slug.is_hyphen c = true)
                     (Slug.trim (Slug.remove_special base))).
    { apply SlugFacts.Forall_trim. unfold Slug.remove_special.
      apply Forall_forall. intros c Hc.
      apply list_elem_of_In, List.filter_In in Hc as [Hc Hkeep].
      apply list_elem_of_In in Hc.
      rewrite Forall_forall in Hbase. rewrite (Hbase c Hc) in Hkeep.
      cbn [orb] in Hkeep. apply orb_true_iff in Hkeep. exact Hkeep. }
    apply (SlugEdge.replace_runs_spaces _ false) in Hrem.
    apply SlugEdge.replace_runs_hyphens in Hrem as [_ Hcol].
    unfold Slug.collapse_hyphens, Slug.spaces_to_hyphen.
    destruct Hcol as [->| ->]; reflexivity.
Qed.


(** * Bounded concurrency *)

Section Bounded.

Context `{Slug.StringLib}.
Variable cfg : Config.
Variable env : Env.
Variable apiKeys : list (list N).
Variable model : list N.
Variable files : list File.

(** [pool_loop] is the iteration of [pool_turn]. *)
Lemma pool_loop_turn fuel q w :
  pool_loop cfg env apiKeys (S fuel) model files q w
  = match workers q with
    | [] => Some (Normal (results q), w)
    | _ :: _ =>
        match pool_turn cfg env apiKeys model files q w with
        | (Thrown e, w2) => Some (Thrown e, w2)
        | (Normal q', w2) => pool_loop cfg env apiKeys fuel model files q' w2
        end
    end.
Proof.
  cbn [pool_loop]. unfold pool_turn.
  destruct (workers q) as [|wk0 ws]; [reflexivity|].
  cbv zeta. destruct (advance _ w) as [s w1].
  destruct (worker_from _ _ _ _ _ _ _ _ _) as [[[[o i] rs]|e] w2];
    reflexivity.
Qed.

Lemma worker_from_lengths pending : forall s idx rs w o idx' rs' w',
  worker_from cfg env apiKeys model s pending idx rs w
    = (Normal (o, idx', rs'), w') ->
  idx <= idx' /\ idx' <= idx + length pending
  /\ length rs' + length (add_worker o []) = length rs + 1 + (idx' - idx).
Proof.
  induction pending as [|file pending IH];
    intros s idx rs w o idx' rs' w' Hex;
    (destruct s as [[result|e]|r k]; cbn [worker_from] in Hex;
     [| discriminate |]).
  - injection Hex as <- <- <- <-. rewrite length_app. cbn. lia.
  - injection Hex as <- <- <- <-. cbn. lia.
  - destruct (advance (processFile cfg env apiKeys file model) w)
      as [s1 w1].
    apply IH in Hex as (Hle & Hhi & Hlen). rewrite length_app in Hlen.
    cbn [length] in *. lia.
  - injection Hex as <- <- <- <-. cbn. lia.
Qed.

Lemma worker_lengths idx rs w o idx' rs' w' :
  worker cfg env apiKeys model files idx rs w = (Normal (o, idx', rs'), w') ->
  idx <= idx' /\ idx' <= idx + length (drop idx files)
  /\ length rs' + length (add_worker o []) = length rs + (idx' - idx).
Proof.
  unfold worker. destruct (drop idx files) as [|file pending].
  - intros Hex. injection Hex as <- <- <- <-. cbn. lia.
  - intros Hex.
    destruct (advance (processFile cfg env apiKeys file model) w)
      as [s1 w1].
    apply worker_from_lengths in Hex as (Hle & Hhi & Hlen).
    cbn [length] in *. lia.
Qed.

(** At most [limit] workers, one file in work per worker. *)
Local Abbreviation within_limit limit q :=
  (length (workers q) <= limit
   /\ index q = length (results q) + length (workers q)
   /\ index q <= length files).

Lemma start_workers_limit n : forall q w q' w' limit,
  within_limit limit q ->
  start_workers cfg env apiKeys model files n q w = (Normal q', w') ->
  within_limit (limit + n) q'.
Proof.
  induction n as [|n IH]; intros q w q' w' limit (Hw & Hi & Hle) Hst.
  - cbn in Hst. injection Hst as <- <-. repeat split; lia.
  - cbn [start_workers] in Hst.
    destruct (worker cfg env apiKeys model files (index q) (results q) w)
      as [[[[o i] rs]|e] w1] eqn:Hwk; [|discriminate].
    apply worker_lengths in Hwk as (Hle1 & Hhi1 & Hlen1).
    rewrite length_drop in Hhi1.
    apply (IH _ _ _ _ (S limit)) in Hst.
    + replace (limit + S n) with (S limit + n) by lia. exact Hst.
    + cbn [index results workers].
      destruct o as [wk|]; cbn [add_worker length app] in *;
        rewrite ?length_app; cbn [length]; repeat split; lia.
Qed.

Lemma pool_turn_limit q w q' w' limit :
  within_limit limit q ->
  pool_turn cfg env apiKeys model files q w = (Normal q', w') ->
  within_limit limit q'.
Proof.
  intros (Hw & Hi & Hle). unfold pool_turn.
  destruct (workers q) as [|wk0 ws] eqn:Hq.
  { intros Heq. injection Heq as <- <-. rewrite Hq. repeat split; lia. }
  rewrite <- Hq in *. cbv zeta.
  set (j := schedule env (trace w) mod length (workers q)).
  assert (Hj : j < length (workers q)).
  { apply Nat.mod_upper_bound. rewrite Hq. discriminate. }
  destruct (advance _ w) as [s w1].
  destruct (worker_from _ _ _ _ _ _ _ _ _) as [[[[o i] rs]|e] w2] eqn:Hwf;
    [|discriminate].
  intros Heq. injection Heq as <- <-.
  apply worker_from_lengths in Hwf as (Hle1 & Hhi1 & Hlen1).
  rewrite length_drop in Hhi1. cbn [index results workers].
  destruct o as [wk'|]; cbn [add_worker length app] in Hlen1.
  - rewrite length_insert. repeat split; lia.
  - rewrite length_delete by (apply lookup_lt_is_Some_2; exact Hj).
    repeat split; lia.
Qed.

Lemma pool_reaches_limit q0 w0 q w limit :
  within_limit limit q0 ->
  pool_reaches cfg env apiKeys model files q0 w0 q w ->
  within_limit limit q.
Proof.
  intros H0. induction 1 as [|q1 w1 q' w' _ IH _ Hturn]; [exact H0|].
  eapply pool_turn_limit; eassumption.
Qed.

End Bounded.

(** The queue is bounded.  [runQueue] starts its workers and then goes
    through the turns of [pool_loop]; in every state it goes through, at
    most [CONCURRENCY_LIMIT] workers are suspended, and the files claimed
    and not yet finished are as many as the suspended workers: never more
    than [CONCURRENCY_LIMIT] files are in work at a time. *)
Theorem runQueue_bounded_concurrency `{Slug.StringLib} (cfg : Config)
  (env : Env) (apiKeys : list (list N)) (files : list File) (w : World) :
  let model := model_name env in
  exists q0 w0,
    start_workers cfg env apiKeys model files (CONCURRENCY_LIMIT cfg)
      {| index := 0; results := []; workers := [] |} w = (Normal q0, w0)
    /\ (forall fuel,
          runQueue_fuel cfg env apiKeys fuel files w
          = pool_loop cfg env apiKeys fuel model files q0 w0)
    /\ (forall fuel q w1,
          pool_loop cfg env apiKeys (S fuel) model files q w1
          = match workers q with
            | [] => Some (Normal (results q), w1)
            | _ :: _ =>
                match pool_turn cfg env apiKeys model files q w1 with
                | (Thrown e, w2) => Some (Thrown e, w2)
                | (Normal q', w2) =>
                    pool_loop cfg env apiKeys fuel model files q' w2
                end
            end)
    /\ forall q w1,
         pool_reaches cfg env apiKeys model files q0 w0 q w1 ->
         length (workers q) <= CONCURRENCY_LIMIT cfg
         /\ index q - length (results q) = length (workers q)
         /\ index q <= length files.
Proof.
  intros model.
  destruct (start_workers_spec cfg env apiKeys model files
              (CONCURRENCY_LIMIT cfg)
              {| index := 0; results := []; workers := [] |} w [] [])
    as (q0 & w0 & done & jobs & Hst & _).
  { split; simpl; [constructor|constructor|reflexivity|lia]. }
  { simpl. unfold cost. simpl. lia. }
  exists q0, w0. split; [exact Hst|]. split.
  { intros fuel. unfold runQueue_fuel. fold model. rewrite Hst.
    reflexivity. }
  split; [intros fuel q w1; apply pool_loop_turn|].
  intros q w1 Hreach.
  apply (start_workers_limit cfg env apiKeys model files _ _ _ _ _ 0) in Hst;
    [|cbn; repeat split; lia].
  destruct (pool_reaches_limit cfg env apiKeys model files q0 w0 q w1 _
              Hst Hreach) as (Hw & Hi & Hle).
  cbn [Nat.add] in Hw. repeat split; lia.
Qed.


Lemma start_workers_no_files `{Slug.StringLib} cfg env apiKeys model n :
  forall q w,
    start_workers cfg env apiKeys model [] n q w = (Normal q, w).
Proof.
  induction n as [|n IH]; intros q w; [reflexivity|].
  cbn [start_workers]. unfold worker. rewrite drop_nil.
  cbn [add_worker]. destruct q as [i rs ws]. cbn [index results workers].
  apply IH.
Qed.

(** The queue with nothing to do.  Without a worker
    ([CONCURRENCY_LIMIT = 0]) or without a file, [runQueue] returns at once
    with no outcome and has done nothing: with no worker, no file is
    processed however many there are. *)
Theorem runQueue_nothing_to_do `{Slug.StringLib} (cfg : Config) (env : Env)
  (apiKeys : list (list N)) (files : list File) (w : World) :
  CONCURRENCY_LIMIT cfg = 0 \/ files = [] ->
  runQueue cfg env apiKeys files w = Some (Normal [], w).
Proof.
  intros [Hc| ->]; unfold runQueue, runQueue_fuel.
  - rewrite Hc. cbn [start_workers].
    destruct (length files * awaits_per_file cfg); reflexivity.
  - rewrite start_workers_no_files. reflexivity.
Qed.

Lemma runQueue_nothing_to_do_sample :
  (CONCURRENCY_LIMIT
     {| BATCH_SIZE := 20; CONCURRENCY_LIMIT := 0; REQUEST_DELAY := 1500;
        MAX_RETRIES := 5 |} = 0
   \/ List.filter is_pending Sample.listing = [])
  /\ runQueue
       {| BATCH_SIZE := 20; CONCURRENCY_LIMIT := 0; REQUEST_DELAY := 1500;
          MAX_RETRIES := 5 |}
       Sample.healthy Sample.keys (List.filter is_pending Sample.listing)
       Sample.start
     = Some (Normal [], Sample.start).
Proof.
  assert (H0 : CONCURRENCY_LIMIT
                 {| BATCH_SIZE := 20; CONCURRENCY_LIMIT := 0;
                    REQUEST_DELAY := 1500; MAX_RETRIES := 5 |} = 0
               \/ List.filter is_pending Sample.listing = [])
    by (left; reflexivity).
  split; [exact H0|].
  exact (runQueue_nothing_to_do _ Sample.healthy Sample.keys
           (List.filter is_pending Sample.listing) Sample.start H0).
Defined.


(** * The rotation of the keys under the queue *)

Section Paired.

Variable apiKeys : list (list N).

Local Abbreviation none := (fun (_ : JsError) (h : option GoogleGenAI) => h = None).

Lemma paired_bind {A B} (p : Prog A) (k : A -> Prog B) :
  forall held (Q1 : A -> option GoogleGenAI -> Prop)
         (Q : B -> option GoogleGenAI -> Prop) E,
  paired apiKeys p held Q1 E ->
  (forall a h, Q1 a h -> paired apiKeys (k a) h Q E) ->
  paired apiKeys (bind p k) held Q E.
Proof.
  induction p as [a|e|C f k' IH|r k' IH]; intros held Q1 Q E Hp Hk;
    cbn [paired bind] in *.
  - apply Hk, Hp.
  - exact Hp.
  - destruct Hp as [[Hf Hk']|(Hh & g & Hf & Hk')].
    + left. split; [exact Hf|]. intros b. eapply IH; [apply Hk'|exact Hk].
    + right. split; [exact Hh|]. exists g. split; [exact Hf|].
      intros b. eapply IH; [apply Hk'|exact Hk].
  - destruct (key_of r) as [ai|].
    + destruct Hp as [Hh Hk']. split; [exact Hh|].
      intros s. eapply IH; [apply Hk'|exact Hk].
    + intros s Hs. eapply IH; [apply Hp, Hs|exact Hk].
Qed.

Lemma paired_try_catch {A} (p : Prog A) (h : JsError -> Prog A) :
  forall held (Q : A -> option GoogleGenAI -> Prop) E1 E,
  paired apiKeys p held Q E1 ->
  (forall e h', E1 e h' -> paired apiKeys (h e) h' Q E) ->
  paired apiKeys (try_catch p h) held Q E.
Proof.
  induction p as [a|e|C f k IH|r k IH]; intros held Q E1 E Hp Hh;
    cbn [paired try_catch] in *.
  - exact Hp.
  - apply Hh, Hp.
  - destruct Hp as [[Hf Hk]|(Hhd & g & Hf & Hk)].
    + left. split; [exact Hf|]. intros b. eapply IH; [apply Hk|exact Hh].
    + right. split; [exact Hhd|]. exists g. split; [exact Hf|].
      intros b. eapply IH; [apply Hk|exact Hh].
  - destruct (key_of r) as [ai|].
    + destruct Hp as [Hhd Hk]. split; [exact Hhd|].
      intros s. eapply IH; [apply Hk|exact Hh].
    + intros s Hs. eapply IH; [apply Hp, Hs|exact Hh].
Qed.

(** A synchronous step that leaves the cursor and the trace alone. *)
Lemma paired_sync {B} (f : World -> B * World) held :
  (forall w, keyIndex (snd (f w)) = keyIndex w
             /\ trace (snd (f w)) = trace w) ->
  paired apiKeys (Sync f Ret) held (fun _ h => h = held) none.
Proof. intros Hf. cbn [paired]. left. split; [exact Hf|reflexivity]. Qed.

Lemma paired_console_log line held :
  paired apiKeys (console_log line) held (fun _ h => h = held) none.
Proof. apply paired_sync. intros w. split; reflexivity. Qed.

(** An await that is no generation call and, if it is rejected, is rejected
    with nothing in hand. *)
Lemma paired_await r :
  key_of r = None ->
  paired apiKeys (await r) None (fun _ h => h = None) none.
Proof.
  intros Hr. cbn [paired await]. rewrite Hr. intros [a|e] _; reflexivity.
Qed.

Lemma paired_sleep ms held :
  paired apiKeys (sleep ms) held (fun _ h => h = held) none.
Proof.
  unfold sleep. cbn [paired await key_of]. intros [a|e] Hs;
    [reflexivity|destruct Hs].
Qed.

Lemma paired_getNextGemini :
  paired apiKeys (getNextGemini apiKeys) None (fun ai h => h = Some ai) none.
Proof.
  cbn [paired getNextGemini]. right. split; [reflexivity|].
  exists (fun ai => ai). split; [|reflexivity].
  intros w. cbn [fst snd keyIndex trace set_keyIndex]. repeat split.
Qed.

Lemma keys_used_app tr1 tr2 :
  keys_used (tr1 ++ tr2) = keys_used tr1 ++ keys_used tr2.
Proof. unfold keys_used. apply omap_app. Qed.

Lemma answer_possible env tr r : possible r (answer env tr r).
Proof. destruct r; exact I. Qed.

Lemma rotation_S c a n :
  rotation apiKeys c a (S n)
  = {| apiKey := apiKeys !! ((c + a) mod length apiKeys) |}
    :: rotation apiKeys c (S a) n.
Proof. reflexivity. Qed.

Lemma rotation_app c a n m :
  rotation apiKeys c a (n + m)
  = rotation apiKeys c a n ++ rotation apiKeys c (a + n) m.
Proof. unfold rotation. rewrite seq_app, List.map_app. reflexivity. Qed.

(** One stretch of a program: the clients taken are used or in hand. *)
Lemma advance_paired {A} (p : Prog A) c :
  forall held a w,
  paired apiKeys p held (fun _ h => h = None) none ->
  keyIndex w = (c + a) mod length apiKeys ->
  exists n held',
    keyIndex (snd (advance p w)) = (c + (a + n)) mod length apiKeys
    /\ keys_used (trace (snd (advance p w))) ++ in_hand held'
       ≡ₚ keys_used (trace w) ++ in_hand held ++ rotation apiKeys c a n
    /\ resumes_paired apiKeys (fst (advance p w)) held'.
Proof.
  induction p as [x|e|C f k IH|r k IH]; intros held a w Hp Hk;
    cbn [paired advance] in *.
  - exists 0, held. cbn [fst snd resumes_paired rotation seq List.map].
    rewrite Nat.add_0_r, app_nil_r. split; [exact Hk|].
    split; [reflexivity|exact Hp].
  - exists 0, held. cbn [fst snd resumes_paired rotation seq List.map].
    rewrite Nat.add_0_r, app_nil_r. split; [exact Hk|].
    split; [reflexivity|exact Hp].
  - destruct Hp as [[Hf Hk']|(-> & g & Hf & Hk')].
    + destruct (Hf w) as [Hki Htr]. destruct (f w) as [b w1].
      cbn [snd] in Hki, Htr.
      destruct (IH b held a w1 (Hk' b)) as (n & held' & H1 & H2 & H3);
        [congruence|].
      exists n, held'. rewrite <- Htr. split; [exact H1|]. split; assumption.
    + destruct (Hf w) as (Hg & Hki & Htr). destruct (f w) as [b w1].
      cbn [fst snd] in Hg, Hki, Htr.
      destruct (IH b (Some (g b)) (S a) w1 (Hk' b))
        as (n & held' & H1 & H2 & H3).
      { rewrite Hki, Hk, Nat.Div0.add_mod_idemp_l. f_equal. lia. }
      exists (S n), held'.
      split; [rewrite H1; f_equal; lia|]. split; [|exact H3].
      rewrite H2, Htr, rotation_S, Hg, Hk. reflexivity.
  - cbn [fst snd resumes_paired trace issue]. rewrite keys_used_app.
    unfold keys_used at 2. cbn [omap list_omap].
    destruct (key_of r) as [ai|].
    + destruct Hp as [-> Hk']. exists 0, None.
      cbn [rotation seq List.map in_hand]. rewrite Nat.add_0_r, !app_nil_r.
      split; [exact Hk|]. split; [reflexivity|].
      intros s' _. apply Hk'.
    + exists 0, held. cbn [rotation seq List.map].
      rewrite Nat.add_0_r, !app_nil_r.
      split; [exact Hk|]. split; [reflexivity|exact Hp].
Qed.

End Paired.


Section PairedScript.

Context `{Slug.StringLib}.
Variable cfg : Config.
Variable env : Env.
Variable apiKeys : list (list N).
Variable model : list N.

Local Abbreviation none :=
  (fun (_ : JsError) (h : option GoogleGenAI) => h = None).
Local Abbreviation empty_handed A :=
  (fun (_ : A) (h : option GoogleGenAI) => h = None).

Lemma paired_attempt prompt :
  paired apiKeys (attempt cfg apiKeys prompt model) None
    (empty_handed (list N)) none.
Proof.
  unfold attempt.
  apply paired_bind with (Q1 := fun ai h => h = Some ai);
    [apply paired_getNextGemini|].
  intros ai h ->.
  apply paired_bind with (Q1 := fun _ h => h = Some ai);
    [apply paired_sleep|].
  intros ? h ->. cbn [bind await paired key_of].
  split; [reflexivity|].
  intros [[[|c t]|]|e]; reflexivity.
Qed.

Lemma paired_retry_loop prompt fuel : forall a,
  paired apiKeys (retry_loop cfg apiKeys fuel a prompt model) None
    (empty_handed (option (list N))) none.
Proof.
  induction fuel as [|fuel IH]; intros a; [reflexivity|].
  cbn [retry_loop]. destruct (a <? MAX_RETRIES cfg); [|reflexivity].
  apply paired_try_catch with (E1 := none).
  - apply paired_bind with (Q1 := empty_handed (list N));
      [apply paired_attempt|].
    intros text h ->. reflexivity.
  - intros e h ->.
    apply paired_bind with (Q1 := empty_handed unit);
      [apply paired_console_log|].
    intros ? h ->.
    apply paired_bind with (Q1 := empty_handed unit).
    { destruct (bool_decide _); [apply paired_console_log|reflexivity]. }
    intros ? h ->.
    apply paired_bind with (Q1 := empty_handed unit); [apply paired_sleep|].
    intros ? h ->.
    destruct (MAX_RETRIES cfg <=? S a); [reflexivity|apply IH].
Qed.

Lemma paired_processFile file :
  paired apiKeys (processFile cfg env apiKeys file model) None
    (empty_handed Outcome) none.
Proof.
  unfold processFile.
  apply paired_bind with (Q1 := empty_handed unit);
    [apply paired_console_log|].
  intros ? h ->.
  apply paired_try_catch with (E1 := none).
  - apply paired_bind with (Q1 := empty_handed JsValue);
      [apply (paired_await apiKeys (AxiosGet (secureUrl file)));
       reflexivity|].
    intros v h ->.
    apply paired_bind with (Q1 := empty_handed (option (list N)));
      [apply paired_retry_loop|].
    intros content h ->.
    apply paired_bind with (Q1 := empty_handed unit).
    { destruct content as [content|]; cbn [writeFileSync paired];
        [|reflexivity].
      left. split; [|intros [e|]; reflexivity].
      intros w. destruct (writeFileSync_error env _ _ _);
        [|split; reflexivity].
      cbn [snd]. rewrite after_failed_write_trace, after_failed_write_keyIndex.
      split; reflexivity. }
    intros ? h ->.
    apply paired_bind with (Q1 := empty_handed N).
    { apply paired_sync. intros w. split; reflexivity. }
    intros timestamp h ->.
    apply paired_bind with (Q1 := empty_handed unit);
      [apply (paired_await apiKeys (AxiosPut _ _)); reflexivity|].
    intros ? h ->.
    apply paired_bind with (Q1 := empty_handed unit);
      [apply paired_console_log|].
    intros ? h ->. reflexivity.
  - intros e h ->.
    apply paired_bind with (Q1 := empty_handed unit);
      [apply paired_console_log|].
    intros ? h ->. reflexivity.
Qed.

Variable c : nat.

Local Abbreviation worker_holds held :=
  (fun o : option Worker =>
     match o with
     | Some wk =>
         forall s, possible (req wk) s ->
                   paired apiKeys (cont wk s) held (empty_handed Outcome) none
     | None => held = None
     end).

Lemma worker_from_paired pending : forall s idx rs w held a o idx' rs' w',
  resumes_paired apiKeys s held ->
  keyIndex w = (c + a) mod length apiKeys ->
  worker_from cfg env apiKeys model s pending idx rs w
    = (Normal (o, idx', rs'), w') ->
  exists n held',
    keyIndex w' = (c + (a + n)) mod length apiKeys
    /\ keys_used (trace w') ++ in_hand held'
       ≡ₚ keys_used (trace w) ++ in_hand held ++ rotation apiKeys c a n
    /\ worker_holds held' o.
Proof.
  induction pending as [|file pending IH];
    intros s idx rs w held a o idx' rs' w' Hs Hk Hex;
    (destruct s as [[result|e]|r k]; cbn [worker_from] in Hex;
     [| discriminate |]).
  - injection Hex as <- <- <- <-. exists 0, None.
    cbn [resumes_paired] in Hs. subst held.
    rewrite Nat.add_0_r. split; [exact Hk|]. split; reflexivity.
  - injection Hex as <- <- <- <-. exists 0, held.
    cbn [rotation seq List.map]. rewrite Nat.add_0_r, app_nil_r.
    split; [exact Hk|]. split; [reflexivity|exact Hs].
  - cbn [resumes_paired] in Hs. subst held.
    destruct (advance_paired apiKeys
                (processFile cfg env apiKeys file model) c None a w
                (paired_processFile file) Hk) as (n1 & held1 & H1 & H2 & H3).
    destruct (advance (processFile cfg env apiKeys file model) w)
      as [s1 w1]. cbn [fst snd] in H1, H2, H3.
    destruct (IH _ _ _ _ _ _ _ _ _ _ H3 H1 Hex) as (n2 & held' & H4 & H5 & H6).
    exists (n1 + n2), held'.
    split; [rewrite H4; f_equal; lia|]. split; [|exact H6].
    rewrite H5, rotation_app, !app_assoc. f_equiv. rewrite <- !app_assoc.
    exact H2.
  - injection Hex as <- <- <- <-. exists 0, held.
    cbn [rotation seq List.map]. rewrite Nat.add_0_r, app_nil_r.
    split; [exact Hk|]. split; [reflexivity|exact Hs].
Qed.

Lemma worker_paired files idx rs w a o idx' rs' w' :
  keyIndex w = (c + a) mod length apiKeys ->
  worker cfg env apiKeys model files idx rs w = (Normal (o, idx', rs'), w') ->
  exists n held',
    keyIndex w' = (c + (a + n)) mod length apiKeys
    /\ keys_used (trace w') ++ in_hand held'
       ≡ₚ keys_used (trace w) ++ rotation apiKeys c a n
    /\ worker_holds held' o.
Proof.
  intros Hk. unfold worker. destruct (drop idx files) as [|file pending].
  - intros Hex. injection Hex as <- <- <- <-. exists 0, None.
    rewrite Nat.add_0_r. split; [exact Hk|]. split; reflexivity.
  - intros Hex.
    destruct (advance_paired apiKeys
                (processFile cfg env apiKeys file model) c None a w
                (paired_processFile file) Hk) as (n1 & held1 & H1 & H2 & H3).
    destruct (advance (processFile cfg env apiKeys file model) w)
      as [s1 w1]. cbn [fst snd] in H1, H2, H3.
    destruct (worker_from_paired _ _ _ _ _ _ _ _ _ _ _ H3 H1 Hex)
      as (n2 & held' & H4 & H5 & H6).
    exists (n1 + n2), held'.
    split; [rewrite H4; f_equal; lia|]. split; [|exact H6].
    rewrite H5, rotation_app, !app_assoc. f_equiv. exact H2.
Qed.

Lemma perm_start {A} (K1 K H1 C B R0 R1 : list A) :
  K ++ C ≡ₚ B ++ R0 -> K1 ++ H1 ≡ₚ K ++ R1 ->
  K1 ++ (C ++ H1) ≡ₚ B ++ R0 ++ R1.
Proof.
  intros Hp H2.
  transitivity ((K1 ++ H1) ++ C); [solve_Permutation|].
  rewrite H2. transitivity ((K ++ C) ++ R1); [solve_Permutation|].
  rewrite Hp. solve_Permutation.
Qed.

Lemma perm_turn {A} (K K1 K2 Hh H1 H2 D B R0 R1 R2 : list A) :
  K ++ (Hh ++ D) ≡ₚ B ++ R0 ->
  K1 ++ H1 ≡ₚ K ++ Hh ++ R1 ->
  K2 ++ H2 ≡ₚ K1 ++ H1 ++ R2 ->
  K2 ++ H2 ++ D ≡ₚ B ++ R0 ++ R1 ++ R2.
Proof.
  intros Hp Ha Hb.
  transitivity ((K2 ++ H2) ++ D); [solve_Permutation|].
  rewrite Hb. transitivity (((K1 ++ H1) ++ R2) ++ D); [solve_Permutation|].
  rewrite Ha. transitivity ((K ++ (Hh ++ D)) ++ R1 ++ R2);
    [solve_Permutation|].
  rewrite Hp. solve_Permutation.
Qed.

Lemma in_hand_delete (helds : list (option GoogleGenAI)) j h :
  helds !! j = Some h ->
  concat (in_hand <$> helds)
  ≡ₚ in_hand h ++ concat (in_hand <$> delete j helds).
Proof.
  intros Hj. rewrite <- (take_drop_middle helds j h Hj) at 1.
  rewrite delete_take_drop, !fmap_app, fmap_cons, !concat_app, concat_cons.
  rewrite !app_assoc. f_equiv. apply Permutation_app_comm.
Qed.

Lemma in_hand_insert (helds : list (option GoogleGenAI)) j h h' :
  helds !! j = Some h ->
  concat (in_hand <$> <[j:=h']> helds)
  ≡ₚ in_hand h' ++ concat (in_hand <$> delete j helds).
Proof.
  intros Hj. rewrite insert_take_drop by (eapply lookup_lt_Some; exact Hj).
  rewrite delete_take_drop, !fmap_app, fmap_cons, !concat_app, concat_cons.
  rewrite !app_assoc. f_equiv. apply Permutation_app_comm.
Qed.

Variable base : list GoogleGenAI.
Variable files : list File.

Lemma start_workers_paired n : forall q w a q' w',
  rotating apiKeys base c a q w ->
  start_workers cfg env apiKeys model files n q w = (Normal q', w') ->
  exists a', rotating apiKeys base c a' q' w'.
Proof.
  induction n as [|n IH]; intros q w a q' w' Hinv Hst.
  - cbn in Hst. injection Hst as <- <-. exists a. exact Hinv.
  - cbn [start_workers] in Hst.
    destruct (worker cfg env apiKeys model files (index q) (results q) w)
      as [[[[o i] rs]|e] w1] eqn:Hwk; [|discriminate].
    destruct Hinv as (helds & Hws & Hk & Hperm).
    destruct (worker_paired _ _ _ _ a _ _ _ _ Hk Hwk)
      as (m & held' & H1 & H2 & H3).
    apply (IH _ _ (a + m)) in Hst; [exact Hst|].
    destruct o as [wk|]; cbn [workers add_worker].
    + exists (helds ++ [held']).
      split; [apply Forall2_app; [exact Hws|]; constructor;
              [exact H3|constructor]|].
      split; [exact H1|].
      rewrite fmap_app, concat_app. cbn [fmap list_fmap concat].
      rewrite app_nil_r, rotation_app, Nat.add_0_l.
      exact (perm_start _ _ _ _ _ _ _ Hperm H2).
    + cbn beta iota in H3. subst held'. exists helds.
      split; [exact Hws|]. split; [exact H1|].
      rewrite rotation_app, Nat.add_0_l.
      pose proof (perm_start _ _ _ _ _ _ _ Hperm H2) as Hp.
      cbn [in_hand] in Hp. rewrite app_nil_r in Hp. exact Hp.
Qed.

Lemma pool_loop_paired fuel : forall q w a outs w',
  rotating apiKeys base c a q w ->
  pool_loop cfg env apiKeys fuel model files q w = Some (Normal outs, w') ->
  exists a',
    keyIndex w' = (c + a') mod length apiKeys
    /\ keys_used (trace w') ≡ₚ base ++ rotation apiKeys c 0 a'.
Proof.
  induction fuel as [|fuel IH]; intros q w a outs w' Hinv Hrun;
    cbn [pool_loop] in Hrun;
    destruct (workers q) as [|wk0 ws] eqn:Hq.
  1, 3: injection Hrun as <- <-;
    destruct Hinv as (helds & Hws & Hk & Hperm);
    rewrite Hq in Hws; apply Forall2_nil_inv_l in Hws; subst helds;
    cbn [fmap list_fmap concat] in Hperm; rewrite app_nil_r in Hperm;
    exists a; split; assumption.
  - discriminate.
  - rewrite <- Hq in Hrun.
    set (j := schedule env (trace w) mod length (workers q)) in *.
    assert (Hj : j < length (workers q)).
    { apply Nat.mod_upper_bound. rewrite Hq. discriminate. }
    destruct (lookup_lt_is_Some_2 _ _ Hj) as [wk Hwk].
    rewrite (nth_lookup_Some _ _ wk0 _ Hwk) in Hrun.
    destruct Hinv as (helds & Hws & Hk & Hperm).
    destruct (Forall2_lookup_l _ _ _ _ _ Hws Hwk) as (held & Hheld & Hcont).
    destruct (advance_paired apiKeys
                (cont wk (answer env (trace w) (req wk))) c held a w
                (Hcont _ (answer_possible env _ _)) Hk)
      as (n1 & held1 & H1 & H2 & H3).
    destruct (advance (cont wk (answer env (trace w) (req wk))) w)
      as [s w1]. cbn [fst snd] in H1, H2, H3.
    destruct (worker_from cfg env apiKeys model s (drop (index q) files)
                (index q) (results q) w1)
      as [[[[o i] rs]|e] w2] eqn:Hwf; [|discriminate].
    destruct (worker_from_paired _ _ _ _ _ _ _ _ _ _ _ H3 H1 Hwf)
      as (n2 & held2 & H4 & H5 & H6).
    apply (IH _ _ (a + (n1 + n2))) in Hrun; [exact Hrun|].
    assert (Hall : keys_used (trace w2) ++ in_hand held2
                   ++ concat (in_hand <$> delete j helds)
                   ≡ₚ base ++ rotation apiKeys c 0 (a + (n1 + n2))).
    { rewrite rotation_app, Nat.add_0_l, rotation_app.
      rewrite (in_hand_delete helds j held Hheld) in Hperm.
      exact (perm_turn _ _ _ _ _ _ _ _ _ _ _ Hperm H2 H5). }
    destruct o as [wk'|]; cbn [workers].
    + exists (<[j:=held2]> helds).
      split; [apply Forall2_insert; assumption|].
      split; [rewrite H4; f_equal; lia|].
      rewrite (in_hand_insert helds j held held2 Hheld). exact Hall.
    + cbn beta iota in H6. subst held2. exists (delete j helds).
      split; [apply Forall2_delete; exact Hws|].
      split; [rewrite H4; f_equal; lia|]. exact Hall.
Qed.

End PairedScript.


Lemma length_keys_used tr : length (keys_used tr) = generate_calls tr.
Proof.
  unfold keys_used, generate_calls.
  induction tr as [|r tr IH]; [reflexivity|].
  destruct r; cbn [omap list_omap key_of List.filter is_generate length];
    rewrite ?IH; reflexivity.
Qed.

(** The rotation of the keys under the queue.  However the workers
    interleave, every generation call of [runQueue] uses a client taken from
    the rotation and every client taken is used: the clients of the [n]
    generation calls made are, up to the order in which the calls went out,
    those of the keys at the cursor, the cursor plus one, and so on modulo
    the number of keys, none skipped and none taken twice; and the cursor
    has moved by [n]. *)
Theorem runQueue_key_rotation `{Slug.StringLib} (cfg : Config) (env : Env)
  (apiKeys : list (list N)) (files : list File) (w : World) :
  1 <= CONCURRENCY_LIMIT cfg ->
  keyIndex w < length apiKeys ->
  exists outs w' n,
    runQueue cfg env apiKeys files w = Some (Normal outs, w')
    /\ keys_used (trace w')
       ≡ₚ keys_used (trace w) ++ rotation apiKeys (keyIndex w) 0 n
    /\ keyIndex w' = (keyIndex w + n) mod length apiKeys
    /\ generate_calls (trace w') = generate_calls (trace w) + n
    /\ n <= length files * MAX_RETRIES cfg.
Proof.
  intros Hc Hk.
  destruct (runQueue_summary cfg env apiKeys files w Hc)
    as (outs & w' & Hrun & _ & _ & Hg & _).
  pose proof Hrun as Hrun'. unfold runQueue, runQueue_fuel in Hrun'.
  destruct (start_workers _ _ _ _ _ _ _ _) as [[q|e] w1] eqn:Hst;
    [|discriminate].
  apply (start_workers_paired cfg env apiKeys (model_name env) (keyIndex w)
           (keys_used (trace w)) files _ _ _ 0) in Hst as [a Hinv].
  2: { exists []. split; [constructor|].
       split; [rewrite Nat.add_0_r, Nat.mod_small by exact Hk; reflexivity|].
       reflexivity. }
  destruct (pool_loop_paired cfg env apiKeys (model_name env) (keyIndex w)
              (keys_used (trace w)) files _ _ _ _ _ _ Hinv Hrun')
    as (n & Hki & Hperm).
  exists outs, w', n. split; [exact Hrun|]. split; [exact Hperm|].
  split; [exact Hki|].
  assert (Hlen : generate_calls (trace w') = generate_calls (trace w) + n).
  { rewrite <- !length_keys_used, Hperm, length_app. f_equal.
    unfold rotation. rewrite length_map, length_seq. reflexivity. }
  split; [exact Hlen|].
  unfold count_requests in Hg. unfold generate_calls in Hlen. lia.
Qed.

Lemma runQueue_key_rotation_sample :
  1 <= CONCURRENCY_LIMIT script_config
  /\ keyIndex Sample.start < length Sample.keys
  /\ exists outs w' n,
       runQueue script_config Sample.flaky Sample.keys
         (List.filter is_pending Sample.listing) Sample.start
       = Some (Normal outs, w')
       /\ keys_used (trace w') ≡ₚ rotation Sample.keys 0 0 n
       /\ keyIndex w' = n mod 3.
Proof.
  assert (Hc : 1 <= CONCURRENCY_LIMIT script_config) by (simpl; lia).
  assert (Hk : keyIndex Sample.start < length Sample.keys) by (simpl; lia).
  split; [exact Hc|]. split; [exact Hk|].
  destruct (runQueue_key_rotation script_config Sample.flaky Sample.keys
              (List.filter is_pending Sample.listing) Sample.start Hc Hk)
    as (outs & w' & n & Hrun & Hperm & Hki & _).
  exists outs, w', n. split; [exact Hrun|]. split; [exact Hperm|exact Hki].
Defined.

(** * The names in the report of a batch *)

Lemma omap_lookup_seq {A} (l : list A) : forall pre,
  omap (fun i => (pre ++ l) !! i) (seq (length pre) (length l)) = l.
Proof.
  induction l as [|x l IH]; intros pre; [reflexivity|].
  assert (Hx : (pre ++ x :: l) !! length pre = Some x).
  { rewrite lookup_app_r, Nat.sub_diag by lia. reflexivity. }
  cbn [length seq omap list_omap]. rewrite Hx. f_equal.
  replace (pre ++ x :: l) with ((pre ++ [x]) ++ l)
    by (rewrite <- app_assoc; reflexivity).
  replace (S (length pre)) with (length (pre ++ [x]))
    by (rewrite length_app; simpl; lia).
  apply IH.
Qed.

(** The outcomes of the queue are outcomes of the files, one per file. *)
Lemma served_files `{Slug.StringLib} files done outs :
  served files done outs -> done ≡ₚ seq 0 (length files) ->
  exists fs, fs ≡ₚ files /\ Forall2 outcome_of fs outs.
Proof.
  intros Hs Hp.
  assert (Hfs : exists fs,
             fs = omap (fun i => files !! i) done
             /\ Forall2 outcome_of fs outs).
  { clear Hp. induction Hs as [|i o done outs (f & Hf & Ho) _ IH].
    - exists []. split; [reflexivity|constructor].
    - destruct IH as (fs & H1 & H2). exists (f :: fs). split.
      + cbn [omap list_omap]. rewrite Hf, H1. reflexivity.
      + constructor; assumption. }
  destruct Hfs as (fs & -> & H2). eexists. split; [|exact H2].
  rewrite Hp. pose proof (omap_lookup_seq files []) as Hall.
  cbn [app length] in Hall. rewrite Hall. reflexivity.
Qed.

(** The successes and the failures among the outcomes of [fs]. *)
Lemma outcomes_split `{Slug.StringLib} fs outs :
  Forall2 outcome_of fs outs ->
  exists succeeded failed,
    succeeded ++ failed.*1 ≡ₚ fs
    /\ List.filter success outs = List.map succeeded_outcome succeeded
    /\ List.filter (fun r => negb (success r)) outs
       = List.map failed_outcome failed.
Proof.
  induction 1 as [|f o fs outs Ho _ (succeeded & failed & Hp & Hs & Hf)].
  - exists [], []. repeat split; reflexivity.
  - destruct o as [s n e]. cbn [List.filter success].
    destruct Ho as [(Hsucc & Hn & He)|(Hsucc & Hn & msg & He)];
      cbn [success name error] in Hsucc, Hn, He; subst s n e;
      cbn [negb].
    + exists (f :: succeeded), failed. split; [|split].
      * cbn [app]. rewrite Hp. reflexivity.
      * cbn [List.map]. rewrite Hs. reflexivity.
      * exact Hf.
    + exists succeeded, ((f, msg) :: failed). split; [|split].
      * rewrite fmap_cons. cbn [fst].
        rewrite <- Permutation_middle, Hp. reflexivity.
      * exact Hs.
      * cbn [List.map]. rewrite Hf. reflexivity.
Qed.

Lemma exec_sendBatchEmail_text env succeeded failed w :
  exists stats,
    exec env (getFolderStats) w = (Normal stats, w)
    /\ exec env (sendBatchEmail env succeeded failed) w
       = exec env
           (sendEmail env
              (lit "Content Generation Report - "
               ++ toLocaleString env (trace w)
               ++ lit " - " ++ Number_toString (length succeeded)
               ++ lit " Success, " ++ Number_toString (length failed)
               ++ lit " Failed")
              (report_text (toLocaleString env (trace w)) stats
                 (List.map success_line succeeded)
                 (List.map failed_line failed))) w.
Proof.
  unfold sendBatchEmail, report_text. rewrite exec_bind. cbn [exec].
  rewrite exec_bind. unfold getFolderStats. cbn [exec]. rewrite !length_map.
  destruct (dir_exists w); cbn [negb]; cbv beta iota zeta;
    eexists; (split; [reflexivity|]); reflexivity.
Qed.

(** C10.  The name of an outcome is the slug with its extension when the
    file succeeded and the original file name when it failed, and the batch
    summary lists the files by these names.  [processFile] always returns
    such an outcome.  In a run of the script that finds pending files, with
    the mail configured, the outcomes the queue returns split the batch into
    the files that succeeded and the files that failed, each with the
    message of its error; the first mail [run] sends after the queue is the
    report built by [sendBatchEmail], whose text lists the first under
    [Successful Files:], one line [- slug] per file, and the second under
    [Failed Files:], one line [- original name (message)] per file. *)
Theorem outcome_name_in_report `{Slug.StringLib} (cfg : Config) (env : Env)
  (apiKeys : list (list N)) (w : World) (files : list File) (json : list N) :
  1 <= CONCURRENCY_LIMIT cfg ->
  env_truthy env (lit "EMAIL_HOST") = true ->
  axios_get env (trace w ++ [AxiosGet EXTERNAL_API_URL]) EXTERNAL_API_URL
  = Resolved (VFiles files json) ->
  let pending := take (BATCH_SIZE cfg) (List.filter is_pending files) in
  pending <> [] ->
  let queue_start :=
    print (lit "Found " ++ Number_toString (length pending) ++ lit " files.")
      (issue (AxiosGet EXTERNAL_API_URL)
         (print ([55357%N; 56960%N]
                 ++ lit " Starting Multi-Key Parallel Processing...") w)) in
  (forall file model w0,
     exists o w1,
       exec env (processFile cfg env apiKeys file model) w0 = (Normal o, w1)
       /\ (success o = true ->
             name o = Slug.generateSafeFilename (originalFilename file)
             /\ error o = None)
       /\ (success o = false ->
             name o = originalFilename file
             /\ exists msg, error o = Some msg))
  /\ exists outs w3 succeeded failed stats t w' after,
       runQueue cfg env apiKeys pending queue_start = Some (Normal outs, w3)
       /\ succeeded ++ failed.*1 ≡ₚ pending
       /\ List.filter success outs
          = List.map
              (fun f =>
                 {| success := true;
                    name := Slug.generateSafeFilename (originalFilename f);
                    error := None |}) succeeded
       /\ List.filter (fun r => negb (success r)) outs
          = List.map
              (fun fe =>
                 {| success := false; name := originalFilename (fst fe);
                    error := Some (snd fe) |}) failed
       /\ exec env getFolderStats w3 = (Normal stats, w3)
       /\ run cfg env apiKeys w = Some (t, w')
       /\ count_requests is_mail (trace w3) = count_requests is_mail (trace w)
       /\ trace w'
          = trace w3
            ++ SendMail
                 (mail_record env
                    (lit "Content Generation Report - "
                     ++ toLocaleString env (trace w3) ++ lit " - "
                     ++ Number_toString (length succeeded)
                     ++ lit " Success, "
                     ++ Number_toString (length failed) ++ lit " Failed")
                    (report_text (toLocaleString env (trace w3)) stats
                       (List.map
                          (fun f =>
                             lit "- "
                             ++ Slug.generateSafeFilename (originalFilename f))
                          succeeded)
                       (List.map
                          (fun fe =>
                             lit "- " ++ originalFilename (fst fe)
                             ++ lit " (" ++ snd fe ++ lit ")")
                          failed)))
               :: after.
Proof.
  intros Hc Hhost Hget pending Hsome queue_start. split.
  { intros file model w0.
    destruct (exec env (processFile cfg env apiKeys file model) w0)
      as [c w1] eqn:Hex.
    pose proof (exec_within env _ _ _ _ _ _ _
                  (within_processFile cfg env apiKeys file model) Hex) as Ho.
    destruct c as [o|e]; [|destruct Ho].
    exists o, w1. split; [reflexivity|].
    destruct Ho as [(Hs & Hn & He)|(Hs & Hn & msg & He)]; rewrite Hs.
    - split; [auto|discriminate].
    - split; [discriminate|]. intros _. split; [exact Hn|]. eauto. }
  destruct (runQueue_fuel_spec cfg env apiKeys (model_name env) pending
              (length pending * awaits_per_file cfg) queue_start Hc (le_n _)
              eq_refl)
    as (outs & w3 & done & Hrun & Hserved & Hperm).
  fold (runQueue cfg env apiKeys pending queue_start) in Hrun.
  destruct (runQueue_summary cfg env apiKeys pending queue_start Hc)
    as (outs' & w3' & Hrun' & _ & _ & _ & _ & Hmail).
  rewrite Hrun in Hrun'. injection Hrun' as <- <-.
  destruct (served_files pending done outs Hserved Hperm)
    as (fs & Hfs & Houts).
  destruct (outcomes_split fs outs Houts)
    as (succeeded & failed & Hsplit & Hsucc & Hfail).
  destruct (exec_sendBatchEmail_text env (List.filter success outs)
              (List.filter (fun r => negb (success r)) outs) w3)
    as (stats & Hstats & Hbatch).
  exists outs, w3, succeeded, failed, stats.
  assert (Hreport :
    exists t w' after,
      run cfg env apiKeys w = Some (t, w')
      /\ trace w'
         = trace w3
           ++ SendMail
                (mail_record env
                   (lit "Content Generation Report - "
                    ++ toLocaleString env (trace w3) ++ lit " - "
                    ++ Number_toString (length (List.filter success outs))
                    ++ lit " Success, "
                    ++ Number_toString
                         (length
                            (List.filter (fun r => negb (success r)) outs))
                    ++ lit " Failed")
                   (report_text (toLocaleString env (trace w3)) stats
                      (List.map success_line (List.filter success outs))
                      (List.map failed_line
                         (List.filter (fun r => negb (success r)) outs))))
              :: after).
  { unfold run, run_try, fetch_pending.
    rewrite exec_bind. cbn [exec await answer issue trace print].
    rewrite Hget. cbn [exec]. fold pending.
    destruct pending as [|f rest] eqn:Hpending; [congruence|].
    fold queue_start. rewrite Hrun. rewrite exec_bind, Hbatch.
    match goal with
    | |- context [exec env (sendEmail env ?subject ?body) w3] =>
        destruct (sendEmail_cases env subject body w3)
          as [[Hhost' _]|[_ ->]]; [congruence|]
    end.
    destruct (sendMail env _ _) as [[]|e] eqn:Hsent.
    - cbn [exec console_log]. eexists _, _, []. split; reflexivity.
    - match goal with
      | |- context [issue (SendMail ?m) w3] =>
          destruct (exec_run_catch env e (issue (SendMail m) w3))
            as (t & w' & Hex & _ & _ & _ & _ & Hcase)
      end.
      destruct Hcase as [(Hhost' & _)|(_ & Htr & _)]; [congruence|].
      exists t, w'. eexists. split; [exact Hex|].
      rewrite Htr. cbn [trace issue]. rewrite <- app_assoc. reflexivity. }
  destruct Hreport as (t & w' & after & Hmain & Htrace).
  exists t, w', after.
  split; [exact Hrun|]. split; [rewrite Hsplit; exact Hfs|].
  split; [exact Hsucc|]. split; [exact Hfail|]. split; [exact Hstats|].
  split; [exact Hmain|].
  split.
  { rewrite Hmail. unfold queue_start. cbn [trace print issue].
    rewrite count_requests_app. cbn. lia. }
  rewrite Htrace, Hsucc, Hfail, !length_map, !List.map_map.
  reflexivity.
Qed.

Lemma outcome_name_in_report_sample :
  1 <= CONCURRENCY_LIMIT script_config
  /\ env_truthy Sample.one_update_down (lit "EMAIL_HOST") = true
  /\ axios_get Sample.one_update_down
       (trace Sample.start ++ [AxiosGet EXTERNAL_API_URL]) EXTERNAL_API_URL
     = Resolved (VFiles Sample.listing (lit "[]"))
  /\ take (BATCH_SIZE script_config) (List.filter is_pending Sample.listing)
     <> []
  /\ exists t w' stats date before after,
       run script_config Sample.one_update_down Sample.keys Sample.start
       = Some (t, w')
       /\ trace w'
          = before
            ++ SendMail
                 (mail_record Sample.one_update_down
                    (lit "Content Generation Report - " ++ date
                     ++ lit " - 2 Success, 1 Failed")
                    (report_text date stats
                       [lit "- qa-draft.mdx"; lit "- intro-notes.mdx"]
                       [lit "- b_c.md (502)"]))
               :: after.
Proof.
  assert (H1 : 1 <= CONCURRENCY_LIMIT script_config) by (simpl; lia).
  assert (H2 : env_truthy Sample.one_update_down (lit "EMAIL_HOST") = true)
    by (vm_compute; reflexivity).
  assert (H3 : axios_get Sample.one_update_down
                 (trace Sample.start ++ [AxiosGet EXTERNAL_API_URL])
                 EXTERNAL_API_URL
               = Resolved (VFiles Sample.listing (lit "[]")))
    by (vm_compute; reflexivity).
  assert (H4 : take (BATCH_SIZE script_config)
                 (List.filter is_pending Sample.listing) <> [])
    by (vm_compute; discriminate).
  split; [exact H1|]. split; [exact H2|]. split; [exact H3|].
  split; [exact H4|].
  destruct (outcome_name_in_report script_config Sample.one_update_down
              Sample.keys Sample.start Sample.listing (lit "[]") H1 H2 H3 H4)
    as [_ (outs & w3 & succeeded & failed & stats & t & w' & after
           & Hq & _ & Hs & Hf & _ & Hrun & _ & Htrace)].
  vm_compute in Hq. injection Hq as <- _.
  destruct succeeded as [|f1 [|f2 [|f3 succeeded]]]; try discriminate Hs.
  destruct failed as [|[g1 msg] [|g2 failed]]; try discriminate Hf.
  cbn [List.filter success negb List.map fst snd] in Hs, Hf.
  injection Hs as Hn1 Hn2. injection Hf as Hg1 Hmsg.
  exists t, w', stats, (toLocaleString Sample.one_update_down (trace w3)),
    (trace w3), after.
  split; [exact Hrun|]. rewrite Htrace. cbn [List.map length fst snd].
  rewrite <- Hn1, <- Hn2, <- Hg1, <- Hmsg. reflexivity.
Defined.
